(** * Telejob: the job controller and the log dispatcher

    A shallow embedding of the Go packages [pkg/job] (controller, jobs,
    cgroup handling, log dispatcher) and [pkg/telejob] (service,
    interceptors, credentials) and of the table of the client, with the
    properties the specification states about them and further properties
    read off the code.

    Conventions of the embedding:
    - Go's [uint64] and [int] are [Z] with the wrap-around written out;
    - [float64] is the kernel's binary64 ([PrimFloat]);
    - file-system and process system calls go through one function [sys]
      that records every call with its outcome in the world's log and asks
      a fault function whether the call fails;
    - goroutines are interleavings of atomic events: each operation of the
      controller is one step, the reaper of a job is a step of its own, and
      the log dispatcher is a transition system over the events of its
      [select] loop and of its readers. *)

From Stdlib Require Import ZArith NArith String Ascii List Bool Lia.
From Stdlib Require Import DecimalString DecimalN DecimalZ Floats.
From stdpp Require Import base option gmap strings list.

Local Open Scope string_scope.
Local Open Scope list_scope.
Local Open Scope Z_scope.

(* ===================================================================== *)
(** * Part I: definitions                                                  *)
(* ===================================================================== *)

(** ** Go's numbers and their formatting *)

Module Go.

(** [uint64] arithmetic is modulo [2^64]. *)
Definition wrap64 (z : Z) : Z := z mod 2 ^ 64.

(** The largest [int]: the length of a slice never exceeds it. *)
Definition MaxInt : Z := 2 ^ 63 - 1.

(** [strconv.FormatUint(x, 10)], and [%d] of an unsigned value. *)
Definition FormatUint (x : Z) : string :=
  NilZero.string_of_uint (N.to_uint (Z.to_N x)).

(** [%d] of a signed value. *)
Definition FormatInt (x : Z) : string :=
  NilZero.string_of_int (Z.to_int x).

(** Truncation of a binary64 value towards zero, when it is a number. *)
Definition trunc_float (f : float) : option Z :=
  match Prim2SF f with
  | S754_zero _ => Some 0
  | S754_finite s m e =>
      let mag := if 0 <=? e then Z.pos m * 2 ^ e else Z.pos m / 2 ^ (- e) in
      Some (if s then - mag else mag)
  | S754_infinity _ | S754_nan => None
  end.

(** The conversion [int(f)] of a [float64]. Go leaves the result open when
    the truncated value is no [int]; amd64 (CVTTSD2SI) answers with the
    smallest [int], which is what this definition does. *)
Definition int_of_float64 (f : float) : Z :=
  match trunc_float f with
  | Some z => if (- 2 ^ 63 <=? z) && (z <=? MaxInt) then z else - 2 ^ 63
  | None => - 2 ^ 63
  end.

(** The newline of a format string. *)
Definition newline : string := String "010" "".

(** [filepath.Join] of two clean, non-empty elements (the parent cgroup
    path with a decimal id, a cgroup directory with a control file name). *)
Definition filepath_Join (dir name : string) : string := (dir ++ "/" ++ name)%string.

(** [time.Time]: nanoseconds on the wall clock; [0] is the zero value. *)
Definition time_Time : Type := Z.
Definition IsZero (t : time_Time) : bool := t =? 0.

(** [syscall.WaitStatus] on Linux, as [os.ProcessState] holds it. *)
Definition WaitStatus : Type := Z.
Definition Exited (ws : WaitStatus) : bool := Z.land ws 127 =? 0.
Definition ExitStatus (ws : WaitStatus) : Z :=
  if Exited ws then Z.land (Z.shiftr ws 8) 255 else -1.

(** [ExitCode] of an [os.ProcessState]: [-1] for a nil state, and for a process
    that has not exited or was terminated by a signal. *)
Definition ProcessState_ExitCode (p : option WaitStatus) : Z :=
  match p with
  | None => -1
  | Some ws => ExitStatus ws
  end.

End Go.
Import Go.

(** ** Errors *)

(** The errors of the operating system and of package [os]: the ones the
    code tests for, and any other error number. *)
Inductive oserr : Type :=
| ErrNotExist | ErrExist | ErrProcessDone | EBUSY
| Errno (n : nat).

(** What [errors.Is] can be asked about: the sentinel errors of package
    [job], and the errors of the operating system. *)
Inductive target : Type :=
| ErrCgroup | ErrCommand | ErrJobNotFound | ErrJobStop | ErrShutdown
| ErrUnauthorized
| OS (e : oserr).

#[global] Instance oserr_eq_dec : EqDecision oserr.
Proof. solve_decision. Defined.

#[global] Instance target_eq_dec : EqDecision target.
Proof. solve_decision. Defined.

(** An [error] value: a sentinel, [fmt.Errorf] with the operands of its
    [%w] verbs, or [errors.Join]. The message keeps the format's words. *)
#[warnings="-register-all"]
Inductive error : Type :=
| New (t : target)
| Errorf (msg : string) (wrapped : list error)
| Join (errs : list error).

(** [errors.Is]. *)
Fixpoint Is (e : error) (t : target) : bool :=
  match e with
  | New t' => bool_decide (t' = t)
  | Errorf _ ws => existsb (fun e' => Is e' t) ws
  | Join es => existsb (fun e' => Is e' t) es
  end.

(** ** The operating system *)

Inductive syscall : Type :=
| Mkdir (path : string)
| WriteFile (dir file content : string)
| Stat (path : string)
| Remove (path : string)
| Open (path : string)
| Close (path : string)
| StartProcess (command : string) (args : list string) (cgroup : string)
| Kill (pid : nat).

(** The world: the cgroup directories that exist, and every system call
    made so far with its outcome. *)
Record World : Type := mkWorld {
  dirs : gset string;
  log : list (syscall * option oserr)
}.

(** A fault function decides, from the number of calls made so far and the
    call, whether the call fails for a reason of the environment (a busy
    cgroup, a missing binary, a refused write). *)
Definition faults : Type := nat -> syscall -> option oserr.

Definition no_faults : faults := fun _ _ => None.

(** The failure a call meets in the world itself. *)
Definition natural_error (c : syscall) (w : World) : option oserr :=
  match c with
  | Mkdir p => if decide (p ∈ dirs w) then Some ErrExist else None
  | WriteFile d _ _ => if decide (d ∈ dirs w) then None else Some ErrNotExist
  | Stat p | Remove p | Open p =>
      if decide (p ∈ dirs w) then None else Some ErrNotExist
  | _ => None
  end.

Definition outcome (F : faults) (c : syscall) (w : World) : option oserr :=
  match F (length (log w)) c with
  | Some e => Some e
  | None => natural_error c w
  end.

Definition effect (c : syscall) (ds : gset string) : gset string :=
  match c with
  | Mkdir p => {[p]} ∪ ds
  | Remove p => ds ∖ {[p]}
  | _ => ds
  end.

(** One system call. *)
Definition sys (F : faults) (c : syscall) (w : World) : World * option oserr :=
  let r := outcome F c w in
  ({| dirs := match r with Some _ => dirs w | None => effect c (dirs w) end;
      log := log w ++ [(c, r)] |}, r).

(** ** Functions that run in the world and may return an error *)

(** A Go function with result [error]: [None] is [nil]. *)
Definition action : Type := World -> World * option error.

Definition skip : action := fun w => (w, None).

(** [if err := a; err != nil { return err }] followed by [b]. *)
Definition and_then (a b : action) : action :=
  fun w =>
    match a w with
    | (w', Some e) => (w', Some e)
    | (w', None) => b w'
    end.

Notation "a ;;; b" := (and_then a b) (at level 90, right associativity).

(** [for _, x := range xs { if err := f x; err != nil { return err } }]. *)
Fixpoint for_each {A : Type} (f : A -> action) (xs : list A) : action :=
  match xs with
  | [] => skip
  | x :: xs' => f x ;;; for_each f xs'
  end.

Inductive result (A : Type) : Type :=
| Ok (a : A)
| Err (e : error).
Arguments Ok {A} a.
Arguments Err {A} e.

(** ** Cgroups (controller.go) *)

(** [Limits] of status.go. *)
Record Limits : Type := mkLimits {
  CPUs : float;
  MemoryKiB : Z;
  IO : list string
}.

(** [writeCgroupFile]: the error wraps [ErrCgroup] alone. *)
Definition writeCgroupFile (F : faults) (jobCgroup filename content : string) : action :=
  fun w =>
    match sys F (WriteFile jobCgroup filename content) w with
    | (w', Some _) => (w', Some (Errorf "cannot create" [New ErrCgroup]))
    | (w', None) => (w', None)
    end.

(** [deleteCgroup]: a cgroup that does not exist is deleted. *)
Definition deleteCgroup (F : faults) (cgroup : string) : action :=
  fun w =>
    match sys F (Stat cgroup) w with
    | (w1, Some e) =>
        if Is (New (OS e)) (OS ErrNotExist) then (w1, None)
        else (w1, Some (Errorf "cannot stat existing cgroup" [New (OS e)]))
    | (w1, None) =>
        match sys F (Remove cgroup) w1 with
        | (w2, Some e) => (w2, Some (Errorf "cannot delete cgroup" [New (OS e)]))
        | (w2, None) => (w2, None)
        end
    end.

(** [deleteCgroupOnErr]: the deletion's own error is logged and dropped. *)
Definition deleteCgroupOnErr (F : faults) (cgroup : string) (err : option error)
    (w : World) : World :=
  match err with
  | None => w
  | Some _ => fst (deleteCgroup F cgroup w)
  end.

(** The content written to [cpu.max] and to [memory.max]. *)
Definition cpu_max_content (l : Limits) : string :=
  (FormatInt (int_of_float64 (CPUs l * 100000)%float) ++ newline)%string.

Definition memory_max_content (l : Limits) : string :=
  (FormatUint (wrap64 (MemoryKiB l * 1024)) ++ newline)%string.

(** [newJobCgroup]: the directory, then the limits; the deferred
    [deleteCgroupOnErr] sees the error the function returns. *)
Definition newJobCgroup (F : faults) (cgroup : string) (limits : Limits) : action :=
  fun w =>
    match sys F (Mkdir cgroup) w with
    | (w1, Some e) => (w1, Some (Errorf "cannot create new job cgroup" [New (OS e)]))
    | (w1, None) =>
        let body :=
          (if (0 <? CPUs limits)%float
           then writeCgroupFile F cgroup "cpu.max" (cpu_max_content limits)
           else skip) ;;;
          (if 0 <? MemoryKiB limits
           then writeCgroupFile F cgroup "memory.max" (memory_max_content limits)
           else skip) ;;;
          for_each (fun ioLimit => writeCgroupFile F cgroup "io.max" ioLimit)
                   (IO limits) in
        let '(w2, err) := body w1 in
        (deleteCgroupOnErr F cgroup err w2, err)
    end.

(** [newTelejobCgroup]: the parent cgroup with its controllers enabled. *)
Definition newTelejobCgroup (F : faults) (telejobCgroup : string) : action :=
  fun w =>
    match sys F (Mkdir telejobCgroup) w with
    | (w1, Some e) => (w1, Some (Errorf "cannot create new telejob cgroup" [New (OS e)]))
    | (w1, None) =>
        match sys F (WriteFile telejobCgroup "cgroup.subtree_control"
                       "+cpu +io +memory") w1 with
        | (w2, Some e) =>
            (w2, Some (Errorf "cannot configure cgroup subtree control" [New (OS e)]))
        | (w2, None) => (w2, None)
        end
    end.

(** ** Jobs (job.go, status.go) *)

Definition NotTerminated : Z := -2.
Definition TerminatedBySignal : Z := -1.

Record Status : Type := mkStatus {
  ID : string;
  Command : string;
  Args : list string;
  Started : time_Time;
  Running : bool;
  ExitCode : Z;
  Stopped : time_Time
}.

(** A started [exec.Cmd]: what was run, and the process. *)
Record Cmd : Type := mkCmd {
  Path : string;
  CmdArgs : list string;
  Process : nat
}.

Record job : Type := mkJob {
  status : Status;
  cmd : Cmd;
  owner : string;
  cgroup : string
}.

(** What [cmd.Wait] returns: [nil], an [exec.ExitError] with the state of
    the process, or another error (of the wait system call, of I/O). *)
Inductive wait_result : Type :=
| WaitNil
| WaitExitError (state : option WaitStatus)
| WaitOtherError (e : oserr).

(** [newStartedCmd]. The cgroup directory stays open across the start of
    the process; the deferred [Close] comes last. *)
Definition newStartedCmd (F : faults) (id command : string) (args : list string)
    (limits : Limits) (cgroup : string) (w : World) : World * result Cmd :=
  match newJobCgroup F cgroup limits w with
  | (w1, Some e) => (w1, Err e)
  | (w1, None) =>
      match sys F (Open cgroup) w1 with
      | (w2, Some e) => (w2, Err (Errorf "cannot open new job cgroup" [New (OS e)]))
      | (w2, None) =>
          let pid := length (log w2) in
          match sys F (StartProcess command args cgroup) w2 with
          | (w3, Some e) =>
              let w4 := fst (deleteCgroup F cgroup w3) in
              let w5 := fst (sys F (Close cgroup) w4) in
              (w5, Err (Errorf "cannot start command" [New ErrCommand; New (OS e)]))
          | (w3, None) =>
              let w4 := fst (sys F (Close cgroup) w3) in
              (w4, Ok {| Path := command; CmdArgs := args; Process := pid |})
          end
      end
  end.

(** [newJob]. *)
Definition newJob (F : faults) (now : time_Time) (owner id command : string)
    (args : list string) (limits : Limits) (cgroup : string) (w : World)
    : World * result job :=
  match newStartedCmd F id command args limits cgroup w with
  | (w', Err e) => (w', Err e)
  | (w', Ok c) =>
      (w', Ok {| status := {| ID := id; Command := command; Args := args;
                              Started := now; Running := true;
                              ExitCode := NotTerminated; Stopped := 0 |};
                 cmd := c; owner := owner; cgroup := cgroup |})
  end.

Definition job_isRunning (j : job) : bool := Running (status j).

Definition job_getStatus (j : job) : Status := status j.

(** [job.stop]: [SIGKILL] to the process of a running job. *)
Definition job_stop (F : faults) (j : job) : action :=
  fun w =>
    if negb (Running (status j)) then (w, None)
    else
      match sys F (Kill (Process (cmd j))) w with
      | (w', Some e) =>
          if negb (Is (New (OS e)) (OS ErrProcessDone))
          then (w', Some (Errorf "cannot kill" [New ErrJobStop; New (OS e)]))
          else (w', None)
      | (w', None) => (w', None)
      end.

(** [deleteCgroupWithRetry], without its sleeps. *)
Fixpoint deleteCgroupWithRetry (F : faults) (cgroup : string) (retries : nat)
    (w : World) : World :=
  match retries with
  | O => w
  | S n =>
      match deleteCgroup F cgroup w with
      | (w', None) => w'
      | (w', Some e) =>
          if negb (Is e (OS EBUSY)) then w'
          else deleteCgroupWithRetry F cgroup n w'
      end
  end.

Definition set_status (j : job) (s : Status) : job :=
  {| status := s; cmd := cmd j; owner := owner j; cgroup := cgroup j |}.

(** The status [job.wait] leaves, from what [cmd.Wait] returned. *)
Definition waited_status (waitErr : wait_result) (now : time_Time) (s : Status) : Status :=
  {| ID := ID s; Command := Command s; Args := Args s; Started := Started s;
     Running := false;
     ExitCode := match waitErr with
                 | WaitNil => 0
                 | WaitExitError ps => ProcessState_ExitCode ps
                 | WaitOtherError _ => ExitCode s
                 end;
     Stopped := now |}.

(** [job.wait], from the return of [cmd.Wait] on. *)
Definition job_wait (F : faults) (waitErr : wait_result) (now : time_Time)
    (j : job) (w : World) : World * job :=
  let j' := set_status j (waited_status waitErr now (status j)) in
  let w1 := fst (writeCgroupFile F (cgroup j') "cgroup.kill" "1" w) in
  (deleteCgroupWithRetry F (cgroup j') 3 w1, j').

(** ** The controller (controller.go) *)

Record Controller : Type := mkController {
  jobs : gmap string job;
  maxID : Z;
  shutDown : bool;
  telejobCgroup : string;
  limits : Limits;
  wg : Z
}.

Definition set_jobs (c : Controller) (js : gmap string job) : Controller :=
  {| jobs := js; maxID := maxID c; shutDown := shutDown c;
     telejobCgroup := telejobCgroup c; limits := limits c; wg := wg c |}.

Definition set_maxID (c : Controller) (n : Z) : Controller :=
  {| jobs := jobs c; maxID := n; shutDown := shutDown c;
     telejobCgroup := telejobCgroup c; limits := limits c; wg := wg c |}.

Definition set_shutDown (c : Controller) (b : bool) : Controller :=
  {| jobs := jobs c; maxID := maxID c; shutDown := b;
     telejobCgroup := telejobCgroup c; limits := limits c; wg := wg c |}.

Definition set_wg (c : Controller) (n : Z) : Controller :=
  {| jobs := jobs c; maxID := maxID c; shutDown := shutDown c;
     telejobCgroup := telejobCgroup c; limits := limits c; wg := n |}.

(** Functional options: the two the package offers ([Option] is a function
    on the controller; its fields are not exported). *)
Inductive Option_ : Type :=
| WithCgroup (cgroup : string)
| WithLimits (l : Limits).

Definition apply_option (c : Controller) (opt : Option_) : Controller :=
  match opt with
  | WithCgroup cgroup =>
      {| jobs := jobs c; maxID := maxID c; shutDown := shutDown c;
         telejobCgroup := cgroup; limits := limits c; wg := wg c |}
  | WithLimits l =>
      {| jobs := jobs c; maxID := maxID c; shutDown := shutDown c;
         telejobCgroup := telejobCgroup c; limits := l; wg := wg c |}
  end.

(** [NewController]. *)
Definition NewController (F : faults) (opts : list Option_) (w : World)
    : World * result Controller :=
  let c0 := {| jobs := ∅; maxID := 0; shutDown := false;
               telejobCgroup := "/sys/fs/cgroup/telejob";
               limits := {| CPUs := 0%float; MemoryKiB := 0; IO := [] |};
               wg := 0 |} in
  let controller := fold_left apply_option opts c0 in
  match newTelejobCgroup F (telejobCgroup controller) w with
  | (w', Some e) => (w', Err e)
  | (w', None) => (w', Ok controller)
  end.

Definition Controller_add (c : Controller) (id : string) (j : job) : Controller :=
  set_jobs c (<[id := j]> (jobs c)).

Definition Controller_get (c : Controller) (owner_ id : string) : result job :=
  match jobs c !! id with
  | None => Err (Errorf "" [New ErrJobNotFound])
  | Some j =>
      if negb (String.eqb (owner j) owner_)
      then Err (Errorf "does not have access to job" [New ErrUnauthorized])
      else Ok j
  end.

Definition Controller_isShutDown (c : Controller) : bool := shutDown c.

(** [Controller.Start]. The goroutine it starts for [job.wait] is the step
    [Controller_reap] below; here it is counted in [wg]. The call is one
    step: it is [Start] with no other call on the controller in between.
    The code gives up the mutex between [isShutDown], [c.add] and
    [c.wg.Add(1)], and what another call finds there is not modelled. *)
Definition Controller_Start (F : faults) (now : time_Time) (c : Controller)
    (owner_ command : string) (args : list string) (w : World)
    : Controller * World * result string :=
  if (String.length command =? 0)%nat
  then (c, w, Err (Errorf "empty command" [New ErrCommand]))
  else if Controller_isShutDown c
  then (c, w, Err (Errorf "cannot start command" [New ErrShutdown]))
  else
    let n := wrap64 (maxID c + 1) in
    let c1 := set_maxID c n in
    let id := FormatUint n in
    let cgroup_ := filepath_Join (telejobCgroup c1) id in
    match newJob F now owner_ id command args (limits c1) cgroup_ w with
    | (w', Err e) => (c1, w', Err e)
    | (w', Ok j) =>
        let c2 := Controller_add c1 id j in
        (set_wg c2 (wg c2 + 1), w', Ok id)
    end.

(** [Controller.Stop]. *)
Definition Controller_Stop (F : faults) (c : Controller) (owner_ id : string)
    : action :=
  fun w =>
    match Controller_get c owner_ id with
    | Err e => (w, Some e)
    | Ok j => job_stop F j w
    end.

(** [Controller.Status]. *)
Definition Controller_Status (c : Controller) (owner_ id : string) : result Status :=
  match Controller_get c owner_ id with
  | Err e => Err e
  | Ok j => Ok (job_getStatus j)
  end.

(** The goroutine of [Start]: [job.wait] on the job registered under [id],
    once, when its process has ended, then [wg.Done]. *)
Definition Controller_reap (F : faults) (waitErr : wait_result) (now : time_Time)
    (c : Controller) (id : string) (w : World) : Controller * World :=
  match jobs c !! id with
  | Some j =>
      if Running (status j)
      then
        let '(w', j') := job_wait F waitErr now j w in
        (set_wg (set_jobs c (<[id := j']> (jobs c))) (wg c - 1), w')
      else (c, w)
  | None => (c, w)
  end.

(** How the processes of the jobs end, for the reapers [StopAll] waits for. *)
Definition exits : Type := string -> wait_result * time_Time.

(** The loop of [StopAll] over the jobs: [stop] on each running one, the
    errors collected. *)
Fixpoint stop_jobs (F : faults) (js : list (string * job)) (w : World)
    : World * list error :=
  match js with
  | [] => (w, [])
  | (_, j) :: js' =>
      if job_isRunning j
      then
        match job_stop F j w with
        | (w1, Some e) => let '(w2, errs) := stop_jobs F js' w1 in (w2, e :: errs)
        | (w1, None) => stop_jobs F js' w1
        end
      else stop_jobs F js' w
  end.

(** [wg.Wait]: every reaper still out finishes. The reapers out are taken
    to be those of the registered jobs that run, which is what [wg] counts
    between calls ([wg_counts] below); the counter itself is not read. *)
Fixpoint reap_jobs (F : faults) (ex : exits) (ids : list string)
    (c : Controller) (w : World) : Controller * World :=
  match ids with
  | [] => (c, w)
  | id :: ids' =>
      let '(c', w') := Controller_reap F (fst (ex id)) (snd (ex id)) c id w in
      reap_jobs F ex ids' c' w'
  end.

(** [Controller.StopAll]. The map is ranged over in the order of
    [map_to_list]; Go fixes none. *)
Definition Controller_StopAll (F : faults) (ex : exits) (c : Controller)
    (w : World) : Controller * World * option error :=
  if shutDown c then (c, w, None)
  else
    let c1 := set_shutDown c true in
    let '(w1, errs) := stop_jobs F (map_to_list (jobs c1)) w in
    let '(c2, w2) := reap_jobs F ex (map fst (map_to_list (jobs c1))) c1 w1 in
    let '(w3, err) := deleteCgroup F (telejobCgroup c2) w2 in
    let errs' := match err with Some e => errs ++ [e] | None => errs end in
    (c2, w3, if (0 <? length errs')%nat then Some (Join errs') else None).

(** ** Runs of the controller *)

Inductive op : Type :=
| OpStart (now : time_Time) (owner_ command : string) (args : list string)
| OpStop (owner_ id : string)
| OpStatus (owner_ id : string)
| OpReap (waitErr : wait_result) (now : time_Time) (id : string)
| OpStopAll (ex : exits).

Definition apply_op (F : faults) (o : op) (s : Controller * World)
    : Controller * World :=
  let '(c, w) := s in
  match o with
  | OpStart now owner_ command args =>
      fst (Controller_Start F now c owner_ command args w)
  | OpStop owner_ id => (c, fst (Controller_Stop F c owner_ id w))
  | OpStatus _ _ => (c, w)
  | OpReap waitErr now id => Controller_reap F waitErr now c id w
  | OpStopAll ex => fst (Controller_StopAll F ex c w)
  end.

Definition run_ops (F : faults) (ops : list op) (s : Controller * World)
    : Controller * World :=
  fold_left (fun s o => apply_op F o s) ops s.

(** ** The gRPC service (service.go) *)

Inductive code : Type :=
| InvalidArgument | NotFound | PermissionDenied | Internal | Unimplemented.

(** A gRPC status error. *)
Record status_error : Type := mkStatusError {
  status_code : code;
  status_message : string
}.

Record LogsRequest : Type := mkLogsRequest {
  Id : string;
  Follow : bool
}.

(** [Service.Logs]: neither the request nor the stream is looked at. *)
Definition Service_Logs {Stream : Type} (_ : LogsRequest) (_ : Stream)
    : option status_error :=
  Some {| status_code := Unimplemented; status_message := "not yet implemented" |}.

(** ** The log dispatcher (logs.go) *)

Module Logs.

(** *** Response channels *)

(** A [logResponseCh]: a channel of byte slices with a buffer of one. *)
Record chan : Type := mkChan {
  buf : option (list Byte.byte);
  closed : bool
}.

(** [make(logResponseCh, 1)]. *)
Definition make_chan : chan := {| buf := None; closed := false |}.

(** A send by the dispatcher, which must not wait: [None] when the buffer is
    taken (the send would block the loop) or the channel closed (panic). *)
Definition chan_send (b : list Byte.byte) (c : chan) : option chan :=
  if closed c then None
  else match buf c with
       | Some _ => None
       | None => Some {| buf := Some b; closed := false |}
       end.

(** [close]: [None] is the panic on a closed channel. *)
Definition chan_close (c : chan) : option chan :=
  if closed c then None else Some {| buf := buf c; closed := true |}.

(** A receive [b, ok := <-c]: the buffered slice, or [ok = false] (here
    [None]) from a closed and empty channel; no result while it blocks. *)
Definition chan_recv (c : chan) : option (chan * option (list Byte.byte)) :=
  match buf c with
  | Some b => Some ({| buf := None; closed := closed c |}, Some b)
  | None => if closed c then Some (c, None) else None
  end.

(** The channels made so far; a channel is named by its index. *)
Abbreviation heap := (list chan).

Definition send_to (ch : nat) (b : list Byte.byte) (h : heap) : option heap :=
  c ← h !! ch; c' ← chan_send b c; Some (<[ch := c']> h).

Definition close_ch (ch : nat) (h : heap) : option heap :=
  c ← h !! ch; c' ← chan_close c; Some (<[ch := c']> h).

(** [for follower := range l.followers { follower <- b }]. *)
Fixpoint send_all (fs : list nat) (b : list Byte.byte) (h : heap) : option heap :=
  match fs with
  | [] => Some h
  | f :: fs' => h' ← send_to f b h; send_all fs' b h'
  end.

(** [for follower := range l.followers { close(follower) }]. *)
Fixpoint close_all (fs : list nat) (h : heap) : option heap :=
  match fs with
  | [] => Some h
  | f :: fs' => h' ← close_ch f h; close_all fs' h'
  end.

(** *** The dispatcher *)

Record logRequest : Type := mkLogRequest {
  req_startIdx : Z;
  req_respCh : nat
}.

(** [logDispatcher]: [inputCh_open] is [l.inputCh != nil]; the request and
    done channels are unbuffered, so a send on them is the dispatcher's
    handling of it. *)
Record logDispatcher : Type := mkLogDispatcher {
  inputCh_open : bool;
  fullLog : list Byte.byte;
  followers : gset nat
}.

(** [handleInput]. [append] cannot make a slice longer than [MaxInt]. *)
Definition handleInput (b : list Byte.byte) (l : logDispatcher) (h : heap)
    : option (logDispatcher * heap) :=
  if MaxInt <? Z.of_nat (length (fullLog l ++ b)) then None
  else
    h' ← send_all (elements (followers l)) b h;
    Some ({| inputCh_open := inputCh_open l;
             fullLog := fullLog l ++ b;
             followers := ∅ |}, h').

(** [handleInputClosed]. *)
Definition handleInputClosed (l : logDispatcher) (h : heap)
    : option (logDispatcher * heap) :=
  h' ← close_all (elements (followers l)) h;
  Some ({| inputCh_open := false; fullLog := fullLog l; followers := ∅ |}, h').

(** [handleRequest]. *)
Definition handleRequest (req : logRequest) (l : logDispatcher) (h : heap)
    : option (logDispatcher * heap) :=
  if req_startIdx req <? Z.of_nat (length (fullLog l)) then
    h' ← send_to (req_respCh req)
                 (drop (Z.to_nat (req_startIdx req)) (fullLog l)) h;
    Some (l, h')
  else if inputCh_open l then
    Some ({| inputCh_open := inputCh_open l; fullLog := fullLog l;
             followers := {[req_respCh req]} ∪ followers l |}, h)
  else
    h' ← close_ch (req_respCh req) h;
    Some (l, h').

(** The [doneCh] case of the loop. *)
Definition handleDone (respCh : nat) (l : logDispatcher) (h : heap)
    : option (logDispatcher * heap) :=
  if decide (respCh ∈ followers l) then
    h' ← close_ch respCh h;
    Some ({| inputCh_open := inputCh_open l; fullLog := fullLog l;
             followers := followers l ∖ {[respCh]} |}, h')
  else Some (l, h).

(** *** Readers *)

(** [logReader]: [respCh] is [None] once it was set to [nil]. *)
Record logReader : Type := mkLogReader {
  startIdx : Z;
  respCh : option nat
}.

(** What a call of [Read] returns: the bytes copied into [p] with a nil
    error, [io.EOF], or the error of the context. *)
Inductive read_result : Type :=
| RData (bs : list Byte.byte)
| REOF
| RErr.

(** Where the goroutine of a reader stands: between calls of [Read], in the
    [select] of a call with a buffer of [p] bytes, or sending on [doneCh]. *)
Inductive place : Type :=
| Idle
| InSelect (p : nat)
| SendingDone.

Record reader : Type := mkReader {
  lr : logReader;
  ctx_done : bool;
  at_ : place;
  returns : list read_result
}.

(** *** The system: one dispatcher, its producer and its readers *)

Record system : Type := mkSystem {
  dispatcher : logDispatcher;
  chans : heap;
  readers : list reader;
  input_closed : bool
}.

(** [newStartedLogDispatcher]. *)
Definition newStartedLogDispatcher : system :=
  {| dispatcher := {| inputCh_open := true; fullLog := []; followers := ∅ |};
     chans := []; readers := []; input_closed := false |}.

Inductive event : Type :=
| EvInput (b : list Byte.byte)
| EvCloseInput
| EvInputClosed
| EvNewReader
| EvCancel (i : nat)
| EvRead (i p : nat)
| EvRecv (i : nat)
| EvCtxDone (i : nat)
| EvDone (i : nat).

Definition with_dispatcher (s : system) (lh : logDispatcher * heap) : system :=
  {| dispatcher := fst lh; chans := snd lh; readers := readers s;
     input_closed := input_closed s |}.

Definition set_reader (s : system) (i : nat) (r : reader) : system :=
  {| dispatcher := dispatcher s; chans := chans s;
     readers := <[i := r]> (readers s); input_closed := input_closed s |}.

Definition returned (r : reader) (x : read_result) : reader :=
  {| lr := lr r; ctx_done := ctx_done r; at_ := Idle;
     returns := returns r ++ [x] |}.

(** [Read], up to its [select]. *)
Definition Read_request (i p : nat) (r : reader) (s : system) : option system :=
  if ctx_done r then Some (set_reader s i (returned r RErr))
  else
    match respCh (lr r) with
    | None => Some (set_reader s i (returned r REOF))
    | Some ch =>
        lh ← handleRequest {| req_startIdx := startIdx (lr r); req_respCh := ch |}
               (dispatcher s) (chans s);
        Some (set_reader (with_dispatcher s lh) i
                {| lr := lr r; ctx_done := ctx_done r; at_ := InSelect p;
                   returns := returns r |})
    end.

(** [Read], the case [b, ok := <-lr.respCh] of its [select]. *)
Definition Read_receive (i p : nat) (r : reader) (s : system) : option system :=
  ch ← respCh (lr r);
  c ← chans s !! ch;
  '(c', got) ← chan_recv c;
  let s' := {| dispatcher := dispatcher s; chans := <[ch := c']> (chans s);
               readers := readers s; input_closed := input_closed s |} in
  match got with
  | None =>
      Some (set_reader s' i
              (returned {| lr := {| startIdx := startIdx (lr r); respCh := None |};
                           ctx_done := ctx_done r; at_ := at_ r;
                           returns := returns r |} REOF))
  | Some b =>
      let n := Nat.min p (length b) in
      Some (set_reader s' i
              (returned {| lr := {| startIdx := wrap64 (startIdx (lr r) + Z.of_nat n);
                                    respCh := respCh (lr r) |};
                           ctx_done := ctx_done r; at_ := at_ r;
                           returns := returns r |} (RData (take n b))))
  end.

(** One event of the system; [None] when the event cannot happen in [s]. *)
Definition step (s : system) (e : event) : option system :=
  match e with
  | EvInput b =>
      if input_closed s then None
      else with_dispatcher s <$> handleInput b (dispatcher s) (chans s)
  | EvCloseInput =>
      if input_closed s then None
      else Some {| dispatcher := dispatcher s; chans := chans s;
                   readers := readers s; input_closed := true |}
  | EvInputClosed =>
      if input_closed s && inputCh_open (dispatcher s)
      then with_dispatcher s <$> handleInputClosed (dispatcher s) (chans s)
      else None
  | EvNewReader =>
      Some {| dispatcher := dispatcher s;
              chans := chans s ++ [make_chan];
              readers := readers s ++
                [{| lr := {| startIdx := 0; respCh := Some (length (chans s)) |};
                    ctx_done := false; at_ := Idle; returns := [] |}];
              input_closed := input_closed s |}
  | EvCancel i =>
      r ← readers s !! i;
      Some (set_reader s i {| lr := lr r; ctx_done := true; at_ := at_ r;
                              returns := returns r |})
  | EvRead i p =>
      r ← readers s !! i;
      match at_ r with
      | Idle => Read_request i p r s
      | _ => None
      end
  | EvRecv i =>
      r ← readers s !! i;
      match at_ r with
      | InSelect p => Read_receive i p r s
      | _ => None
      end
  | EvCtxDone i =>
      r ← readers s !! i;
      match at_ r with
      | InSelect _ =>
          if ctx_done r
          then Some (set_reader s i {| lr := lr r; ctx_done := ctx_done r;
                                       at_ := SendingDone; returns := returns r |})
          else None
      | _ => None
      end
  | EvDone i =>
      r ← readers s !! i;
      match at_ r with
      | SendingDone =>
          ch ← respCh (lr r);
          lh ← handleDone ch (dispatcher s) (chans s);
          Some (set_reader (with_dispatcher s lh) i (returned r RErr))
      | _ => None
      end
  end.

(** A run: the events in order, from [s]. *)
Fixpoint run (evs : list event) (s : system) : option system :=
  match evs with
  | [] => Some s
  | e :: evs' => s' ← step s e; run evs' s'
  end.

(** The bytes of the calls of [Read] up to the first that returns [io.EOF];
    [None] while none has. *)
Fixpoint read_until_EOF (rs : list read_result) : option (list Byte.byte) :=
  match rs with
  | [] => None
  | RData b :: rs' => (fun bs => b ++ bs) <$> read_until_EOF rs'
  | REOF :: _ => Some []
  | RErr :: rs' => read_until_EOF rs'
  end.

(** A caller that reads with a buffer of [p] bytes until [io.EOF], as
    [requireRead] of the tests does, for at most [fuel] calls. *)
Fixpoint read_all (fuel : nat) (i p : nat) (s : system) : option system :=
  match fuel with
  | O => None
  | S n =>
      s1 ← step s (EvRead i p);
      s2 ← step s1 (EvRecv i);
      r ← readers s2 !! i;
      match last (returns r) with
      | Some REOF => Some s2
      | _ => read_all n i p s2
      end
  end.

(** The dispatcher gets to the closed input, if it has not yet. *)
Definition take_close (s : system) : option system :=
  if inputCh_open (dispatcher s) then step s EvInputClosed else Some s.

(** A reader that subscribes once the producer has closed the input, and
    reads with a buffer of [p] bytes until [io.EOF]. *)
Definition late_reader (p : nat) (s : system) : option system :=
  s0 ← take_close s;
  s1 ← step s0 EvNewReader;
  read_all (S (length (fullLog (dispatcher s0)))) (length (readers s0)) p s1.

(** The call of [Read] a reader is in, if it is in one, returns by the
    receive from its channel. *)
Definition finish_read (i : nat) (s : system) : option system :=
  r ← readers s !! i;
  match at_ r with
  | InSelect _ => step s (EvRecv i)
  | _ => Some s
  end.

(** A reader made at any time, wherever it stands when the producer has
    closed the input: the dispatcher gets to the close, the call the reader
    is in returns, and the caller reads on with a buffer of [p] bytes until
    [io.EOF]. *)
Definition read_to_the_end (p i : nat) (s : system) : option system :=
  s0 ← take_close s;
  s1 ← finish_read i s0;
  r ← readers s1 !! i;
  match respCh (lr r) with
  | None => Some s1
  | Some _ => read_all (S (length (fullLog (dispatcher s1)))) i p s1
  end.

End Logs.

(** ** The limits as the specification words them *)

(** [floor] of a binary64 number. *)
Definition floor_float (f : float) : option Z :=
  match Prim2SF f with
  | S754_zero _ => Some 0
  | S754_finite s m e =>
      let n := if s then Z.neg m else Z.pos m in
      Some (if 0 <=? e then n * 2 ^ e else n / 2 ^ (- e))
  | S754_infinity _ | S754_nan => None
  end.

(** The control-file writes of a job cgroup, in the order the specification
    lists them: [cpu.max] when [cpus > 0], [memory.max] when
    [memory_kib > 0], then one write of [io.max] per entry. The numbers are
    the ones of the code's arithmetic ([cpu_max_content],
    [memory_max_content]). *)
Definition limit_writes (cgroup : string) (l : Limits) : list syscall :=
  (if (0 <? CPUs l)%float
   then [WriteFile cgroup "cpu.max" (cpu_max_content l)] else []) ++
  (if 0 <? MemoryKiB l
   then [WriteFile cgroup "memory.max" (memory_max_content l)] else []) ++
  map (fun ioLimit => WriteFile cgroup "io.max" ioLimit) (IO l).

(** [floor (f * k)] for the number the binary64 value [f] stands for and an
    integer [k], in the arithmetic of numbers: no product is rounded. *)
Definition floor_of_product (f : float) (k : Z) : option Z :=
  match Prim2SF f with
  | S754_zero _ => Some 0
  | S754_finite s m e =>
      let n := (if s then Z.neg m else Z.pos m) * k in
      Some (if 0 <=? e then n * 2 ^ e else n / 2 ^ (- e))
  | S754_infinity _ | S754_nan => None
  end.

(** The two contents in the words of the specification, read as numbers:
    ["<floor(cpus*100000)>\n"] and ["<memory_kib*1024>\n"]. *)
Definition cpu_max_as_specified (l : Limits) : option string :=
  (fun z => (FormatInt z ++ newline)%string) <$> floor_of_product (CPUs l) 100000.

Definition memory_max_as_specified (l : Limits) : string :=
  (FormatUint (MemoryKiB l * 1024) ++ newline)%string.

(** ** The kernel's side of [cpu.max]

    Not code of the repository: the interface file of cgroup v2
    (Documentation/admin-guide/cgroup-v2.rst). It holds a quota and a
    period, [max 100000] at first; a write of one number sets the quota and
    keeps the period; a read shows both. The test
    [TestControllerWithManyJobs] reads the file back through it. *)

Module CgroupV2.

Record cpu_max : Type := mkCpuMax {
  quota : option Z;
  period : Z
}.

Definition cpu_max_default : cpu_max := {| quota := None; period := 100000 |}.

(** A string without its final newline. *)
Fixpoint chomp (s : string) : string :=
  match s with
  | EmptyString => EmptyString
  | String c s' =>
      match s' with
      | EmptyString => if Ascii.eqb c "010" then EmptyString else s
      | _ => String c (chomp s')
      end
  end.

(** A write of one decimal number. *)
Definition cpu_max_write (s : string) (c : cpu_max) : option cpu_max :=
  match NilZero.uint_of_string (chomp s) with
  | Some d => Some {| quota := Some (Z.of_N (N.of_uint d)); period := period c |}
  | None => None
  end.

Definition cpu_max_read (c : cpu_max) : string :=
  ((match quota c with Some q => FormatUint q | None => "max" end)
   ++ " " ++ FormatUint (period c) ++ newline)%string.

End CgroupV2.


(** ** The invariant of a status, and scenarios of the specification *)

(** The three conditions of section 8: running, exit code [-2], and a zero
    [Stopped] go together. *)
Definition status_invariant (s : Status) : Prop :=
  (Running s = true <-> ExitCode s = NotTerminated) /\
  (Running s = true <-> Stopped s = 0).

(** ** The calls of a job construction *)

(** A call that succeeded, as the log holds it. *)
Definition ok (c : syscall) : syscall * option oserr := (c, None).

(** The calls of one [deleteCgroup] of [cg], and what they do to the
    directories: a [Stat] that fails, a [Remove] that fails, or a [Remove]
    that succeeds. *)
Definition deletion (cg : string) (D : list (syscall * option oserr))
    (ds ds' : gset string) : Prop :=
  (exists e, D = [(Stat cg, Some e)] /\ ds' = ds) \/
  (exists e, D = [ok (Stat cg); (Remove cg, Some e)] /\ ds' = ds) \/
  (D = [ok (Stat cg); ok (Remove cg)] /\ ds' = ds ∖ {[cg]}).


(** The calls made between two worlds. *)
Definition new_calls (w w' : World) : list (syscall * option oserr) :=
  drop (length (log w)) (log w').

Module Scenario.

(** No cgroup exists, no call was made. *)
Definition world0 : World := {| dirs := ∅; log := [] |}.

(** An environment in which the binary [NOPE] does not exist. *)
Definition no_such_binary : faults :=
  fun _ c =>
    match c with
    | StartProcess command _ _ =>
        if String.eqb command "NOPE" then Some ErrNotExist else None
    | _ => None
    end.

(** End-to-end scenarios 1 to 5: three starts that succeed, a start of
    [NOPE], a status query for the id ["4"], and a fifth start. The results
    of the six calls. *)
Definition starts_around_a_failure
    : option (result string * result string * result string * result string
              * result Status * result string) :=
  let F := no_such_binary in
  match NewController F [] world0 with
  | (w0, Ok c0) =>
      let '(c1, w1, r1) := Controller_Start F 1 c0 "alice" "sleep" ["100"] w0 in
      let '(c2, w2, r2) := Controller_Start F 2 c1 "alice" "false" [] w1 in
      let '(c3, w3, r3) := Controller_Start F 3 c2 "alice" "true" [] w2 in
      let '(c4, w4, r4) := Controller_Start F 4 c3 "alice" "NOPE" [] w3 in
      let q := Controller_Status c4 "alice" "4" in
      let '(_, _, r5) := Controller_Start F 5 c4 "alice" "echo" ["hi"] w4 in
      Some (r1, r2, r3, r4, q, r5)
  | (_, Err _) => None
  end.

(** A job whose [cmd.Wait] fails with an error of the system call: the
    status the owner reads after the reaper has run. *)
Definition status_after_failed_wait : option (result Status) :=
  let F := no_faults in
  match NewController F [] world0 with
  | (w0, Ok c0) =>
      let '(c1, w1, _) := Controller_Start F 1 c0 "alice" "sleep" ["100"] w0 in
      let '(c2, _) := Controller_reap F (WaitOtherError (Errno 10)) 2 c1 "1" w1 in
      Some (Controller_Status c2 "alice" "1")
  | (_, Err _) => None
  end.

(** The limits of the specification's example, with one I/O limit. *)
Definition alice_limits : Limits :=
  {| CPUs := 0.5; MemoryKiB := 1000; IO := ["252:1 rbps=1000000"] |}.

(** A new controller with these limits (no job, if it cannot be made). *)
Definition fresh (F : faults) : Controller * World :=
  match NewController F [WithLimits alice_limits] world0 with
  | (w, Ok c) => (c, w)
  | (w, Err _) =>
      ({| jobs := ∅; maxID := 0; shutDown := false; telejobCgroup := "";
          limits := alice_limits; wg := 0 |}, w)
  end.

(** Its first job: [sleep 100] for [alice], started at time [1]. *)
Definition started (F : faults) : Controller * World * result string :=
  Controller_Start F 1 (fresh F).1 "alice" "sleep" ["100"] (fresh F).2.

(** A start of the binary that does not exist, on a fresh controller. *)
Definition nope : Controller * World * result string :=
  Controller_Start no_such_binary 1 (fresh no_such_binary).1 "alice" "NOPE" []
    (fresh no_such_binary).2.

(** Every process ends killed, at time [9]. *)
Definition all_killed : exits := fun _ => (WaitExitError (Some 9), 9).

Definition stopped : Controller * World * option error :=
  Controller_StopAll no_faults all_killed (started no_faults).1.1 (started no_faults).1.2.

Definition after_stop : Controller * World :=
  run_ops no_faults [OpStatus "alice" "1"; OpStop "alice" "1"] stopped.1.

(** The job ends by itself, and all is stopped. *)
Definition later_ops : list op :=
  [OpReap WaitNil 5 "1"; OpStart 6 "bob" "true" []; OpStopAll all_killed].

Definition later : Controller * World :=
  run_ops no_faults later_ops (started no_faults).1.


(** A producer that writes ["hi"] and closes, and a reader that reads with
    a buffer of ten bytes, before and after the close. *)
Definition hi : list Byte.byte := [Byte.x68; Byte.x69].

Definition hello_events : list Logs.event :=
  [Logs.EvNewReader; Logs.EvInput hi; Logs.EvRead 0 10; Logs.EvRecv 0;
   Logs.EvRead 0 10; Logs.EvCloseInput; Logs.EvInputClosed; Logs.EvRecv 0].

(** The state these events lead to. *)
Definition hello_state : Logs.system :=
  default Logs.newStartedLogDispatcher
    (Logs.run hello_events Logs.newStartedLogDispatcher).

(** A reader that is there before the producer writes: it calls [Read]
    on the empty log and waits; the producer writes ["hi"] and closes while
    the reader is still in its call. *)
Definition early_events : list Logs.event :=
  [Logs.EvNewReader; Logs.EvRead 0 10; Logs.EvInput hi; Logs.EvCloseInput].

Definition early_state : Logs.system :=
  default Logs.newStartedLogDispatcher
    (Logs.run early_events Logs.newStartedLogDispatcher).

End Scenario.

(** ** What the producer wrote *)

(** The bytes of the inputs of a run, in order: every [channelWriter.Write]
    sends a copy of its slice on the input channel. *)
Definition inputs (evs : list Logs.event) : list Byte.byte :=
  flat_map (fun e => match e with Logs.EvInput b => b | _ => [] end) evs.

(** ** Waits that end with a state of the process *)

(** A return of [cmd.Wait] that is [nil] or an [exec.ExitError], at a time
    on the clock that is not the zero time. *)
Definition clean_wait (x : wait_result * time_Time) : Prop :=
  (forall e, fst x <> WaitOtherError e) /\ snd x <> 0.

(** An operation of which every wait is such a return. *)
Definition clean_op (o : op) : Prop :=
  match o with
  | OpReap waitErr now _ => clean_wait (waitErr, now)
  | OpStopAll ex => forall id, clean_wait (ex id)
  | _ => True
  end.

(** ** The wait group *)

(** The registered jobs that run. Each has its reaper out: the goroutine
    of [Start] that is in [job.wait]. *)
Definition running (c : Controller) : gmap string job :=
  filter (fun p => Running (status p.2) = true) (jobs c).

(** [wg] counts the reapers that are out. This holds between calls: within
    [Start] it does not, from [c.add] to [c.wg.Add(1)], and a [StopAll] that
    finds the controller there does not wait for that job. Where it holds,
    [wg.Wait] returns when the reapers of the running registered jobs have
    finished, which is what [reap_jobs] in [Controller_StopAll] is. *)
Definition wg_counts (c : Controller) : Prop :=
  wg c = Z.of_nat (size (running c)).

(** ** Time stamps *)

Module GoTime.

(** Seconds from January 1 of year 1, the zero [time.Time], to January 1
    of 1970 ([unixToInternal] of package [time]). *)
Definition unixToInternal : Z := 62135596800.

(** [t.Unix()] and [t.Nanosecond()]. *)
Definition Unix (t : time_Time) : Z := t / 1000000000 - unixToInternal.
Definition Nanosecond (t : time_Time) : Z := t mod 1000000000.

(** [time.Unix(sec, nsec)]. *)
Definition time_Unix (sec nsec : Z) : time_Time :=
  (sec + unixToInternal) * 1000000000 + nsec.

End GoTime.

(** ** The messages of telejob.proto *)

Module Pb.

Record StartRequest : Type := mkStartRequest {
  Command_ : string;
  Arguments_ : list string
}.

Record StartResponse : Type := mkStartResponse { StartResponse_Id : string }.

(** [enum State]: an [int32] on the Go side. *)
Definition State : Type := Z.
Definition State_STATE_UNSPECIFIED : State := 0.
Definition State_STATE_RUNNING : State := 1.
Definition State_STATE_STOPPED : State := 2.

(** [google.protobuf.Timestamp]. *)
Record Timestamp : Type := mkTimestamp {
  Seconds : Z;
  Nanos : Z
}.

(** The getters answer for a nil message too. *)
Definition GetSeconds (t : option Timestamp) : Z :=
  match t with Some x => Seconds x | None => 0 end.
Definition GetNanos (t : option Timestamp) : Z :=
  match t with Some x => Nanos x | None => 0 end.

(** [timestamppb.New] and [AsTime]. *)
Definition timestamppb_New (t : time_Time) : Timestamp :=
  {| Seconds := GoTime.Unix t; Nanos := GoTime.Nanosecond t |}.
Definition AsTime (t : option Timestamp) : time_Time :=
  GoTime.time_Unix (GetSeconds t) (GetNanos t).

Record JobStatus : Type := mkJobStatus {
  JobStatus_Id : string;
  JobStatus_Command : string;
  JobStatus_Arguments : list string;
  JobStatus_State : State;
  JobStatus_Started : option Timestamp;
  JobStatus_Stopped : option Timestamp;
  JobStatus_ExitCode : Z
}.

End Pb.

(** ** The gRPC service, continued (service.go) *)

(** What the peer of a call presented: the certificates of a TLS
    connection, or no TLS information. *)
Record Certificate : Type := mkCertificate { Subject_CommonName : string }.

Inductive AuthInfo : Type :=
| TLSInfo (PeerCertificates : list Certificate)
| NoTLSInfo.

Record Peer : Type := mkPeer { Peer_AuthInfo : AuthInfo }.

(** A [context.Context], as far as the package reads it: the peer, and the
    value under [OwnerKey]. *)
Record Context : Type := mkContext {
  ctx_peer : option Peer;
  ctx_owner : option string
}.

(** What a call returns: a response, a status error of one of the codes of
    [code], a status error of the code [Unauthenticated] (the interceptors'
    own), or a panic. *)
Inductive rpc (A : Type) : Type :=
| Reply (a : A)
| Fail (e : status_error)
| Unauthenticated (msg : string)
| Panic.
Arguments Reply {A} a.
Arguments Fail {A} e.
Arguments Unauthenticated {A} msg.
Arguments Panic {A}.

(** [extractOwner]: the type assertion panics when no string is there. *)
Definition extractOwner (ctx : Context) : option string := ctx_owner ctx.

(** [pbTimestamp], [pbState], [pbJobStatus]. *)
Definition pbTimestamp (t : time_Time) : option Pb.Timestamp :=
  if IsZero t then None else Some (Pb.timestamppb_New t).

Definition pbState (running : bool) : Pb.State :=
  if running then Pb.State_STATE_RUNNING else Pb.State_STATE_STOPPED.

Definition pbJobStatus (s : Status) : Pb.JobStatus :=
  {| Pb.JobStatus_Id := ID s;
     Pb.JobStatus_Command := Command s;
     Pb.JobStatus_Arguments := Args s;
     Pb.JobStatus_Started := pbTimestamp (Started s);
     Pb.JobStatus_State := pbState (Running s);
     Pb.JobStatus_Stopped := pbTimestamp (Stopped s);
     Pb.JobStatus_ExitCode := ExitCode s |}.

Section Service.

(** The text of [%q] of a string and of [%v] of an error. *)
Variable Quote : string -> string.
Variable Error : error -> string.

(** [statusError] of an error that is not nil: the three returns after
    the nil check. *)
Definition statusError_of (e : error) (id : string) : status_error :=
  if Is e ErrJobNotFound
  then {| status_code := NotFound;
          status_message := ("job " ++ Quote id ++ " not found")%string |}
  else if Is e ErrUnauthorized
  then {| status_code := PermissionDenied;
          status_message := ("no ownership of job " ++ Quote id)%string |}
  else {| status_code := Internal;
          status_message := ("job " ++ Quote id ++ ": " ++ Error e)%string |}.

(** [statusError]. *)
Definition statusError (err : option error) (id : string) : option status_error :=
  match err with
  | None => None
  | Some e => Some (statusError_of e id)
  end.

(** [Service.Start]. *)
Definition Service_Start (F : faults) (now : time_Time) (ctx : Context)
    (req : Pb.StartRequest) (s : Controller * World)
    : Controller * World * rpc Pb.StartResponse :=
  match extractOwner ctx with
  | None => (s, Panic)
  | Some owner_ =>
      let command := Pb.Command_ req in
      let arguments := Pb.Arguments_ req in
      if (String.length command =? 0)%nat
      then (s, Fail {| status_code := InvalidArgument;
                       status_message := "empty command" |})
      else
        match Controller_Start F now (fst s) owner_ command arguments (snd s) with
        | (c', w', Err err) =>
            if Is err ErrCommand
            then (c', w', Fail {| status_code := InvalidArgument;
                                  status_message := Error err |})
            else (c', w', Fail {| status_code := Internal;
                                  status_message := Error err |})
        | (c', w', Ok id) => (c', w', Reply {| Pb.StartResponse_Id := id |})
        end
  end.

(** [Service.Stop], with the id of its request; the error it hands to
    [statusError] is not nil. *)
Definition Service_Stop (F : faults) (ctx : Context) (id : string)
    (s : Controller * World) : Controller * World * rpc unit :=
  match extractOwner ctx with
  | None => (s, Panic)
  | Some owner_ =>
      match Controller_Stop F (fst s) owner_ id (snd s) with
      | (w', Some err) => (fst s, w', Fail (statusError_of err id))
      | (w', None) => (fst s, w', Reply tt)
      end
  end.

(** [Service.Status], with the id of its request. *)
Definition Service_Status (ctx : Context) (id : string)
    (s : Controller * World) : Controller * World * rpc Pb.JobStatus :=
  match extractOwner ctx with
  | None => (s, Panic)
  | Some owner_ =>
      match Controller_Status (fst s) owner_ id with
      | Err err => (s, Fail (statusError_of err id))
      | Ok js => (s, Reply (pbJobStatus js))
      end
  end.

End Service.

(** ** The interceptors (interceptors.go) *)

(** The text of [ErrCommonName]. *)
Definition ErrCommonName_text : string := "failed to extract Common Name".

(** [extractCommonName]: the common name of the first certificate of the
    peer, or the text of the error, which wraps [ErrCommonName]. *)
Definition extractCommonName (ctx : Context) : string + string :=
  match ctx_peer ctx with
  | None => inr (ErrCommonName_text ++ ": cannot get peer from context")%string
  | Some p =>
      match Peer_AuthInfo p with
      | NoTLSInfo => inr (ErrCommonName_text ++ ": cannot get TLSInfo from peer")%string
      | TLSInfo peerCerts =>
          match peerCerts with
          | [] => inr (ErrCommonName_text ++ ": no peer certificates")%string
          | c :: _ => inl (Subject_CommonName c)
          end
      end
  end.

(** [context.WithValue(ctx, OwnerKey{}, cn)]. *)
Definition WithOwner (ctx : Context) (cn : string) : Context :=
  {| ctx_peer := ctx_peer ctx; ctx_owner := Some cn |}.

(** [unaryInterceptorCN]. The handler runs on the state [S] of the server. *)
Definition unaryInterceptorCN {Req Resp S : Type} (ctx : Context) (req : Req)
    (handler : Context -> Req -> S -> S * rpc Resp) (s : S) : S * rpc Resp :=
  match extractCommonName ctx with
  | inr msg => (s, Unauthenticated msg)
  | inl cn => handler (WithOwner ctx cn) req s
  end.

(** [wrappedServerStream]: a stream with another context. *)
Record wrappedServerStream (Stream : Type) : Type := mkWrapped {
  ServerStream : Stream;
  wrapped_ctx : Context
}.
Arguments ServerStream {Stream} _.
Arguments wrapped_ctx {Stream} _.

(** The method [Context] of [wrappedServerStream]. *)
Definition wrapped_Context {Stream : Type} (w : wrappedServerStream Stream)
    : Context := wrapped_ctx w.

(** [streamInterceptorCN]; [stream_Context] is [stream.Context()]. *)
Definition streamInterceptorCN {Srv Stream S : Type} (srv : Srv) (stream : Stream)
    (stream_Context : Stream -> Context)
    (handler : Srv -> wrappedServerStream Stream -> S -> S * rpc unit) (s : S)
    : S * rpc unit :=
  let ctx := stream_Context stream in
  match extractCommonName ctx with
  | inr msg => (s, Unauthenticated msg)
  | inl cn =>
      handler srv {| ServerStream := stream; wrapped_ctx := WithOwner ctx cn |} s
  end.

(** ** The table of the client (cmd/telejob/main.go) *)

(** [exitCodeString]. *)
Definition exitCodeString (e : Z) : string :=
  if e =? NotTerminated then ""
  else if e =? TerminatedBySignal then "signal"
  else FormatInt e.

Definition tab : string := String "009" "".

Section Cli.

(** [t.Local().Format(layout)] of package [time], and the method [String]
    of the generated type [pb.State]. *)
Variable Format : time_Time -> string -> string.
Variable State_String : Pb.State -> string.

(** [stateString]. *)
Definition stateString (s : Pb.State) : string :=
  if s =? Pb.State_STATE_RUNNING then "running"
  else if s =? Pb.State_STATE_STOPPED then "stopped"
  else if s =? Pb.State_STATE_UNSPECIFIED then "State_STATE_UNSPECIFIED"
  else State_String s.

(** [pbTimeString]. *)
Definition pbTimeString (t : option Pb.Timestamp) (layout : string) : string :=
  if (Pb.GetSeconds t =? 0) && (Pb.GetNanos t =? 0) then ""
  else Format (Pb.AsTime t) layout.

(** The line [printJobStatus] formats for a job, after the header: six
    cells, a tab between two, a newline at the end. *)
Definition status_line (j : Pb.JobStatus) (layout : string) : string :=
  let state := stateString (Pb.JobStatus_State j) in
  let started := pbTimeString (Pb.JobStatus_Started j) layout in
  let stopped := pbTimeString (Pb.JobStatus_Stopped j) layout in
  let cs := Pb.JobStatus_Command j :: Pb.JobStatus_Arguments j in
  let command := String.concat " " cs in
  let exitCode := exitCodeString (Pb.JobStatus_ExitCode j) in
  (Pb.JobStatus_Id j ++ tab ++ command ++ tab ++ state ++ tab ++ started
   ++ tab ++ stopped ++ tab ++ exitCode ++ newline)%string.

End Cli.

(** ** From the wire back to a status (service_test.go) *)

(** [timeFromPB]. *)
Definition timeFromPB (t : option Pb.Timestamp) : time_Time :=
  if (Pb.GetSeconds t =? 0) && (Pb.GetNanos t =? 0) then 0
  else Pb.AsTime t.

(** [statusFromPB]. *)
Definition statusFromPB (js : Pb.JobStatus) : Status :=
  {| ID := Pb.JobStatus_Id js;
     Command := Pb.JobStatus_Command js;
     Args := Pb.JobStatus_Arguments js;
     Running := Pb.JobStatus_State js =? Pb.State_STATE_RUNNING;
     Started := timeFromPB (Pb.JobStatus_Started js);
     Stopped := timeFromPB (Pb.JobStatus_Stopped js);
     ExitCode := Pb.JobStatus_ExitCode js |}.

(** The instant of the Unix epoch, as a [time.Time]. *)
Definition epoch : time_Time := GoTime.time_Unix 0 0.

(** ** Credentials and the server (creds.go, telejob.go) *)

Module Creds.

(** The sentinel errors of package [telejob]. An error of the package is
    kept as the list of the sentinels it wraps, which is what [errors.Is]
    can tell about it; the errors of the libraries it wraps besides are
    left out. *)
Inductive sentinel : Type :=
| ErrCredentials | ErrCertLoad | ErrCASetup | ErrCommonName | ErrClientConn.

#[global] Instance sentinel_eq_dec : EqDecision sentinel.
Proof. solve_decision. Defined.

(** [tls.ClientAuthType]: its zero value and the one the package sets. *)
Inductive ClientAuthType : Type :=
| NoClientCert
| RequireAndVerifyClientCert.

Definition VersionTLS13 : Z := 772.

Section Config.

(** The certificates and pools of [crypto/tls] and [crypto/x509], and the
    library calls that make them: [None] is an error. [AppendCertsFromPEM]
    is called on a new pool and returns it with what was appended. *)
Variables Certificate CertPool : Type.
Variable LoadX509KeyPair : string -> string -> option Certificate.
Variable SystemCertPool : option CertPool.
Variable ReadFile : string -> option (list Byte.byte).
Variable AppendCertsFromPEM : list Byte.byte -> CertPool * bool.

(** [tls.Config]: the fields the package sets; the others are zero. *)
Record Config : Type := mkConfig {
  Certificates : list Certificate;
  ClientCAs : option CertPool;
  RootCAs : option CertPool;
  ClientAuth : ClientAuthType;
  MinVersion : Z
}.

(** [newCertPool]. *)
Definition newCertPool (caCertFile : string) : CertPool + list sentinel :=
  if String.eqb caCertFile ""
  then match SystemCertPool with
       | None => inr [ErrCASetup]
       | Some certPool => inl certPool
       end
  else match ReadFile caCertFile with
       | None => inr [ErrCASetup]
       | Some b =>
           let '(certPool, ok) := AppendCertsFromPEM b in
           if negb ok then inr [ErrCASetup] else inl certPool
       end.

(** [serverTLSConfig]. *)
Definition serverTLSConfig (serverCertFile serverKeyFile clientCACertFile : string)
    : Config + list sentinel :=
  if String.eqb clientCACertFile "" then inr [ErrCASetup]
  else
    match LoadX509KeyPair serverCertFile serverKeyFile with
    | None => inr [ErrCertLoad]
    | Some certificate =>
        match newCertPool clientCACertFile with
        | inr err => inr err
        | inl clientCAs =>
            inl {| Certificates := [certificate];
                   ClientCAs := Some clientCAs;
                   RootCAs := None;
                   ClientAuth := RequireAndVerifyClientCert;
                   MinVersion := VersionTLS13 |}
        end
    end.

(** [clientTLSConfig]. *)
Definition clientTLSConfig (clientCertFile clientKeyFile serverCACertFile : string)
    : Config + list sentinel :=
  match LoadX509KeyPair clientCertFile clientKeyFile with
  | None => inr [ErrCertLoad]
  | Some certificate =>
      match newCertPool serverCACertFile with
      | inr err => inr err
      | inl rootCAs =>
          inl {| Certificates := [certificate];
                 ClientCAs := None;
                 RootCAs := Some rootCAs;
                 ClientAuth := NoClientCert;
                 MinVersion := VersionTLS13 |}
      end
  end.

(** [Server]: the gRPC server with its credentials, and the controller. *)
Record Server : Type := mkServer {
  server_tls : Config;
  server_controller : Controller
}.

(** [NewServer]: an error of the credentials wraps [ErrCredentials]; an
    error of the controller is the controller's. *)
Definition NewServer (F : faults) (serverCert serverKey clientCA : string)
    (jobOpts : list Option_) (w : World)
    : World * (Server + (list sentinel + error)) :=
  match serverTLSConfig serverCert serverKey clientCA with
  | inr err => (w, inr (inl (ErrCredentials :: err)))
  | inl tlsConfig =>
      match NewController F jobOpts w with
      | (w', Err err) => (w', inr (inr err))
      | (w', Ok controller) =>
          (w', inl {| server_tls := tlsConfig; server_controller := controller |})
      end
  end.

End Config.

End Creds.

(** ** More runs *)

Module Examples.

Import Logs.

(** A reader that has asked for more than there is, and waits. *)
Definition waiting_events : list event := [EvNewReader; EvRead 0 10].

Definition waiting_state : system :=
  default newStartedLogDispatcher (run waiting_events newStartedLogDispatcher).

Definition waiting_reader : reader :=
  {| lr := {| startIdx := 0; respCh := Some 0%nat |}; ctx_done := false;
     at_ := InSelect 10; returns := [] |}.

(** The input ["hi"] arrives. *)
Definition fed_state : system :=
  default newStartedLogDispatcher (step waiting_state (EvInput Scenario.hi)).

(** Or the producer closes, and the dispatcher takes the close. *)
Definition closing_state : system :=
  default newStartedLogDispatcher (step waiting_state EvCloseInput).

Definition closed_state : system :=
  default newStartedLogDispatcher (step closing_state EvInputClosed).

(** The reader of [Scenario.hello_events], at the end. *)
Definition hello_reader : reader :=
  {| lr := {| startIdx := 2; respCh := None |}; ctx_done := false;
     at_ := Idle; returns := [RData Scenario.hi; REOF] |}.

(** The controller of [Scenario.started], its world, and a second job. *)
Definition c1 : Controller := (Scenario.started no_faults).1.1.
Definition w1 : World := (Scenario.started no_faults).1.2.

Definition second : Controller * World * result string :=
  Controller_Start no_faults 2 c1 "bob" "true" [] w1.

Definition two_jobs : list op :=
  [OpStart 1 "alice" "sleep" ["100"]; OpStart 2 "bob" "true" []].

Definition busy : Controller * World :=
  run_ops no_faults two_jobs (Scenario.fresh no_faults).

Definition shut : Controller * World * option error :=
  Controller_StopAll no_faults Scenario.all_killed busy.1 busy.2.

(** The first job, as it is registered. *)
Definition sleeper : job :=
  {| status := {| ID := "1"; Command := "sleep"; Args := ["100"]; Started := 1;
                  Running := true; ExitCode := NotTerminated; Stopped := 0 |};
     cmd := {| Path := "sleep"; CmdArgs := ["100"]; Process := 7 |};
     owner := "alice"; cgroup := "/sys/fs/cgroup/telejob/1" |}.

(** A call of a client whose certificate names [alice], and one of a peer
    without certificate. *)
Definition alice_ctx : Context :=
  {| ctx_peer := Some {| Peer_AuthInfo :=
                           TLSInfo [{| Subject_CommonName := "alice" |};
                                    {| Subject_CommonName := "ca" |}] |};
     ctx_owner := Some "mallory" |}.

Definition bob_ctx : Context :=
  {| ctx_peer := Some {| Peer_AuthInfo :=
                           TLSInfo [{| Subject_CommonName := "bob" |}] |};
     ctx_owner := None |}.

(** Texts for [%q] and [%v]: the quotes around a string, and the message
    of the outermost error. *)
Definition quote (s : string) : string := (String "034" s ++ String "034" "")%string.

Definition text (e : error) : string :=
  match e with
  | Errorf msg _ => msg
  | _ => "error"
  end.

(** The start of [sleep 100] through the service. *)
Definition served_start : Controller * World * rpc Pb.StartResponse :=
  unaryInterceptorCN alice_ctx
    {| Pb.Command_ := "sleep"; Pb.Arguments_ := ["100"] |}
    (Service_Start text no_faults 1) (Scenario.fresh no_faults).

(** Library calls that know one key pair and one CA file. *)
Definition load_pair (cert key : string) : option string :=
  if String.eqb cert "server.crt" && String.eqb key "server.key"
  then Some "server" else None.

Definition read_file (name : string) : option (list Byte.byte) :=
  if String.eqb name "client-ca.crt" then Some Scenario.hi else None.

Definition append_PEM (b : list Byte.byte) : list (list Byte.byte) * bool :=
  ([b], true).

Definition served : World * (Creds.Server string (list (list Byte.byte))
                               + (list Creds.sentinel + error)) :=
  Creds.NewServer string (list (list Byte.byte)) load_pair None read_file
    append_PEM no_faults "server.crt" "server.key" "client-ca.crt" []
    Scenario.world0.

End Examples.
(* ===================================================================== *)
(** * Part II: properties                                                  *)
(* ===================================================================== *)

(** ** The service *)

(** C4. The specification has [Logs] return a server stream of the job's
    output. The handler of the service answers every request, for whatever
    job and stream, with the status [Unimplemented]. *)
Theorem Service_Logs_is_Unimplemented :
  forall (Stream : Type) (req : LogsRequest) (stream : Stream),
    status_code <$> Service_Logs req stream = Some Unimplemented.
Proof. intros Stream req stream. reflexivity. Qed.

(** ** The controller: what the operations keep *)

Section ControllerFacts.

Variable F : faults.

Lemma nonempty_command (command : string) :
  command <> "" -> (String.length command =? 0)%nat = false.
Proof. destruct command; [congruence | reflexivity]. Qed.

Lemma Controller_reap_shutDown waitErr now c id w :
  shutDown (fst (Controller_reap F waitErr now c id w)) = shutDown c.
Proof.
  unfold Controller_reap.
  destruct (jobs c !! id) as [j|]; [|reflexivity].
  destruct (Running (status j)); [|reflexivity].
  destruct (job_wait F waitErr now j w). reflexivity.
Qed.

Lemma reap_jobs_shutDown ex ids : forall c w,
  shutDown (fst (reap_jobs F ex ids c w)) = shutDown c.
Proof.
  induction ids as [|id ids IH]; intros c w; simpl; [reflexivity|].
  pose proof (Controller_reap_shutDown (fst (ex id)) (snd (ex id)) c id w) as H.
  destruct (Controller_reap F (fst (ex id)) (snd (ex id)) c id w) as [c' w'].
  rewrite IH. exact H.
Qed.

Lemma Controller_Start_shutDown now c owner_ command args w :
  shutDown (fst (fst (Controller_Start F now c owner_ command args w))) = shutDown c.
Proof.
  unfold Controller_Start.
  destruct (String.length command =? 0)%nat; [reflexivity|].
  destruct (Controller_isShutDown c); [reflexivity|].
  destruct (newJob F now owner_ _ command args _ _ w) as [w' [j|e]]; reflexivity.
Qed.

Lemma Controller_StopAll_shutDown ex c w :
  shutDown (fst (fst (Controller_StopAll F ex c w))) = true.
Proof.
  unfold Controller_StopAll.
  destruct (shutDown c) eqn:Hsd; [exact Hsd|].
  destruct (stop_jobs F _ w) as [w1 errs].
  pose proof (reap_jobs_shutDown ex (map fst (map_to_list (jobs (set_shutDown c true))))
                (set_shutDown c true) w1) as H.
  destruct (reap_jobs F ex _ (set_shutDown c true) w1) as [c2 w2].
  destruct (deleteCgroup F (telejobCgroup c2) w2) as [w3 err].
  exact H.
Qed.

(** No operation takes the controller out of its shut-down state. *)
Lemma apply_op_shutDown o s :
  shutDown (fst s) = true -> shutDown (fst (apply_op F o s)) = true.
Proof.
  destruct s as [c w]; simpl; intros H.
  destruct o; simpl.
  - rewrite Controller_Start_shutDown. exact H.
  - exact H.
  - exact H.
  - rewrite Controller_reap_shutDown. exact H.
  - apply Controller_StopAll_shutDown.
Qed.

Lemma run_ops_shutDown ops : forall s,
  shutDown (fst s) = true -> shutDown (fst (run_ops F ops s)) = true.
Proof.
  induction ops as [|o ops IH]; intros s H; simpl; [exact H|].
  apply IH, apply_op_shutDown, H.
Qed.

Lemma Start_when_shut_down now c owner_ command args w :
  shutDown c = true -> command <> "" ->
  Controller_Start F now c owner_ command args w
  = (c, w, Err (Errorf "cannot start command" [New ErrShutdown])).
Proof.
  intros Hsd Hne. unfold Controller_Start, Controller_isShutDown.
  rewrite (nonempty_command _ Hne), Hsd. reflexivity.
Qed.

Lemma StopAll_when_shut_down ex c w :
  shutDown c = true -> Controller_StopAll F ex c w = (c, w, None).
Proof. intros Hsd. unfold Controller_StopAll. rewrite Hsd. reflexivity. Qed.

(** C8. After [StopAll] has returned, whatever operations follow: a [Start]
    with a non-empty command returns an error that is [ErrShutdown] and
    leaves the controller (its registry, its counter) and the world as they
    were, and a [StopAll] returns [nil] with no system call made. *)
Theorem StopAll_is_terminal :
  forall ex c w c1 w1 r ops c2 w2,
    Controller_StopAll F ex c w = (c1, w1, r) ->
    run_ops F ops (c1, w1) = (c2, w2) ->
    (forall now owner_ command args,
        command <> "" ->
        exists e,
          Controller_Start F now c2 owner_ command args w2 = (c2, w2, Err e)
          /\ Is e ErrShutdown = true) /\
    (forall ex', Controller_StopAll F ex' c2 w2 = (c2, w2, None)).
Proof.
  intros ex c w c1 w1 r ops c2 w2 Hstop Hrun.
  assert (Hsd : shutDown c2 = true).
  { pose proof (run_ops_shutDown ops (c1, w1)) as H. rewrite Hrun in H.
    apply H. simpl.
    pose proof (Controller_StopAll_shutDown ex c w) as H1.
    rewrite Hstop in H1. exact H1. }
  split.
  - intros now owner_ command args Hne.
    eexists. split; [apply Start_when_shut_down; assumption | reflexivity].
  - intros ex'. apply StopAll_when_shut_down, Hsd.
Qed.

(** C10. A [Start] with the empty command returns an error that is
    [ErrCommand] and not [ErrShutdown], whether the controller is shut down
    or not, and leaves the controller, its counter included, and the world
    as they were. *)
Theorem Start_empty_command :
  forall now c owner_ args w,
    exists e,
      Controller_Start F now c owner_ "" args w = (c, w, Err e)
      /\ Is e ErrCommand = true /\ Is e ErrShutdown = false.
Proof.
  intros now c owner_ args w. eexists. split; [reflexivity|]. split; reflexivity.
Qed.

End ControllerFacts.

(** ** The status of a job *)

Section StatusFacts.

Variable F : faults.

Lemma ExitStatus_range (ws : WaitStatus) : -1 <= ExitStatus ws <= 255.
Proof.
  unfold ExitStatus. destruct (Exited ws); [|lia].
  assert (H : Z.land (Z.shiftr ws 8) 255 = Z.shiftr ws 8 mod 2 ^ 8).
  { apply (Z.land_ones (Z.shiftr ws 8) 8). discriminate. }
  rewrite H. pose proof (Z.mod_pos_bound (Z.shiftr ws 8) (2 ^ 8)). lia.
Qed.

Lemma ProcessState_ExitCode_range (p : option WaitStatus) :
  -1 <= ProcessState_ExitCode p <= 255.
Proof. destruct p; simpl; [apply ExitStatus_range | lia]. Qed.

(** After a wait that returned [nil] or an [exec.ExitError], the exit code
    is [0], the exit status of a process that exited, or [-1]. *)
Lemma waited_status_exit_code waitErr now s :
  (waitErr = WaitNil -> ExitCode (waited_status waitErr now s) = 0) /\
  (forall ws, waitErr = WaitExitError (Some ws) -> Exited ws = true ->
     ExitCode (waited_status waitErr now s) = Z.land (Z.shiftr ws 8) 255) /\
  (forall ws, waitErr = WaitExitError (Some ws) -> Exited ws = false ->
     ExitCode (waited_status waitErr now s) = TerminatedBySignal) /\
  (waitErr = WaitExitError None ->
     ExitCode (waited_status waitErr now s) = TerminatedBySignal) /\
  ((forall e, waitErr <> WaitOtherError e) ->
     -1 <= ExitCode (waited_status waitErr now s) <= 255).
Proof.
  split; [intros ->; reflexivity|].
  split; [intros ws -> Hx; simpl; unfold ExitStatus; rewrite Hx; reflexivity|].
  split; [intros ws -> Hx; simpl; unfold ExitStatus; rewrite Hx; reflexivity|].
  split; [intros ->; reflexivity|].
  intros Hw. destruct waitErr as [|ps|e]; simpl.
  - lia.
  - apply ProcessState_ExitCode_range.
  - exfalso. apply (Hw e). reflexivity.
Qed.

(** A new job satisfies the invariant. *)
Lemma newJob_status_invariant now owner_ id command args l cg w w' j :
  newJob F now owner_ id command args l cg w = (w', Ok j) ->
  status_invariant (status j) /\ Running (status j) = true.
Proof.
  unfold newJob. destruct (newStartedCmd F id command args l cg w) as [w1 [c|e]];
    intros H; inversion H; subst; clear H.
  unfold status_invariant; simpl. repeat split; reflexivity.
Qed.

(** A wait that returned [nil] or an [exec.ExitError] keeps the invariant,
    the clock not showing the zero time. *)
Lemma waited_status_invariant waitErr now s :
  (forall e, waitErr <> WaitOtherError e) -> now <> 0 ->
  status_invariant (waited_status waitErr now s).
Proof.
  intros Hw Hnow.
  destruct (waited_status_exit_code waitErr now s) as (_ & _ & _ & _ & Hr).
  specialize (Hr Hw). unfold status_invariant, NotTerminated.
  simpl in *. repeat split; intros H; try discriminate; try lia.
Qed.

(** C2. A job just constructed, whose [cmd.Wait] then returns an error
    that is no [exec.ExitError]: [job.wait] leaves [Running = false] and a
    [Stopped] time with the exit code [-2], so the conditions "running" and
    "exit code is [-2]" differ and the invariant is lost. *)
Theorem failed_wait_breaks_status_invariant :
  forall now owner_ id command args l cg w e now',
    match newJob F now owner_ id command args l cg w with
    | (w', Ok j) =>
        let s' := status (snd (job_wait F (WaitOtherError e) now' j w')) in
        Running s' = false /\ ExitCode s' = NotTerminated
        /\ ~ status_invariant s'
    | (_, Err _) => True
    end.
Proof.
  intros now owner_ id command args l cg w e now'.
  destruct (newJob F now owner_ id command args l cg w) as [w' [j|err]] eqn:Hj;
    [|exact I].
  unfold newJob in Hj.
  destruct (newStartedCmd F id command args l cg w) as [w1 [c|e1]];
    inversion Hj; subst; clear Hj.
  simpl. split; [reflexivity|]. split; [reflexivity|].
  intros [[_ H] _]. simpl in H. specialize (H eq_refl). discriminate.
Qed.

End StatusFacts.

(** C3. The scenario of a job whose wait fails with an error of the system
    call: after the reaper has run, the owner reads a status that is not
    running, has a [Stopped] time, and has the exit code [-2], which is
    neither [0], nor an exit status, nor [-1]. *)
Theorem failed_wait_reports_NotTerminated :
  Scenario.status_after_failed_wait
  = Some (Ok {| ID := "1"; Command := "sleep"; Args := ["100"]; Started := 1;
                Running := false; ExitCode := -2; Stopped := 2 |}).
Proof. vm_compute. reflexivity. Qed.

(** C5, as the claim has it, fails: with ids ["1"], ["2"], ["3"] issued and
    a start of [NOPE] that fails with [ErrCommand], no status is found for
    ["4"], and the next start returns ["5"], not ["4"]. *)
Lemma failed_start_consumes_an_id :
  Scenario.starts_around_a_failure
  = Some (Ok "1", Ok "2", Ok "3",
          Err (Errorf "cannot start command" [New ErrCommand; New (OS ErrNotExist)]),
          Err (Errorf "" [New ErrJobNotFound]),
          Ok "5") /\
  ~ (exists r1 r2 r3 r4 q,
        Scenario.starts_around_a_failure = Some (r1, r2, r3, r4, q, Ok "4")).
Proof.
  split; [vm_compute; reflexivity|].
  intros (r1 & r2 & r3 & r4 & q & H). vm_compute in H. discriminate H.
Qed.

(** ** Job identifiers and the registry *)

Lemma FormatUint_inj (a b : Z) :
  0 <= a -> 0 <= b -> FormatUint a = FormatUint b -> a = b.
Proof.
  intros Ha Hb H. unfold FormatUint in H.
  assert (Hnil : forall n : N, N.to_uint n <> Decimal.Nil).
  { intros [|p]; simpl; [discriminate | apply DecimalPos.Unsigned.to_uint_nonnil]. }
  assert (Hu : N.to_uint (Z.to_N a) = N.to_uint (Z.to_N b)).
  { pose proof (NilZero.usu _ (Hnil (Z.to_N a))) as H1.
    pose proof (NilZero.usu _ (Hnil (Z.to_N b))) as H2.
    rewrite H in H1. rewrite H1 in H2. congruence. }
  apply DecimalN.Unsigned.to_uint_inj in Hu. lia.
Qed.

Lemma wrap64_range (z : Z) : 0 <= wrap64 z < 2 ^ 64.
Proof. unfold wrap64. apply Z.mod_pos_bound. lia. Qed.

Lemma wrap64_small (z : Z) : 0 <= z < 2 ^ 64 -> wrap64 z = z.
Proof. intros H. unfold wrap64. apply Z.mod_small, H. Qed.

Section RegistryFacts.

Variable F : faults.

Lemma apply_options_keep opts : forall c,
  let c' := fold_left apply_option opts c in
  maxID c' = maxID c /\ jobs c' = jobs c /\ shutDown c' = shutDown c.
Proof.
  induction opts as [|o opts IH]; intros c; simpl; [auto|].
  destruct (IH (apply_option c o)) as (H1 & H2 & H3).
  rewrite H1, H2, H3. destruct o; simpl; auto.
Qed.

(** C5, amended. The counter of a new controller is [0], and every [Start]
    that passes the two checks (a non-empty command, no shutdown) moves it
    by one, whether the job then starts or not: a start that succeeds
    returns the decimal string of the new counter and registers the job
    under it, and a start that fails leaves the registry as it was, with
    the id spent. *)
Theorem Start_spends_an_id_per_attempt :
  (forall opts w w' c,
      NewController F opts w = (w', Ok c) ->
      maxID c = 0 /\ jobs c = ∅ /\ shutDown c = false) /\
  (forall now c owner_ command args w c' w' r,
      Controller_Start F now c owner_ command args w = (c', w', r) ->
      command <> "" -> shutDown c = false ->
      maxID c' = wrap64 (maxID c + 1) /\
      match r with
      | Ok id =>
          id = FormatUint (maxID c') /\
          exists j, jobs c' = <[id := j]> (jobs c) /\ owner j = owner_
      | Err _ => jobs c' = jobs c
      end).
Proof.
  split.
  - intros opts w w' c H. unfold NewController in H.
    match type of H with
    | context [fold_left apply_option opts ?c0] =>
        pose proof (apply_options_keep opts c0) as Hk
    end.
    simpl in Hk.
    destruct (newTelejobCgroup F _ w) as [w1 [e|]]; inversion H; subst; clear H.
    exact Hk.
  - intros now c owner_ command args w c' w' r H Hne Hsd.
    unfold Controller_Start, Controller_isShutDown in H.
    rewrite (nonempty_command _ Hne), Hsd in H.
    unfold newJob in H.
    destruct (newStartedCmd F _ command args _ _ w) as [w1 [cm|e]];
      inversion H; subst; clear H; simpl.
    + split; [reflexivity|]. split; [reflexivity|].
      eexists. split; reflexivity.
    + split; reflexivity.
Qed.

(** *** The registry only grows *)

Lemma set_status_owner j s : owner (set_status j s) = owner j.
Proof. reflexivity. Qed.

Lemma Controller_reap_lookup waitErr now c id w id' j :
  jobs c !! id' = Some j ->
  exists j', jobs (fst (Controller_reap F waitErr now c id w)) !! id' = Some j'
             /\ owner j' = owner j
             /\ (id' <> id -> j' = j).
Proof.
  intros Hj. unfold Controller_reap.
  destruct (jobs c !! id) as [j0|] eqn:H0; [|eauto].
  destruct (Running (status j0)); [|eauto].
  unfold job_wait. simpl.
  destruct (decide (id' = id)) as [->|Hne].
  - rewrite lookup_insert_eq. rewrite H0 in Hj. inversion Hj; subst.
    eexists. split; [reflexivity|]. split; [reflexivity|]. congruence.
  - rewrite lookup_insert_ne by congruence. eauto.
Qed.

Lemma Controller_reap_maxID waitErr now c id w :
  maxID (fst (Controller_reap F waitErr now c id w)) = maxID c.
Proof.
  unfold Controller_reap.
  destruct (jobs c !! id) as [j|]; [|reflexivity].
  destruct (Running (status j)); [|reflexivity].
  destruct (job_wait F waitErr now j w). reflexivity.
Qed.

Lemma reap_jobs_lookup ex ids : forall c w id' j,
  jobs c !! id' = Some j ->
  exists j', jobs (fst (reap_jobs F ex ids c w)) !! id' = Some j'
             /\ owner j' = owner j.
Proof.
  induction ids as [|id ids IH]; intros c w id' j Hj; simpl; [eauto|].
  destruct (Controller_reap_lookup (fst (ex id)) (snd (ex id)) c id w id' j Hj)
    as (j1 & H1 & Ho & _).
  destruct (Controller_reap F (fst (ex id)) (snd (ex id)) c id w) as [c1 w1].
  simpl in H1. destruct (IH c1 w1 id' j1 H1) as (j2 & H2 & Ho2).
  exists j2. split; [exact H2 | congruence].
Qed.

Lemma reap_jobs_maxID ex ids : forall c w,
  maxID (fst (reap_jobs F ex ids c w)) = maxID c.
Proof.
  induction ids as [|id ids IH]; intros c w; simpl; [reflexivity|].
  pose proof (Controller_reap_maxID (fst (ex id)) (snd (ex id)) c id w) as H.
  destruct (Controller_reap F (fst (ex id)) (snd (ex id)) c id w) as [c1 w1].
  rewrite IH. exact H.
Qed.

Lemma Controller_StopAll_lookup ex c w id' j :
  jobs c !! id' = Some j ->
  exists j', jobs (fst (fst (Controller_StopAll F ex c w))) !! id' = Some j'
             /\ owner j' = owner j.
Proof.
  intros Hj. unfold Controller_StopAll.
  destruct (shutDown c); [eauto|].
  destruct (stop_jobs F _ w) as [w1 errs].
  destruct (reap_jobs_lookup ex (map fst (map_to_list (jobs (set_shutDown c true))))
              (set_shutDown c true) w1 id' j Hj) as (j' & H1 & Ho).
  destruct (reap_jobs F ex _ (set_shutDown c true) w1) as [c2 w2].
  destruct (deleteCgroup F (telejobCgroup c2) w2) as [w3 err].
  simpl in *. eauto.
Qed.

Lemma Controller_StopAll_maxID ex c w :
  maxID (fst (fst (Controller_StopAll F ex c w))) = maxID c.
Proof.
  unfold Controller_StopAll.
  destruct (shutDown c); [reflexivity|].
  destruct (stop_jobs F _ w) as [w1 errs].
  pose proof (reap_jobs_maxID ex (map fst (map_to_list (jobs (set_shutDown c true))))
                (set_shutDown c true) w1) as H.
  destruct (reap_jobs F ex _ (set_shutDown c true) w1) as [c2 w2].
  destruct (deleteCgroup F (telejobCgroup c2) w2) as [w3 err].
  exact H.
Qed.

(** What [Start] does to the counter and to the entries of the registry. *)
Lemma Controller_Start_effect now c owner_ command args w :
  let c' := fst (fst (Controller_Start F now c owner_ command args w)) in
  (maxID c' = maxID c /\ jobs c' = jobs c) \/
  (maxID c' = wrap64 (maxID c + 1) /\
   (jobs c' = jobs c \/ exists j, jobs c' = <[FormatUint (maxID c') := j]> (jobs c))).
Proof.
  unfold Controller_Start.
  destruct (String.length command =? 0)%nat; [left; auto|].
  destruct (Controller_isShutDown c); [left; auto|].
  destruct (newJob F now owner_ _ command args _ _ w) as [w' [j|e]]; simpl.
  - right. split; [reflexivity|]. right. eexists. reflexivity.
  - right. split; [reflexivity|]. left. reflexivity.
Qed.

(** The entry of a job stays, whatever the operation. *)
Lemma apply_op_present id o c w :
  is_Some (jobs c !! id) -> is_Some (jobs (fst (apply_op F o (c, w))) !! id).
Proof.
  intros [j Hj].
  destruct o as [now ow command args|ow id0|ow id0|waitErr now id0|ex]; simpl.
  - pose proof (Controller_Start_effect now c ow command args w) as He.
    simpl in He. destruct He as [[_ ->]|[_ [->|[j' ->]]]]; eauto.
    destruct (decide (FormatUint (maxID (fst (fst (Controller_Start F now c ow command args w)))) = id))
      as [->|Hne].
    + rewrite lookup_insert_eq. eauto.
    + rewrite lookup_insert_ne by exact Hne. eauto.
  - eauto.
  - eauto.
  - destruct (Controller_reap_lookup waitErr now c id0 w id j Hj) as (j' & H1 & _). eauto.
  - destruct (Controller_StopAll_lookup ex c w id j Hj) as (j' & H1 & _). eauto.
Qed.

Lemma run_ops_present id ops : forall s,
  is_Some (jobs (fst s) !! id) -> is_Some (jobs (fst (run_ops F ops s)) !! id).
Proof.
  induction ops as [|o ops IH]; intros [c w] H; [exact H|].
  change (run_ops F (o :: ops) (c, w)) with (run_ops F ops (apply_op F o (c, w))).
  apply IH. apply apply_op_present, H.
Qed.

(** The entry stays under its owner while the counter does not wrap
    around: [budget] operations are still to come, and the id is the
    decimal string of [n], a value the counter has passed. *)
Definition held (id owner_ : string) (n : Z) (budget : nat) (c : Controller) : Prop :=
  (exists j, jobs c !! id = Some j /\ owner j = owner_) /\
  (id = FormatUint n) /\ (0 <= n <= maxID c) /\
  (maxID c + Z.of_nat budget < 2 ^ 64).

Lemma apply_op_held id owner_ n budget o c w :
  held id owner_ n (S budget) c ->
  held id owner_ n budget (fst (apply_op F o (c, w))).
Proof.
  intros ((j & Hj & Ho) & Hid & Hn & Hb).
  destruct o as [now ow command args|ow id0|ow id0|waitErr now id0|ex]; simpl.
  - pose proof (Controller_Start_effect now c ow command args w) as He.
    simpl in He. set (c' := fst (fst (Controller_Start F now c ow command args w))) in *.
    destruct He as [[Hm Hjs]|[Hm Hjs]].
    + unfold held. rewrite Hm, Hjs. repeat split; eauto; lia.
    + rewrite wrap64_small in Hm by lia.
      unfold held. rewrite Hm. repeat split; try lia; try assumption.
      destruct Hjs as [->|[j' ->]]; [eauto|].
      exists j. split; [|exact Ho].
      rewrite lookup_insert_ne; [exact Hj|].
      rewrite Hm, Hid. intros Heq. apply FormatUint_inj in Heq; lia.
  - unfold held. repeat split; eauto; lia.
  - unfold held. repeat split; eauto; lia.
  - destruct (Controller_reap_lookup waitErr now c id0 w id j Hj) as (j' & H1 & Ho' & _).
    unfold held. rewrite Controller_reap_maxID.
    repeat split; try lia; try assumption. exists j'. split; [exact H1 | congruence].
  - destruct (Controller_StopAll_lookup ex c w id j Hj) as (j' & H1 & Ho').
    unfold held. rewrite Controller_StopAll_maxID.
    repeat split; try lia; try assumption. exists j'. split; [exact H1 | congruence].
Qed.

Lemma run_ops_held id owner_ n ops : forall c w,
  held id owner_ n (length ops) c ->
  held id owner_ n 0 (fst (run_ops F ops (c, w))).
Proof.
  induction ops as [|o ops IH]; intros c w H; [exact H|].
  pose proof (apply_op_held id owner_ n (length ops) o c w H) as H1.
  change (run_ops F (o :: ops) (c, w)) with (run_ops F ops (apply_op F o (c, w))).
  destruct (apply_op F o (c, w)) as [c1 w1]. apply IH, H1.
Qed.

Lemma Is_not_found_get c owner_ id e :
  Controller_get c owner_ id = Err e -> Is e ErrJobNotFound = true ->
  jobs c !! id = None.
Proof.
  unfold Controller_get. destruct (jobs c !! id) as [j|]; [|reflexivity].
  destruct (negb (String.eqb (owner j) owner_)); intros H; inversion H; subst.
  simpl. discriminate.
Qed.

Lemma job_stop_error j w w' e :
  job_stop F j w = (w', Some e) ->
  Running (status j) = true /\ Is e ErrJobStop = true
  /\ Is e ErrJobNotFound = false /\ Is e ErrUnauthorized = false
  /\ exists k, outcome F (Kill (Process (cmd j))) w = Some k
               /\ k <> ErrProcessDone.
Proof.
  unfold job_stop. destruct (Running (status j)); [|simpl; discriminate].
  cbn [negb]. unfold sys.
  destruct (outcome F (Kill (Process (cmd j))) w) as [t|]; [|discriminate].
  destruct (negb (Is (New (OS t)) (OS ErrProcessDone))) eqn:Hd; [|discriminate].
  intros H; inversion H; subst; clear H.
  repeat split; try reflexivity.
  exists t. split; [reflexivity|]. intros ->. discriminate Hd.
Qed.

(** C9. A job started under [id] by [owner_] stays in the registry through
    any operations that follow. A later [Status] or [Stop] with that id
    never fails with [ErrJobNotFound], for any caller. While the counter
    does not wrap around, the entry stays the owner's: [Status] returns the
    snapshot of the job, [Stop] returns [nil] unless the job is running
    and the kill of its process is refused with an error other than
    [os.ErrProcessDone] (the error then is [ErrJobStop]), and [Stop] on a
    job that is not running returns [nil], makes no system call, and leaves
    the snapshot as it was. *)
Theorem registered_job_stays :
  forall now c owner_ command args w c1 w1 id ops c2 w2,
    Controller_Start F now c owner_ command args w = (c1, w1, Ok id) ->
    run_ops F ops (c1, w1) = (c2, w2) ->
    (forall caller,
        (forall e, Controller_Status c2 caller id = Err e ->
                   Is e ErrJobNotFound = false) /\
        (forall w3 e, Controller_Stop F c2 caller id w2 = (w3, Some e) ->
                      Is e ErrJobNotFound = false)) /\
    (maxID c1 + Z.of_nat (length ops) < 2 ^ 64 ->
     exists j,
       jobs c2 !! id = Some j /\ owner j = owner_ /\
       Controller_Status c2 owner_ id = Ok (status j) /\
       (forall w3 e, Controller_Stop F c2 owner_ id w2 = (w3, Some e) ->
                     Running (status j) = true /\ Is e ErrJobStop = true /\
                     exists k, outcome F (Kill (Process (cmd j))) w2 = Some k
                               /\ k <> ErrProcessDone) /\
       (Running (status j) = false ->
        Controller_Stop F c2 owner_ id w2 = (w2, None) /\
        Controller_Status (fst (apply_op F (OpStop owner_ id) (c2, w2))) owner_ id
        = Ok (status j))).
Proof.
  intros now c owner_ command args w c1 w1 id ops c2 w2 Hstart Hrun.
  assert (Hreg : exists j, jobs c1 !! id = Some j /\ owner j = owner_
                           /\ id = FormatUint (maxID c1)).
  { unfold Controller_Start in Hstart.
    destruct (String.length command =? 0)%nat; [discriminate|].
    destruct (Controller_isShutDown c); [discriminate|].
    unfold newJob in Hstart.
    destruct (newStartedCmd F _ command args _ _ w) as [w' [cm|e]];
      inversion Hstart; subst; clear Hstart; simpl.
    eexists. rewrite lookup_insert_eq. split; [reflexivity|]. split; reflexivity. }
  destruct Hreg as (j1 & Hj1 & Ho1 & Hid).
  split.
  - intros caller.
    assert (Hpres : is_Some (jobs c2 !! id)).
    { pose proof (run_ops_present id ops (c1, w1)) as H. rewrite Hrun in H.
      apply H. simpl. eauto. }
    destruct Hpres as [j2 Hj2]. split.
    + intros e He. unfold Controller_Status in He.
      destruct (Controller_get c2 caller id) as [j|e'] eqn:Hg; [discriminate|].
      inversion He; subst. destruct (Is e ErrJobNotFound) eqn:Hnf; [|reflexivity].
      rewrite (Is_not_found_get _ _ _ _ Hg Hnf) in Hj2. discriminate.
    + intros w3 e He. unfold Controller_Stop in He.
      destruct (Controller_get c2 caller id) as [j|e'] eqn:Hg.
      * apply job_stop_error in He. tauto.
      * inversion He; subst. destruct (Is e ErrJobNotFound) eqn:Hnf; [|reflexivity].
        rewrite (Is_not_found_get _ _ _ _ Hg Hnf) in Hj2. discriminate.
  - intros Hb.
    assert (Hheld : held id owner_ (maxID c1) (length ops) c1).
    { unfold held. repeat split; eauto; try lia.
      unfold Controller_Start in Hstart.
      destruct (String.length command =? 0)%nat; [discriminate|].
      destruct (Controller_isShutDown c); [discriminate|].
      destruct (newJob F now owner_ _ command args _ _ w) as [w' [j|e]];
        inversion Hstart; subst; simpl. apply wrap64_range. }
    pose proof (run_ops_held id owner_ (maxID c1) ops c1 w1 Hheld) as H.
    rewrite Hrun in H. destruct H as ((j & Hj & Ho) & _).
    simpl in Hj. exists j. split; [exact Hj|]. split; [exact Ho|].
    assert (Hg : Controller_get c2 owner_ id = Ok j).
    { unfold Controller_get. rewrite Hj, Ho, String.eqb_refl. reflexivity. }
    split; [unfold Controller_Status; rewrite Hg; reflexivity|].
    split.
    + intros w3 e He. unfold Controller_Stop in He. rewrite Hg in He.
      apply job_stop_error in He. tauto.
    + intros Hnr. simpl. unfold Controller_Stop, Controller_Status.
      rewrite Hg. unfold job_stop. rewrite Hnr. simpl. split; reflexivity.
Qed.

End RegistryFacts.

(** ** Cgroups: the calls a job construction makes *)

Section CgroupFacts.

Variable F : faults.

Lemma sys_inv c w w' r :
  sys F c w = (w', r) ->
  log w' = log w ++ [(c, r)] /\
  dirs w' = match r with Some _ => dirs w | None => effect c (dirs w) end.
Proof. unfold sys. intros H; inversion H; subst; clear H. split; reflexivity. Qed.

Lemma deleteCgroup_inv cg w w' r :
  deleteCgroup F cg w = (w', r) ->
  exists D, log w' = log w ++ D /\ deletion cg D (dirs w) (dirs w').
Proof.
  unfold deleteCgroup.
  destruct (sys F (Stat cg) w) as [w1 [e|]] eqn:H1; apply sys_inv in H1;
    destruct H1 as [Hl1 Hd1]; simpl in Hd1.
  - intros H. exists [(Stat cg, Some e)].
    destruct (Is (New (OS e)) (OS ErrNotExist)); inversion H; subst;
      (split; [exact Hl1 | left; eauto]).
  - destruct (sys F (Remove cg) w1) as [w2 [e|]] eqn:H2; apply sys_inv in H2;
      destruct H2 as [Hl2 Hd2]; simpl in Hd2; intros H; inversion H; subst; clear H.
    + exists [ok (Stat cg); (Remove cg, Some e)]. split.
      * rewrite Hl2, Hl1, <- app_assoc. reflexivity.
      * right; left. exists e. split; [reflexivity | congruence].
    + exists [ok (Stat cg); ok (Remove cg)]. split.
      * rewrite Hl2, Hl1, <- app_assoc. reflexivity.
      * right; right. split; [reflexivity | congruence].
Qed.


(** *** The limit writes *)

Definition write_call (c : syscall) : action :=
  match c with
  | WriteFile d f content => writeCgroupFile F d f content
  | _ => skip
  end.

Definition is_write (c : syscall) : Prop :=
  exists d f content, c = WriteFile d f content.

Lemma and_then_eq (a b : action) w :
  (a ;;; b) w
  = match a w with
    | (w', Some e) => (w', Some e)
    | (w', None) => b w'
    end.
Proof. reflexivity. Qed.

Lemma for_each_app {A} (f : A -> action) xs ys w :
  for_each f (xs ++ ys) w = (for_each f xs ;;; for_each f ys) w.
Proof.
  revert w. induction xs as [|x xs IH]; intros w; [reflexivity|].
  simpl. rewrite !and_then_eq. destruct (f x w) as [w1 [e|]]; [reflexivity|].
  rewrite IH, and_then_eq. reflexivity.
Qed.

Lemma for_each_map {A B} (f : B -> action) (g : A -> B) xs w :
  for_each f (map g xs) w = for_each (fun x => f (g x)) xs w.
Proof.
  revert w. induction xs as [|x xs IH]; intros w; simpl; [reflexivity|].
  rewrite !and_then_eq. destruct (f (g x) w) as [w1 [e|]]; [reflexivity | apply IH].
Qed.

(** The body of [newJobCgroup] is the sequence of the writes of
    [limit_writes], stopped by the first that fails. *)
Lemma limits_as_writes cg l w :
  ((if (0 <? CPUs l)%float
    then writeCgroupFile F cg "cpu.max" (cpu_max_content l) else skip) ;;;
   (if 0 <? MemoryKiB l
    then writeCgroupFile F cg "memory.max" (memory_max_content l) else skip) ;;;
   for_each (fun ioLimit => writeCgroupFile F cg "io.max" ioLimit) (IO l)) w
  = for_each write_call (limit_writes cg l) w.
Proof.
  unfold limit_writes. rewrite for_each_app. unfold and_then at 1 3.
  assert (H1 : forall w0,
    (if (0 <? CPUs l)%float
     then writeCgroupFile F cg "cpu.max" (cpu_max_content l) else skip) w0
    = for_each write_call
        (if (0 <? CPUs l)%float
         then [WriteFile cg "cpu.max" (cpu_max_content l)] else []) w0).
  { intros w0. destruct (0 <? CPUs l)%float; simpl; [|reflexivity].
    unfold and_then, skip. destruct (writeCgroupFile F cg _ _ w0) as [? [?|]]; reflexivity. }
  rewrite H1. destruct (for_each write_call _ w) as [w1 [e|]]; [reflexivity|].
  rewrite for_each_app. unfold and_then.
  assert (H2 : forall w0,
    (if 0 <? MemoryKiB l
     then writeCgroupFile F cg "memory.max" (memory_max_content l) else skip) w0
    = for_each write_call
        (if 0 <? MemoryKiB l
         then [WriteFile cg "memory.max" (memory_max_content l)] else []) w0).
  { intros w0. destruct (0 <? MemoryKiB l); simpl; [|reflexivity].
    unfold and_then, skip. destruct (writeCgroupFile F cg _ _ w0) as [? [?|]]; reflexivity. }
  rewrite H2. destruct (for_each write_call _ w1) as [w2 [e|]]; [reflexivity|].
  rewrite for_each_map. reflexivity.
Qed.

Lemma limit_writes_are_writes cg l : Forall is_write (limit_writes cg l).
Proof.
  unfold limit_writes. repeat apply Forall_app_2.
  - destruct (0 <? CPUs l)%float; repeat constructor. unfold is_write; eauto.
  - destruct (0 <? MemoryKiB l); repeat constructor. unfold is_write; eauto.
  - apply Forall_forall. intros c Hc. apply list_elem_of_In, in_map_iff in Hc.
    destruct Hc as (io & <- & _). unfold is_write; eauto.
Qed.

(** A sequence of writes: all succeed, or the first that fails ends it with
    an error that is [ErrCgroup]; the directories stay. *)
Lemma writes_inv cs : forall w w' r,
  Forall is_write cs ->
  for_each write_call cs w = (w', r) ->
  dirs w' = dirs w /\
  match r with
  | None => log w' = log w ++ map ok cs
  | Some e =>
      e = Errorf "cannot create" [New ErrCgroup] /\
      exists done c rest err,
        cs = done ++ c :: rest /\ is_write c /\
        log w' = log w ++ map ok done ++ [(c, Some err)]
  end.
Proof.
  induction cs as [|c cs IH]; intros w w' r Hw H; simpl in H.
  - unfold skip in H. inversion H; subst. split; [reflexivity|].
    simpl. rewrite app_nil_r. reflexivity.
  - inversion Hw as [|? ? Hc Hcs]; subst.
    pose proof Hc as Hc'. destruct Hc' as (d & f & content & ->).
    unfold and_then in H. simpl in H. unfold writeCgroupFile in H.
    destruct (sys F (WriteFile d f content) w) as [w1 [e|]] eqn:Hs;
      apply sys_inv in Hs; destruct Hs as [Hl Hd]; simpl in Hd.
    + inversion H; subst; clear H. split; [exact Hd|]. split; [reflexivity|].
      exists [], (WriteFile d f content), cs, e. repeat split; [exact Hc | exact Hl].
    + destruct (IH w1 w' r Hcs H) as [Hd' Hr]. split; [congruence|].
      destruct r as [e|].
      * destruct Hr as (-> & done & c & rest & err & -> & Hc2 & Hl2).
        split; [reflexivity|].
        exists (WriteFile d f content :: done), c, rest, err.
        repeat split; [exact Hc2|]. rewrite Hl2, Hl. simpl.
        rewrite <- !app_assoc. reflexivity.
      * rewrite Hr, Hl. simpl. rewrite <- app_assoc. reflexivity.
Qed.

(** What [newJobCgroup] does: the [Mkdir] fails; or a write fails and the
    directory is deleted; or all is written. *)
Inductive cgroup_made (cg : string) (l : Limits) (w w' : World)
    : option error -> Prop :=
| made_mkdir_failed e :
    log w' = log w ++ [(Mkdir cg, Some e)] ->
    dirs w' = dirs w ->
    cgroup_made cg l w w' (Some (Errorf "cannot create new job cgroup" [New (OS e)]))
| made_write_failed done c rest err D :
    limit_writes cg l = done ++ c :: rest -> is_write c ->
    log w' = log w ++ ok (Mkdir cg) :: map ok done ++ (c, Some err) :: D ->
    deletion cg D ({[cg]} ∪ dirs w) (dirs w') ->
    cgroup_made cg l w w' (Some (Errorf "cannot create" [New ErrCgroup]))
| made_ok :
    log w' = log w ++ ok (Mkdir cg) :: map ok (limit_writes cg l) ->
    dirs w' = {[cg]} ∪ dirs w ->
    cgroup_made cg l w w' None.

Lemma newJobCgroup_inv cg l w w' r :
  newJobCgroup F cg l w = (w', r) -> cgroup_made cg l w w' r.
Proof.
  unfold newJobCgroup.
  destruct (sys F (Mkdir cg) w) as [w1 [e|]] eqn:Hm; apply sys_inv in Hm;
    destruct Hm as [Hl1 Hd1]; simpl in Hd1.
  - intros H; inversion H; subst; clear H. apply made_mkdir_failed; assumption.
  - rewrite limits_as_writes.
    destruct (for_each write_call (limit_writes cg l) w1) as [w2 err] eqn:Hw.
    apply writes_inv in Hw; [|apply limit_writes_are_writes].
    destruct Hw as [Hd2 Hr]. intros H; inversion H; subst; clear H.
    destruct r as [e|]; simpl.
    + destruct Hr as (-> & done & c & rest & err & Hcs & Hc & Hl2).
      destruct (deleteCgroup F cg w2) as [w3 r3] eqn:Hdel.
      apply deleteCgroup_inv in Hdel. destruct Hdel as (D & Hl3 & HD). simpl.
      eapply made_write_failed with (D := D); [exact Hcs | exact Hc | |].
      * rewrite Hl3, Hl2, Hl1. simpl. rewrite <- !app_assoc. reflexivity.
      * rewrite Hd2, Hd1 in HD. exact HD.
    + apply made_ok; [|congruence].
      rewrite Hr, Hl1, <- app_assoc. reflexivity.
Qed.

(** What [newStartedCmd] does. *)
Inductive cmd_started (cg command : string) (args : list string) (l : Limits)
    (w w' : World) : result Cmd -> Prop :=
| started_no_cgroup e :
    cgroup_made cg l w w' (Some e) ->
    cmd_started cg command args l w w' (Err e)
| started_open_failed e :
    log w' = log w ++ ok (Mkdir cg) :: map ok (limit_writes cg l)
                   ++ [(Open cg, Some e)] ->
    dirs w' = {[cg]} ∪ dirs w ->
    cmd_started cg command args l w w'
      (Err (Errorf "cannot open new job cgroup" [New (OS e)]))
| started_spawn_failed e D o :
    log w' = log w ++ ok (Mkdir cg) :: map ok (limit_writes cg l)
                   ++ [ok (Open cg); (StartProcess command args cg, Some e)]
                   ++ D ++ [(Close cg, o)] ->
    deletion cg D ({[cg]} ∪ dirs w) (dirs w') ->
    cmd_started cg command args l w w'
      (Err (Errorf "cannot start command" [New ErrCommand; New (OS e)]))
| started_ok o pid :
    log w' = log w ++ ok (Mkdir cg) :: map ok (limit_writes cg l)
                   ++ [ok (Open cg); ok (StartProcess command args cg);
                       (Close cg, o)] ->
    dirs w' = {[cg]} ∪ dirs w ->
    cmd_started cg command args l w w'
      (Ok {| Path := command; CmdArgs := args; Process := pid |}).

Lemma newStartedCmd_inv id command args l cg w w' r :
  newStartedCmd F id command args l cg w = (w', r) ->
  cmd_started cg command args l w w' r.
Proof.
  unfold newStartedCmd.
  destruct (newJobCgroup F cg l w) as [w1 [e|]] eqn:Hcg;
    apply newJobCgroup_inv in Hcg.
  - intros H; inversion H; subst; clear H. apply started_no_cgroup, Hcg.
  - inversion Hcg as [| |Hl1 Hd1]; subst.
    destruct (sys F (Open cg) w1) as [w2 [e|]] eqn:Ho; apply sys_inv in Ho;
      destruct Ho as [Hl2 Hd2]; simpl in Hd2.
    + intros H; inversion H; subst; clear H. apply started_open_failed.
      * rewrite Hl2, Hl1. simpl. rewrite <- !app_assoc. reflexivity.
      * congruence.
    + destruct (sys F (StartProcess command args cg) w2) as [w3 [e|]] eqn:Hs;
        apply sys_inv in Hs; destruct Hs as [Hl3 Hd3]; simpl in Hd3.
      * destruct (deleteCgroup F cg w3) as [w4 r4] eqn:Hdel.
        apply deleteCgroup_inv in Hdel. destruct Hdel as (D & Hl4 & HD).
        destruct (sys F (Close cg) (w4, r4).1) as [w5 o] eqn:Hc;
          apply sys_inv in Hc; destruct Hc as [Hl5 Hd5].
        intros H; simpl in H; inversion H; subst; clear H.
        simpl in *. apply started_spawn_failed with (D := D) (o := o).
        -- rewrite Hl5, Hl4, Hl3, Hl2, Hl1. simpl.
           rewrite <- !app_assoc. reflexivity.
        -- assert (Hd : dirs w' = dirs w4) by (destruct o; exact Hd5).
           rewrite Hd. rewrite Hd3, Hd2, Hd1 in HD. exact HD.
      * destruct (sys F (Close cg) w3) as [w4 o] eqn:Hc;
          apply sys_inv in Hc; destruct Hc as [Hl4 Hd4].
        intros H; simpl in H; inversion H; subst; clear H.
        apply started_ok with (o := o).
        -- rewrite Hl4, Hl3, Hl2, Hl1. simpl. rewrite <- !app_assoc. reflexivity.
        -- assert (Hd : dirs w' = dirs w3) by (destruct o; exact Hd4).
           rewrite Hd. congruence.
Qed.

End CgroupFacts.

(** ** Job construction: the limits written, and the roll-back *)

Section ConstructionFacts.

Variable F : faults.

Lemma new_calls_app w w' calls :
  log w' = log w ++ calls -> new_calls w w' = calls.
Proof. intros H. unfold new_calls. rewrite H. apply drop_app_length. Qed.



(** Where [floor] is not negative it is the truncation of [int(f)]. *)
Lemma floor_float_trunc (f : float) (z : Z) :
  floor_float f = Some z -> 0 <= z -> trunc_float f = Some z.
Proof.
  unfold floor_float, trunc_float.
  destruct (Prim2SF f) as [s|s| |s m e]; try discriminate.
  - intros H _. exact H.
  - intros H Hz. inversion H; subst; clear H.
    destruct s; [|reflexivity].
    exfalso. destruct (0 <=? e) eqn:He.
    + apply Z.leb_le in He.
      assert (0 < 2 ^ e) by (apply Z.pow_pos_nonneg; lia).
      assert (Z.neg m * 2 ^ e < 0) by (apply Z.mul_neg_pos; lia). lia.
    + apply Z.leb_gt in He.
      assert (0 < 2 ^ (- e)) by (apply Z.pow_pos_nonneg; lia).
      assert (Z.neg m / 2 ^ (- e) < 0) by (apply Z.div_lt_upper_bound; lia). lia.
Qed.

Lemma floor_float_None (f : float) :
  floor_float f = None -> trunc_float f = None.
Proof.
  unfold floor_float, trunc_float.
  destruct (Prim2SF f) as [s|s| |s m e]; try discriminate; reflexivity.
Qed.

(** The sign of a product of two binary64 numbers is the product of the
    signs, whatever the rounding. *)
Lemma SFmul_sign prec emax sx mx ex sy my ey :
  match SFmul prec emax (S754_finite sx mx ex) (S754_finite sy my ey) with
  | S754_zero s | S754_infinity s | S754_finite s _ _ => s = xorb sx sy
  | S754_nan => True
  end.
Proof.
  unfold SFmul, binary_round_aux.
  destruct (shr_fexp _ _ _ _ _) as [mrs' e'].
  destruct (shr_fexp _ _ _ _ _) as [mrs'' e''].
  destruct (shr_m mrs''); auto.
  destruct (e'' <=? emax - prec); auto.
Qed.

(** Under the guard [limits.CPUs > 0] the product [limits.CPUs*100000] is
    not negative. *)
Lemma quota_is_not_negative (f : float) (z : Z) :
  (0 <? f)%float = true -> floor_float (f * 100000) = Some z -> 0 <= z.
Proof.
  rewrite ltb_spec. unfold floor_float. rewrite mul_spec.
  change (Prim2SF 0) with (S754_zero false).
  change (Prim2SF 100000) with (S754_finite false 6871947673600000 (-36)).
  destruct (Prim2SF f) as [s|s| |s m e]; try discriminate.
  destruct s; [discriminate|]. intros _.
  pose proof (SFmul_sign prec emax false m e false 6871947673600000 (-36)) as H.
  unfold SF64mul.
  destruct (SFmul _ _ _ _) as [s|s| |s m' e']; try discriminate.
  - intros X; inversion X; lia.
  - simpl in H. subst s. intros X; inversion X; subst.
    destruct (0 <=? e') eqn:He.
    + apply Z.mul_nonneg_nonneg; [lia | apply Z.pow_nonneg; lia].
    + apply Z.leb_gt in He. apply Z.div_pos; [lia|].
      apply Z.pow_pos_nonneg; lia.
Qed.

(** C6, as worded, against the code. The words ["<floor(cpus*100000)>\n"]
    and ["<memory_kib*1024>\n"] read as numbers are not what is written:
    the code multiplies in [float64] and in [uint64]. For [cpus = 0.35],
    the binary64 number [0x1.6666666666666p-2] just below 35/100,
    [limits.CPUs*100000] rounds to
    35000 and ["35000\n"] is written, while the floor of the product of
    the numbers is 34999. For [memory_kib = 2^54] the product [2^64] wraps
    and ["0\n"] is written. Both calls of [newJobCgroup] succeed. *)
Lemma written_limits_are_machine_numbers :
  let cg := "/sys/fs/cgroup/telejob/1" in
  let w := (Scenario.fresh no_faults).2 in
  let l1 := {| CPUs := 0x1.6666666666666p-2; MemoryKiB := 0; IO := [] |} in
  let l2 := {| CPUs := 0; MemoryKiB := 2 ^ 54; IO := [] |} in
  (exists w',
      newJobCgroup no_faults cg l1 w = (w', None) /\
      new_calls w w' = [ok (Mkdir cg);
                        ok (WriteFile cg "cpu.max" ("35000" ++ newline))]) /\
  cpu_max_as_specified l1 = Some ("34999" ++ newline)%string /\
  Some (cpu_max_content l1) <> cpu_max_as_specified l1 /\
  (exists w',
      newJobCgroup no_faults cg l2 w = (w', None) /\
      new_calls w w' = [ok (Mkdir cg);
                        ok (WriteFile cg "memory.max" ("0" ++ newline))]) /\
  memory_max_as_specified l2 = ("18446744073709551616" ++ newline)%string /\
  memory_max_content l2 <> memory_max_as_specified l2.
Proof.
  cbv zeta. split; [|split; [|split; [|split; [|split]]]].
  - eexists. split; vm_compute; reflexivity.
  - vm_compute. reflexivity.
  - vm_compute. intros H. discriminate H.
  - eexists. split; vm_compute; reflexivity.
  - vm_compute. reflexivity.
  - vm_compute. intros H. discriminate H.
Qed.

(** C6, amended. When [newJobCgroup] succeeds, the calls it made are the
    [Mkdir] and then exactly the writes of [limit_writes], each one
    successful: a write to [cpu.max] when [cpus > 0], a write to
    [memory.max] when [memory_kib > 0], and one write to [io.max] per entry
    of [io]; a limit of zero makes no write. The number written to
    [cpu.max] is [int(cpus*100000)] of the [float64] product: under the
    guard [cpus > 0] the rounded product is not negative, the number is its
    [floor] when that is an [int], and the smallest [int] when it is larger
    or the product is infinite. The number written to [memory.max] is
    [memory_kib*1024] modulo [2^64], which is the product itself below
    [2^64]. For [cpus = 0.5] and [memory_kib = 1000] the writes are
    ["50000\n"] and ["1024000\n"], and the kernel shows what was written to
    [cpu.max] as ["50000 100000\n"]. *)
Theorem newJobCgroup_writes_the_limits :
  (forall cg l w w',
      newJobCgroup F cg l w = (w', None) ->
      new_calls w w' = ok (Mkdir cg) :: map ok (limit_writes cg l)) /\
  (forall cg io,
      limit_writes cg {| CPUs := 0; MemoryKiB := 0; IO := io |}
      = map (fun ioLimit => WriteFile cg "io.max" ioLimit) io) /\
  (forall l,
      (0 <? CPUs l)%float = true ->
      match floor_float (CPUs l * 100000) with
      | Some z =>
          0 <= z /\
          cpu_max_content l
          = (FormatInt (if (z <=? MaxInt)%Z then z else (- 2 ^ 63)%Z) ++ newline)%string
      | None => cpu_max_content l = (FormatInt (- 2 ^ 63) ++ newline)%string
      end) /\
  (forall l,
      memory_max_content l
      = (FormatUint ((MemoryKiB l * 1024) mod 2 ^ 64) ++ newline)%string) /\
  (forall l,
      0 <= MemoryKiB l -> MemoryKiB l * 1024 < 2 ^ 64 ->
      memory_max_content l = (FormatUint (MemoryKiB l * 1024) ++ newline)%string) /\
  (forall cg,
      limit_writes cg {| CPUs := 0.5; MemoryKiB := 1000; IO := [] |}
      = [WriteFile cg "cpu.max" ("50000" ++ newline);
         WriteFile cg "memory.max" ("1024000" ++ newline)]) /\
  CgroupV2.cpu_max_read
    <$> CgroupV2.cpu_max_write ("50000" ++ newline) CgroupV2.cpu_max_default
  = Some ("50000 100000" ++ newline)%string.
Proof.
  split; [|split; [|split; [|split; [|split; [|split]]]]].
  - intros cg l w w' H. apply newJobCgroup_inv in H.
    inversion H as [| |Hl Hd]; subst. apply new_calls_app, Hl.
  - intros cg io. reflexivity.
  - intros l Hpos. unfold cpu_max_content, int_of_float64.
    destruct (floor_float (CPUs l * 100000)) as [z|] eqn:Hf.
    + pose proof (quota_is_not_negative _ _ Hpos Hf) as Hz.
      split; [exact Hz|]. rewrite (floor_float_trunc _ _ Hf Hz).
      replace (- 2 ^ 63 <=? z) with true by (symmetry; apply Z.leb_le; lia).
      reflexivity.
    + rewrite (floor_float_None _ Hf). reflexivity.
  - intros l. reflexivity.
  - intros l H0 H1. unfold memory_max_content. rewrite wrap64_small by lia.
    reflexivity.
  - intros cg. vm_compute. reflexivity.
  - vm_compute. reflexivity.
Qed.


End ConstructionFacts.

(** ** The log dispatcher *)

Import Logs.

(** All the bytes a reader was handed. *)
Definition data (rs : list read_result) : list Byte.byte :=
  flat_map (fun x => match x with RData b => b | _ => [] end) rs.

(** What holds of a reader [r], the [i]-th, and of its channel [c], under
    the dispatcher [d]. *)
Record reader_ok (d : logDispatcher) (i : nat) (r : reader) (c : chan) : Prop :=
  mkReaderOk {
    ok_respCh : respCh (lr r) = None \/ respCh (lr r) = Some i;
    ok_prefix : data (returns r) `prefix_of` fullLog d;
    ok_startIdx : startIdx (lr r) = Z.of_nat (length (data (returns r)));
    ok_nil : respCh (lr r) = None ->
             at_ r = Idle /\ inputCh_open d = false /\ data (returns r) = fullLog d;
    ok_eof : forall bs, read_until_EOF (returns r) = Some bs ->
             respCh (lr r) = None /\ bs = data (returns r);
    ok_buf_idle : forall b, buf c = Some b -> at_ r = Idle -> ctx_done r = true;
    ok_buf_select : forall b p, buf c = Some b -> at_ r = InSelect p ->
             exists rest, drop (length (data (returns r))) (fullLog d) = b ++ rest;
    ok_closed_buf : closed c = true -> buf c = None;
    ok_closed_fol : closed c = true -> i ∉ followers d;
    ok_closed_idle : closed c = true -> at_ r = Idle ->
             ctx_done r = true \/ respCh (lr r) = None;
    ok_closed_select : forall p, closed c = true -> at_ r = InSelect p ->
             inputCh_open d = false /\ data (returns r) = fullLog d;
    ok_done : at_ r = SendingDone -> ctx_done r = true;
    ok_follower : i ∈ followers d ->
             at_ r <> Idle /\ respCh (lr r) = Some i /\
             data (returns r) = fullLog d /\ buf c = None /\ closed c = false
  }.

(** The invariant of the system. *)
Record inv (s : system) : Prop := mkInv {
  inv_len : length (chans s) = length (readers s);
  inv_max : Z.of_nat (length (fullLog (dispatcher s))) <= MaxInt;
  inv_closed : inputCh_open (dispatcher s) = false -> input_closed s = true;
  inv_fol : forall i, i ∈ followers (dispatcher s) ->
            (i < length (readers s))%nat /\ inputCh_open (dispatcher s) = true;
  inv_reader : forall i r c,
      readers s !! i = Some r -> chans s !! i = Some c ->
      reader_ok (dispatcher s) i r c
}.

Section LogFacts.

(** *** Results of [Read] *)

Lemma data_app rs x : data (rs ++ [x]) = data rs ++ data [x].
Proof. unfold data. rewrite flat_map_app. reflexivity. Qed.

Lemma read_until_EOF_snoc rs x :
  read_until_EOF (rs ++ [x])
  = match read_until_EOF rs with
    | Some bs => Some bs
    | None => match x with REOF => Some (data rs) | _ => None end
    end.
Proof.
  induction rs as [|y rs IH]; simpl.
  - destruct x; reflexivity.
  - destruct y; simpl.
    + rewrite IH. destruct (read_until_EOF rs); simpl; [reflexivity|].
      destruct x; simpl; try reflexivity.
    + reflexivity.
    + rewrite IH. reflexivity.
Qed.

(** *** Channels *)

Lemma send_to_inv ch b h h' :
  send_to ch b h = Some h' ->
  exists c, h !! ch = Some c /\ buf c = None /\ closed c = false /\
            h' = <[ch := {| buf := Some b; closed := false |}]> h.
Proof.
  unfold send_to, chan_send. destruct (h !! ch) as [c|]; simpl; [|discriminate].
  destruct (closed c) eqn:Hcl; simpl; [discriminate|].
  destruct (buf c) eqn:Hb; simpl; [discriminate|].
  intros H; inversion H; subst. exists c. auto.
Qed.

Lemma close_ch_inv ch h h' :
  close_ch ch h = Some h' ->
  exists c, h !! ch = Some c /\ closed c = false /\
            h' = <[ch := {| buf := buf c; closed := true |}]> h.
Proof.
  unfold close_ch, chan_close. destruct (h !! ch) as [c|]; simpl; [|discriminate].
  destruct (closed c) eqn:Hcl; simpl; [discriminate|].
  intros H; inversion H; subst. exists c. auto.
Qed.

Lemma send_all_inv fs b : forall h h',
  NoDup fs -> send_all fs b h = Some h' ->
  length h' = length h /\
  forall j,
    (j ∈ fs -> exists c, h !! j = Some c /\ buf c = None /\ closed c = false /\
                         h' !! j = Some {| buf := Some b; closed := false |}) /\
    (j ∉ fs -> h' !! j = h !! j).
Proof.
  induction fs as [|f fs IH]; intros h h' Hnd H; simpl in H.
  - inversion H; subst. split; [reflexivity|]. intros j. split; [|reflexivity].
    intros Hj. inversion Hj.
  - apply NoDup_cons in Hnd as [Hf Hnd].
    destruct (send_to f b h) as [h1|] eqn:Hs; simpl in H; [|discriminate].
    apply send_to_inv in Hs. destruct Hs as (c & Hc & Hb & Hcl & ->).
    destruct (IH _ _ Hnd H) as [Hlen Hj]. split.
    + rewrite Hlen. apply length_insert.
    + intros j. split.
      * intros Hin. apply elem_of_cons in Hin. destruct (decide (j = f)) as [->|Hne].
        -- exists c. repeat split; try assumption.
           destruct (Hj f) as [_ Hout]. rewrite (Hout Hf).
           apply list_lookup_insert_eq. eapply lookup_lt_Some, Hc.
        -- destruct Hin as [?|Hin]; [contradiction|].
           destruct (Hj j) as [Hin' _]. destruct (Hin' Hin) as (c' & Hc' & ?).
           rewrite list_lookup_insert_ne in Hc' by congruence. eauto.
      * intros Hout. apply not_elem_of_cons in Hout as [Hne Hout].
        destruct (Hj j) as [_ Hout']. rewrite (Hout' Hout).
        apply list_lookup_insert_ne. congruence.
Qed.

Lemma close_all_inv fs : forall h h',
  NoDup fs -> close_all fs h = Some h' ->
  length h' = length h /\
  forall j,
    (j ∈ fs -> exists c, h !! j = Some c /\ closed c = false /\
                         h' !! j = Some {| buf := buf c; closed := true |}) /\
    (j ∉ fs -> h' !! j = h !! j).
Proof.
  induction fs as [|f fs IH]; intros h h' Hnd H; simpl in H.
  - inversion H; subst. split; [reflexivity|]. intros j. split; [|reflexivity].
    intros Hj. inversion Hj.
  - apply NoDup_cons in Hnd as [Hf Hnd].
    destruct (close_ch f h) as [h1|] eqn:Hs; simpl in H; [|discriminate].
    apply close_ch_inv in Hs. destruct Hs as (c & Hc & Hcl & ->).
    destruct (IH _ _ Hnd H) as [Hlen Hj]. split.
    + rewrite Hlen. apply length_insert.
    + intros j. split.
      * intros Hin. apply elem_of_cons in Hin. destruct (decide (j = f)) as [->|Hne].
        -- exists c. repeat split; try assumption.
           destruct (Hj f) as [_ Hout]. rewrite (Hout Hf).
           apply list_lookup_insert_eq. eapply lookup_lt_Some, Hc.
        -- destruct Hin as [?|Hin]; [contradiction|].
           destruct (Hj j) as [Hin' _]. destruct (Hin' Hin) as (c' & Hc' & ?).
           rewrite list_lookup_insert_ne in Hc' by congruence. eauto.
      * intros Hout. apply not_elem_of_cons in Hout as [Hne Hout].
        destruct (Hj j) as [_ Hout']. rewrite (Hout' Hout).
        apply list_lookup_insert_ne. congruence.
Qed.

Lemma close_all_succeeds fs : forall h,
  NoDup fs ->
  (forall j, j ∈ fs -> exists c, h !! j = Some c /\ closed c = false) ->
  is_Some (close_all fs h).
Proof.
  induction fs as [|f fs IH]; intros h Hnd Hopen; simpl; [eauto|].
  apply NoDup_cons in Hnd as [Hf Hnd].
  destruct (Hopen f) as (c & Hc & Hcl); [left|].
  unfold close_ch at 1, chan_close. rewrite Hc. simpl. rewrite Hcl. simpl.
  apply IH; [exact Hnd|]. intros j Hj.
  destruct (Hopen j) as (c' & Hc' & Hcl'); [right; exact Hj|].
  exists c'. split; [|exact Hcl'].
  rewrite list_lookup_insert_ne; [exact Hc'|]. intros ->. contradiction.
Qed.

(** *** The invariant is kept *)

(** Goals that hold by a contradiction among the hypotheses. *)
Ltac absurd_hyp :=
  intros;
  match goal with
  | |- _ ∉ ∅ => apply not_elem_of_empty
  | H : false = true |- _ => discriminate H
  | H : true = false |- _ => discriminate H
  | H : Some _ = None |- _ => discriminate H
  | H : None = Some _ |- _ => discriminate H
  | H : _ ∈ ∅ |- _ => apply not_elem_of_empty in H; contradiction
  | H : ?x <> ?x |- _ => contradiction H; reflexivity
  | H : Idle = InSelect _ |- _ => discriminate H
  | H : Idle = SendingDone |- _ => discriminate H
  | H : InSelect _ = Idle |- _ => discriminate H
  | H : InSelect _ = SendingDone |- _ => discriminate H
  | H : SendingDone = Idle |- _ => discriminate H
  | H : SendingDone = InSelect _ |- _ => discriminate H
  | H : forall b, buf ?c = Some b -> Idle = Idle -> false = true,
    Hb : buf ?c = Some _ |- _ => discriminate (H _ Hb eq_refl)
  | _ => congruence
  end.

Ltac use_follower :=
  match goal with
  | H : ?i ∈ followers ?d -> _, Hf : ?i ∈ followers ?d |- _ =>
      destruct (H Hf) as (? & ? & ? & ? & ?)
  end.

Ltac use_nil :=
  match goal with
  | H : respCh ?l = None -> _ /\ _, Hn : respCh ?l = None |- _ =>
      destruct (H Hn) as (? & ? & ?)
  end.

Ltac ok_solve :=
  intros; try use_follower; try use_nil; repeat split; eauto;
  try congruence; try contradiction; try absurd_hyp.

Ltac ok_fields :=
  constructor; simpl; auto; try solve [absurd_hyp]; try solve [ok_solve].

Lemma inv_initial : inv newStartedLogDispatcher.
Proof.
  constructor; simpl.
  - reflexivity.
  - unfold MaxInt. lia.
  - discriminate.
  - intros i Hi. apply not_elem_of_empty in Hi. contradiction.
  - intros i r c Hr. rewrite lookup_nil in Hr. discriminate.
Qed.

(** The same reader and channel under a dispatcher with the same input
    state and log, and no new follower. *)
Lemma reader_ok_same d d' i r c :
  inputCh_open d' = inputCh_open d -> fullLog d' = fullLog d ->
  (i ∈ followers d' -> i ∈ followers d) ->
  reader_ok d i r c -> reader_ok d' i r c.
Proof.
  intros Ho Hf Hfol [H1 H2 H3 H4 H5 H6 H7 H8 H9 H10 H11 H12 H13].
  constructor; rewrite ?Ho, ?Hf; auto.
  intros Hc Hi. exact (H9 Hc (Hfol Hi)).
Qed.

(** A step that touches one reader only. *)
Lemma inv_set_reader s i r r' :
  inv s -> readers s !! i = Some r ->
  (forall c, chans s !! i = Some c ->
             reader_ok (dispatcher s) i r c -> reader_ok (dispatcher s) i r' c) ->
  inv (set_reader s i r').
Proof.
  intros [Hlen Hmax Hcl Hfol Hrd] Hr Hok. constructor; simpl.
  - rewrite length_insert. exact Hlen.
  - exact Hmax.
  - exact Hcl.
  - intros j Hj. rewrite length_insert. apply Hfol, Hj.
  - intros j rj c Hrj Hc. destruct (decide (i = j)) as [->|Hne].
    + rewrite list_lookup_insert_eq in Hrj by (eapply lookup_lt_Some; eauto).
      inversion Hrj; subst. apply Hok; [exact Hc|]. apply Hrd; assumption.
    + rewrite list_lookup_insert_ne in Hrj by exact Hne. apply Hrd; assumption.
Qed.

(** A step that touches the dispatcher, one reader and its channel. *)
Lemma inv_update s i r d' c' r' :
  inv s -> readers s !! i = Some r ->
  Z.of_nat (length (fullLog d')) <= MaxInt ->
  (inputCh_open d' = false -> input_closed s = true) ->
  (forall j, j ∈ followers d' ->
             (j < length (readers s))%nat /\ inputCh_open d' = true) ->
  reader_ok d' i r' c' ->
  (forall j rj cj, j <> i ->
      readers s !! j = Some rj -> chans s !! j = Some cj ->
      reader_ok (dispatcher s) j rj cj -> reader_ok d' j rj cj) ->
  inv {| dispatcher := d'; chans := <[i := c']> (chans s);
         readers := <[i := r']> (readers s); input_closed := input_closed s |}.
Proof.
  intros [Hlen Hmax Hcl Hfol Hrd] Hr Hmax' Hcl' Hfol' Hok Hothers.
  constructor; simpl.
  - rewrite !length_insert. exact Hlen.
  - exact Hmax'.
  - exact Hcl'.
  - intros j Hj. rewrite length_insert. apply Hfol', Hj.
  - intros j rj c Hrj Hc. destruct (decide (i = j)) as [->|Hne].
    + rewrite list_lookup_insert_eq in Hrj by (eapply lookup_lt_Some; eauto).
      rewrite list_lookup_insert_eq in Hc
        by (rewrite Hlen; eapply lookup_lt_Some; eauto).
      inversion Hrj; inversion Hc; subst. exact Hok.
    + rewrite list_lookup_insert_ne in Hrj by exact Hne.
      rewrite list_lookup_insert_ne in Hc by exact Hne.
      apply Hothers; auto.
Qed.

(** A step that touches one reader and its channel. *)
Lemma inv_update_same s i r c' r' :
  inv s -> readers s !! i = Some r ->
  reader_ok (dispatcher s) i r' c' ->
  inv {| dispatcher := dispatcher s; chans := <[i := c']> (chans s);
         readers := <[i := r']> (readers s); input_closed := input_closed s |}.
Proof.
  intros Hinv Hr Hok. apply inv_update with (r := r); auto.
  - apply (inv_max _ Hinv).
  - apply (inv_closed _ Hinv).
  - apply (inv_fol _ Hinv).
Qed.

Lemma reader_has_chan s i r :
  inv s -> readers s !! i = Some r -> exists c, chans s !! i = Some c.
Proof.
  intros Hinv Hr. apply lookup_lt_is_Some. rewrite (inv_len _ Hinv).
  eapply lookup_lt_Some, Hr.
Qed.

Lemma prefix_length_eq {A} (l k : list A) :
  l `prefix_of` k -> (length k <= length l)%nat -> l = k.
Proof.
  intros [m ->] H. rewrite length_app in H.
  destruct m; [rewrite app_nil_r; reflexivity | simpl in H; lia].
Qed.

(** [EvInput]. *)
Lemma inv_input s b s' :
  inv s -> step s (EvInput b) = Some s' -> inv s'.
Proof.
  intros Hinv H. pose proof Hinv as [Hlen Hmax Hcl Hfol Hrd].
  simpl in H. destruct (input_closed s) eqn:Hic; [discriminate H|].
  unfold handleInput in H.
  destruct (MaxInt <? Z.of_nat (length (fullLog (dispatcher s) ++ b))) eqn:Hm;
    [discriminate H|].
  apply Z.ltb_ge in Hm.
  destruct (send_all (elements (followers (dispatcher s))) b (chans s))
    as [h'|] eqn:Hs; simpl in H; [|discriminate H].
  inversion H; subst; clear H.
  apply send_all_inv in Hs; [|apply NoDup_elements].
  destruct Hs as [Hlen' Hj].
  assert (Hopen : inputCh_open (dispatcher s) = true).
  { destruct (inputCh_open (dispatcher s)) eqn:Ho; [reflexivity|].
    discriminate (Hcl eq_refl). }
  constructor; simpl.
  - congruence.
  - exact Hm.
  - rewrite Hopen. discriminate.
  - intros i Hi. apply not_elem_of_empty in Hi. contradiction.
  - intros i r c' Hr Hc'.
    destruct (reader_has_chan s i r Hinv Hr) as [c Hc].
    pose proof (Hrd i r c Hr Hc) as [H1 H2 H3 H4 H5 H6 H7 H8 H9 H10 H11 H12 H13].
    destruct (Hj i) as [Hin Hout].
    destruct (decide (i ∈ followers (dispatcher s))) as [Hf|Hnf].
    + destruct (Hin (proj2 (elem_of_elements _ _) Hf)) as (c0 & Hc0 & _ & _ & Hc1).
      rewrite Hc1 in Hc'. inversion Hc'; subst c'. clear Hc1.
      destruct (H13 Hf) as (Hni & Hresp & Hdata & Hbuf & Hclosed).
      ok_fields.
      * apply prefix_app_r. exact H2.
      * intros b0 p Hb _. inversion Hb; subst b0. exists [].
        rewrite Hdata, drop_app_length, app_nil_r. reflexivity.
    + rewrite (Hout (fun Hi => Hnf (proj1 (elem_of_elements _ _) Hi))) in Hc'.
      rewrite Hc in Hc'. inversion Hc'; subst c'.
      ok_fields.
      * apply prefix_app_r. exact H2.

      * intros b0 p Hb Hp. destruct (H7 b0 p Hb Hp) as [rest Hrest].
        exists (rest ++ b). rewrite drop_app_le by (apply prefix_length, H2).
        rewrite Hrest, <- app_assoc. reflexivity.
      * intros p Hcd Hp. destruct (H11 p Hcd Hp) as (Ho & _). congruence.
Qed.

(** [EvCloseInput]. *)
Lemma inv_close_input s s' :
  inv s -> step s EvCloseInput = Some s' -> inv s'.
Proof.
  intros [Hlen Hmax Hcl Hfol Hrd] H. simpl in H.
  destruct (input_closed s); [discriminate H|]. inversion H; subst; clear H.
  constructor; simpl; auto.
Qed.

(** [EvInputClosed]. *)
Lemma inv_input_closed s s' :
  inv s -> step s EvInputClosed = Some s' -> inv s'.
Proof.
  intros Hinv H. pose proof Hinv as [Hlen Hmax Hcl Hfol Hrd].
  simpl in H. destruct (input_closed s) eqn:Hic; [|discriminate H].
  destruct (inputCh_open (dispatcher s)) eqn:Hopen; [|discriminate H].
  simpl in H. unfold handleInputClosed in H.
  destruct (close_all (elements (followers (dispatcher s))) (chans s))
    as [h'|] eqn:Hs; simpl in H; [|discriminate H].
  inversion H; subst; clear H.
  apply close_all_inv in Hs; [|apply NoDup_elements].
  destruct Hs as [Hlen' Hj].
  constructor; simpl.
  - congruence.
  - exact Hmax.
  - intros _. exact Hic.
  - intros i Hi. apply not_elem_of_empty in Hi. contradiction.
  - intros i r c' Hr Hc'.
    destruct (reader_has_chan s i r Hinv Hr) as [c Hc].
    pose proof (Hrd i r c Hr Hc) as [H1 H2 H3 H4 H5 H6 H7 H8 H9 H10 H11 H12 H13].
    destruct (Hj i) as [Hin Hout].
    destruct (decide (i ∈ followers (dispatcher s))) as [Hf|Hnf].
    + destruct (Hin (proj2 (elem_of_elements _ _) Hf)) as (c0 & Hc0 & _ & Hc1).
      rewrite Hc in Hc0. inversion Hc0; subst c0.
      rewrite Hc1 in Hc'. inversion Hc'; subst c'. clear Hc1.
      destruct (H13 Hf) as (Hni & Hresp & Hdata & Hbuf & Hclosed).
      ok_fields.
    + rewrite (Hout (fun Hi => Hnf (proj1 (elem_of_elements _ _) Hi))) in Hc'.
      rewrite Hc in Hc'. inversion Hc'; subst c'.
      ok_fields.

      * intros p Hcd Hp. destruct (H11 p Hcd Hp) as (Ho & _). congruence.
Qed.

Ltac eof_case :=
  let bs := fresh "bs" in
  let Hb := fresh "Hb" in
  intros bs; destruct (read_until_EOF _) eqn:?; intros Hb;
  inversion Hb; subst; clear Hb;
  try match goal with
      | H : forall bs, read_until_EOF ?x = Some bs -> _,
        He : read_until_EOF ?x = Some _ |- _ =>
          destruct (H _ He) as [? ?]
      | H : forall bs, Some _ = Some bs -> _ /\ _ |- _ =>
          destruct (H _ eq_refl) as [? ?]
      end;
  auto; try congruence; try (exfalso; congruence).

Ltac ok_fields_snoc :=
  constructor; simpl;
  rewrite ?data_app, ?read_until_EOF_snoc; simpl; rewrite ?app_nil_r;
  auto; try solve [absurd_hyp]; try solve [ok_solve]; try solve [eof_case].

(** [EvNewReader]. *)
Lemma inv_new_reader s s' :
  inv s -> step s EvNewReader = Some s' -> inv s'.
Proof.
  intros Hinv H. pose proof Hinv as [Hlen Hmax Hcl Hfol Hrd].
  simpl in H. inversion H; subst; clear H.
  constructor; simpl.
  - rewrite !length_app. simpl. lia.
  - exact Hmax.
  - exact Hcl.
  - intros i Hi. destruct (Hfol i Hi) as [Hlt Ho]. rewrite length_app. simpl.
    split; [lia | exact Ho].
  - intros i r c Hr Hc.
    destruct (decide (i < length (readers s))%nat) as [Hlt|Hge].
    + rewrite lookup_app_l in Hr by exact Hlt.
      rewrite lookup_app_l in Hc by (rewrite Hlen; exact Hlt).
      apply Hrd; assumption.
    + rewrite lookup_app_r in Hr by lia. rewrite lookup_app_r in Hc by lia.
      rewrite Hlen in Hc.
      destruct (i - length (readers s))%nat as [|k] eqn:E; simpl in Hr, Hc;
        [|rewrite lookup_nil in Hr; discriminate Hr].
      inversion Hr; inversion Hc; subst r c. clear Hr Hc.
      assert (Hi : i = length (readers s)) by lia.
      ok_fields.
      * right. f_equal. lia.
      * apply prefix_nil.
      * intros Hf. destruct (Hfol i Hf) as [Hlt _]. lia.
Qed.

(** [EvCancel]. *)
Lemma inv_cancel s i s' :
  inv s -> step s (EvCancel i) = Some s' -> inv s'.
Proof.
  intros Hinv H. simpl in H.
  destruct (readers s !! i) as [r|] eqn:Hr; simpl in H; [|discriminate H].
  inversion H; subst; clear H.
  apply inv_set_reader with (r := r); [exact Hinv | exact Hr |].
  intros c Hc [H1 H2 H3 H4 H5 H6 H7 H8 H9 H10 H11 H12 H13]. ok_fields.
Qed.

(** [EvCtxDone]. *)
Lemma inv_ctx_done s i s' :
  inv s -> step s (EvCtxDone i) = Some s' -> inv s'.
Proof.
  intros Hinv H. simpl in H.
  destruct (readers s !! i) as [r|] eqn:Hr; simpl in H; [|discriminate H].
  destruct (at_ r) as [|p|] eqn:Hat; try discriminate H.
  destruct (ctx_done r) eqn:Hctx; [|discriminate H].
  inversion H; subst; clear H.
  apply inv_set_reader with (r := r); [exact Hinv | exact Hr |].
  intros c Hc [H1 H2 H3 H4 H5 H6 H7 H8 H9 H10 H11 H12 H13]. ok_fields.
Qed.

(** [EvRead]. *)
Lemma inv_read s i p s' :
  inv s -> step s (EvRead i p) = Some s' -> inv s'.
Proof.
  intros Hinv H. simpl in H.
  destruct (readers s !! i) as [r|] eqn:Hr; simpl in H; [|discriminate H].
  destruct (at_ r) eqn:Hat; try discriminate H.
  unfold Read_request in H.
  destruct (ctx_done r) eqn:Hctx.
  { inversion H; subst; clear H.
    apply inv_set_reader with (r := r); [exact Hinv | exact Hr |].
    intros c Hc [H1 H2 H3 H4 H5 H6 H7 H8 H9 H10 H11 H12 H13]. ok_fields_snoc. }
  destruct (respCh (lr r)) as [ch|] eqn:Hresp.
  2:{ inversion H; subst; clear H.
      apply inv_set_reader with (r := r); [exact Hinv | exact Hr |].
      intros c Hc [H1 H2 H3 H4 H5 H6 H7 H8 H9 H10 H11 H12 H13]. ok_fields_snoc. }
  destruct (handleRequest _ (dispatcher s) (chans s)) as [[d' h']|] eqn:Hreq;
    simpl in H; [|discriminate H].
  inversion H; subst; clear H.
  destruct (reader_has_chan s i r Hinv Hr) as [c Hc].
  pose proof Hinv as [Hlen Hmax Hcl Hfol Hrd].
  pose proof (Hrd i r c Hr Hc) as [H1 H2 H3 H4 H5 H6 H7 H8 H9 H10 H11 H12 H13].
  assert (ch = i) as -> by (destruct H1 as [H1|H1]; congruence).
  assert (Hbuf : buf c = None).
  { destruct (buf c) as [b|] eqn:Hb; [|reflexivity].
    rewrite (H6 b eq_refl Hat) in Hctx. discriminate Hctx. }
  assert (Hopen : closed c = false).
  { destruct (closed c) eqn:Hb; [|reflexivity].
    destruct (H10 eq_refl Hat); congruence. }
  assert (Hnf : i ∉ followers (dispatcher s)).
  { intros Hf. destruct (H13 Hf) as (Hni & _). contradiction. }
  unfold handleRequest in Hreq. simpl in Hreq.
  destruct (startIdx (lr r) <? Z.of_nat (length (fullLog (dispatcher s)))) eqn:Hlt.
  - (* the log has more: it is sent *)
    destruct (send_to i _ (chans s)) as [h1|] eqn:Hs; simpl in Hreq;
      [|discriminate Hreq].
    inversion Hreq; subst; clear Hreq.
    apply send_to_inv in Hs. destruct Hs as (c0 & Hc0 & _ & _ & ->).
    unfold set_reader, with_dispatcher; simpl.
    apply inv_update_same with (r := r); [exact Hinv | exact Hr |].
    ok_fields.
    + intros b0 p0 Hb _. inversion Hb; subst b0. exists [].
      rewrite H3, Nat2Z.id, app_nil_r. reflexivity.
  - apply Z.ltb_ge in Hlt.
    assert (Hdata : data (returns r) = fullLog (dispatcher s)).
    { apply prefix_length_eq; [exact H2 | lia]. }
    destruct (inputCh_open (dispatcher s)) eqn:Hin.
    + (* a follower *)
      inversion Hreq; subst; clear Hreq.
      unfold set_reader, with_dispatcher; simpl.
      match goal with
      | |- inv {| dispatcher := ?d'; chans := _; readers := <[i := ?r']> _;
                  input_closed := _ |} =>
          pose proof (inv_update s i r d' c r' Hinv Hr) as X
      end.
      rewrite (list_insert_id (chans s) i c Hc) in X.
      apply X; simpl; auto; clear X.
      * intros j Hj. apply elem_of_union in Hj as [Hj|Hj].
        -- apply elem_of_singleton in Hj. subst j. split; [|reflexivity].
           eapply lookup_lt_Some, Hr.
        -- destruct (Hfol j Hj). auto.
      * ok_fields.
      * intros j rj cj Hne Hrj Hcj Hok.
        apply reader_ok_same with (d := dispatcher s); simpl; auto.
        intros Hj. apply elem_of_union in Hj as [Hj|Hj]; [|exact Hj].
        apply elem_of_singleton in Hj. contradiction.
    + (* the input is closed: so is the channel *)
      destruct (close_ch i (chans s)) as [h1|] eqn:Hs; simpl in Hreq;
        [|discriminate Hreq].
      inversion Hreq; subst; clear Hreq.
      apply close_ch_inv in Hs. destruct Hs as (c0 & Hc0 & _ & ->).
      rewrite Hc in Hc0. inversion Hc0; subst c0.
      unfold set_reader, with_dispatcher; simpl.
    apply inv_update_same with (r := r); [exact Hinv | exact Hr |].
      ok_fields.
Qed.

(** [EvRecv]. *)
Lemma inv_recv s i s' :
  inv s -> step s (EvRecv i) = Some s' -> inv s'.
Proof.
  intros Hinv H. simpl in H.
  destruct (readers s !! i) as [r|] eqn:Hr; simpl in H; [|discriminate H].
  destruct (at_ r) as [|p|] eqn:Hat; try discriminate H.
  unfold Read_receive in H.
  destruct (respCh (lr r)) as [ch|] eqn:Hresp; simpl in H; [|discriminate H].
  destruct (chans s !! ch) as [c|] eqn:Hc; simpl in H; [|discriminate H].
  pose proof Hinv as [Hlen Hmax Hcl Hfol Hrd].
  assert (ch = i) as ->.
  { destruct (reader_has_chan s i r Hinv Hr) as [ci Hci].
    destruct (ok_respCh _ _ _ _ (Hrd i r ci Hr Hci)); congruence. }
  pose proof (Hrd i r c Hr Hc) as [H1 H2 H3 H4 H5 H6 H7 H8 H9 H10 H11 H12 H13].
  unfold chan_recv in H. destruct (buf c) as [b|] eqn:Hbuf; simpl in H.
  - (* bytes *)
    inversion H; subst; clear H.
    assert (Hopen : closed c = false).
    { destruct (closed c); [|reflexivity]. discriminate (H8 eq_refl). }
    assert (Hnf : i ∉ followers (dispatcher s)).
    { intros Hf. destruct (H13 Hf) as (_ & _ & _ & Hb & _). discriminate Hb. }
    destruct (H7 b p eq_refl Hat) as [rest Hrest].
    assert (Hlog : fullLog (dispatcher s) = data (returns r) ++ b ++ rest).
    { pose proof H2 as [m Hm]. rewrite Hm in Hrest |- *.
      rewrite drop_app_length in Hrest. congruence. }
    unfold set_reader, with_dispatcher; simpl.
    apply inv_update_same with (r := r); [exact Hinv | exact Hr |].
    ok_fields_snoc.
    + rewrite Hlog. apply prefix_app, prefix_app_r.
      exists (drop (Nat.min p (length b)) b). symmetry. apply take_drop.
    + rewrite length_app, length_take, H3.
      assert (Hl : (length (data (returns r)) + length b
                    <= length (fullLog (dispatcher s)))%nat).
      { rewrite Hlog, !length_app. lia. }
      unfold MaxInt in Hmax. rewrite wrap64_small; lia.
  - (* the channel is closed *)
    destruct (closed c) eqn:Hclosed; simpl in H; [|discriminate H].
    inversion H; subst; clear H.
    destruct (H11 p eq_refl Hat) as [Hin Hdata].
    unfold set_reader, with_dispatcher; simpl.
    apply inv_update_same with (r := r); [exact Hinv | exact Hr |].
    ok_fields_snoc.
Qed.

(** [EvDone]. *)
Lemma inv_done s i s' :
  inv s -> step s (EvDone i) = Some s' -> inv s'.
Proof.
  intros Hinv H. simpl in H.
  destruct (readers s !! i) as [r|] eqn:Hr; simpl in H; [|discriminate H].
  destruct (at_ r) as [|p|] eqn:Hat; try discriminate H.
  destruct (respCh (lr r)) as [ch|] eqn:Hresp; simpl in H; [|discriminate H].
  destruct (handleDone ch (dispatcher s) (chans s)) as [[d' h']|] eqn:Hd;
    simpl in H; [|discriminate H].
  inversion H; subst; clear H.
  destruct (reader_has_chan s i r Hinv Hr) as [c Hc].
  pose proof Hinv as [Hlen Hmax Hcl Hfol Hrd].
  pose proof (Hrd i r c Hr Hc) as [H1 H2 H3 H4 H5 H6 H7 H8 H9 H10 H11 H12 H13].
  assert (ch = i) as -> by (destruct H1 as [H1|H1]; congruence).
  pose proof (H12 Hat) as Hctx.
  unfold handleDone in Hd.
  destruct (decide (i ∈ followers (dispatcher s))) as [Hf|Hnf].
  - destruct (close_ch i (chans s)) as [h1|] eqn:Hs; simpl in Hd;
      [|discriminate Hd].
    inversion Hd; subst; clear Hd.
    apply close_ch_inv in Hs. destruct Hs as (c0 & Hc0 & _ & ->).
    rewrite Hc in Hc0. inversion Hc0; subst c0.
    destruct (H13 Hf) as (_ & _ & Hdata & Hbuf & Hopen).
    unfold set_reader, with_dispatcher; simpl.
    apply inv_update with (r := r); simpl; auto.
    + intros j Hj. apply elem_of_difference in Hj as [Hj _]. auto.
    + ok_fields_snoc.
      * intros _ Hj. apply elem_of_difference in Hj as [_ Hj].
        apply Hj, elem_of_singleton. reflexivity.
      * intros Hj. apply elem_of_difference in Hj as [_ Hj].
        exfalso. apply Hj, elem_of_singleton. reflexivity.
    + intros j rj cj Hne Hrj Hcj Hok.
      apply reader_ok_same with (d := dispatcher s); simpl; auto.
      intros Hj. apply elem_of_difference in Hj as [Hj _]. exact Hj.
  - inversion Hd; subst; clear Hd.
    apply (inv_set_reader s i r); [exact Hinv | exact Hr |].
    intros c1 Hc1 _. rewrite Hc in Hc1. inversion Hc1; subst c1.
    ok_fields_snoc.
Qed.

(** Every event keeps the invariant, and so does every run. *)
Lemma step_inv s e s' : inv s -> step s e = Some s' -> inv s'.
Proof.
  destruct e; eauto using inv_input, inv_close_input, inv_input_closed,
    inv_new_reader, inv_cancel, inv_read, inv_recv, inv_ctx_done, inv_done.
Qed.

Lemma run_inv evs : forall s s', inv s -> run evs s = Some s' -> inv s'.
Proof.
  induction evs as [|e evs IH]; intros s s' Hinv H; simpl in H.
  - inversion H; subst. exact Hinv.
  - destruct (step s e) as [s1|] eqn:Hs; simpl in H; [|discriminate H].
    eapply IH; [|exact H]. eapply step_inv; eauto.
Qed.

(** *** A reader that reads on reaches the end *)

Lemma read_all_unfold n i p s :
  read_all (S n) i p s
  = (s1 ← step s (EvRead i p);
     s2 ← step s1 (EvRecv i);
     r ← readers s2 !! i;
     match last (returns r) with
     | Some REOF => Some s2
     | _ => read_all n i p s2
     end).
Proof. reflexivity. Qed.

Lemma read_all_step n i p s s1 s2 r2 :
  step s (EvRead i p) = Some s1 -> step s1 (EvRecv i) = Some s2 ->
  readers s2 !! i = Some r2 ->
  read_all (S n) i p s
  = match last (returns r2) with
    | Some REOF => Some s2
    | _ => read_all n i p s2
    end.
Proof.
  intros H1 H2 H3. rewrite read_all_unfold, H1. cbn [mbind option_bind].
  rewrite H2. cbn [mbind option_bind]. rewrite H3. reflexivity.
Qed.

(** With the input closed and taken, a reader between two calls, not
    cancelled, reads what is left of the log and then [io.EOF], in at most
    one call per byte left and one more. *)
Lemma read_all_reaches_EOF fuel : forall s i r p,
  inv s -> readers s !! i = Some r ->
  at_ r = Idle -> ctx_done r = false -> respCh (lr r) = Some i ->
  inputCh_open (dispatcher s) = false -> (0 < p)%nat ->
  (length (fullLog (dispatcher s)) - length (data (returns r)) < fuel)%nat ->
  exists s' r',
    read_all fuel i p s = Some s' /\ readers s' !! i = Some r' /\
    read_until_EOF (returns r') = Some (fullLog (dispatcher s)).
Proof.
  induction fuel as [|n IH]; intros s i r p Hinv Hr Hat Hctx Hresp Hin Hp Hfuel;
    [lia|].
  destruct (reader_has_chan s i r Hinv Hr) as [c Hc].
  pose proof (inv_reader _ Hinv i r c Hr Hc)
    as [H1 H2 H3 H4 H5 H6 H7 H8 H9 H10 H11 H12 H13].
  assert (Hbuf : buf c = None).
  { destruct (buf c) as [b|] eqn:Hb; [|reflexivity].
    rewrite (H6 b eq_refl Hat) in Hctx. discriminate Hctx. }
  assert (Hopen : closed c = false).
  { destruct (closed c) eqn:Hb; [|reflexivity].
    destruct (H10 eq_refl Hat); congruence. }
  assert (Hnone : read_until_EOF (returns r) = None).
  { destruct (read_until_EOF (returns r)) as [bs|] eqn:He; [|reflexivity].
    destruct (H5 bs eq_refl). congruence. }
  assert (Hi : (i < length (readers s))%nat) by (eapply lookup_lt_Some, Hr).
  assert (Hic : (i < length (chans s))%nat) by (eapply lookup_lt_Some, Hc).
  destruct (startIdx (lr r) <? Z.of_nat (length (fullLog (dispatcher s)))) eqn:Hlt.
  - (* bytes are left *)
    apply Z.ltb_lt in Hlt.
    set (b := drop (Z.to_nat (startIdx (lr r))) (fullLog (dispatcher s))).
    set (r1 := {| lr := lr r; ctx_done := false; at_ := InSelect p;
                  returns := returns r |}).
    set (s1 := set_reader
                 (with_dispatcher s
                    (dispatcher s, <[i := {| buf := Some b; closed := false |}]> (chans s)))
                 i r1).
    assert (Hs1 : step s (EvRead i p) = Some s1).
    { simpl. rewrite Hr. simpl. rewrite Hat. unfold Read_request.
      rewrite Hctx, Hresp. unfold handleRequest. simpl.
      apply Z.ltb_lt in Hlt. rewrite Hlt.
      unfold send_to. rewrite Hc. simpl. unfold chan_send. rewrite Hopen, Hbuf.
      simpl. reflexivity. }
    set (n0 := Nat.min p (length b)).
    set (r2 := returned {| lr := {| startIdx := wrap64 (startIdx (lr r) + Z.of_nat n0);
                                    respCh := Some i |};
                           ctx_done := false; at_ := InSelect p;
                           returns := returns r |} (RData (take n0 b))).
    set (s2 := set_reader
                 {| dispatcher := dispatcher s1;
                    chans := <[i := {| buf := None; closed := false |}]> (chans s1);
                    readers := readers s1; input_closed := input_closed s1 |}
                 i r2).
    assert (Hs2 : step s1 (EvRecv i) = Some s2).
    { simpl. rewrite list_lookup_insert_eq by exact Hi. simpl.
      unfold Read_receive. simpl. rewrite Hresp. simpl.
      rewrite list_lookup_insert_eq by exact Hic. simpl. reflexivity. }
    assert (Hr2 : readers s2 !! i = Some r2).
    { simpl. apply list_lookup_insert_eq. rewrite length_insert. exact Hi. }
    rewrite (read_all_step n i p s s1 s2 r2 Hs1 Hs2 Hr2).
    change (returns r2) with (returns r ++ [RData (take n0 b)]).
    rewrite last_snoc.
    assert (Hinv2 : inv s2).
    { eapply step_inv; [|exact Hs2]. eapply step_inv; [|exact Hs1]. exact Hinv. }
    assert (Hlenb : (length b = length (fullLog (dispatcher s))
                                - length (data (returns r)))%nat).
    { unfold b. rewrite length_drop, H3, Nat2Z.id. reflexivity. }
    destruct (IH s2 i r2 p Hinv2 Hr2 eq_refl eq_refl eq_refl Hin Hp) as (s' & r' & Hall & Hr' & He).
    { simpl. rewrite data_app. simpl. rewrite app_nil_r, length_app, length_take.
      fold n0. rewrite H3 in Hlt. unfold n0. lia. }
    exists s', r'. split; [exact Hall|]. split; [exact Hr' | exact He].
  - (* the end of the log *)
    apply Z.ltb_ge in Hlt.
    assert (Hdata : data (returns r) = fullLog (dispatcher s)).
    { apply prefix_length_eq; [exact H2 | lia]. }
    set (r1 := {| lr := lr r; ctx_done := false; at_ := InSelect p;
                  returns := returns r |}).
    set (s1 := set_reader
                 (with_dispatcher s
                    (dispatcher s, <[i := {| buf := None; closed := true |}]> (chans s)))
                 i r1).
    assert (Hs1 : step s (EvRead i p) = Some s1).
    { simpl. rewrite Hr. simpl. rewrite Hat. unfold Read_request.
      rewrite Hctx, Hresp. unfold handleRequest. simpl.
      apply Z.ltb_ge in Hlt. rewrite Hlt, Hin.
      unfold close_ch. rewrite Hc. simpl. unfold chan_close. rewrite Hopen.
      simpl. rewrite Hbuf. reflexivity. }
    set (r2 := returned {| lr := {| startIdx := startIdx (lr r); respCh := None |};
                           ctx_done := false; at_ := InSelect p;
                           returns := returns r |} REOF).
    set (s2 := set_reader
                 {| dispatcher := dispatcher s1;
                    chans := <[i := {| buf := None; closed := true |}]> (chans s1);
                    readers := readers s1; input_closed := input_closed s1 |}
                 i r2).
    assert (Hs2 : step s1 (EvRecv i) = Some s2).
    { simpl. rewrite list_lookup_insert_eq by exact Hi. simpl.
      unfold Read_receive. simpl. rewrite Hresp. simpl.
      rewrite list_lookup_insert_eq by exact Hic. simpl.
      reflexivity. }
    assert (Hr2 : readers s2 !! i = Some r2).
    { simpl. apply list_lookup_insert_eq. rewrite length_insert. exact Hi. }
    rewrite (read_all_step n i p s s1 s2 r2 Hs1 Hs2 Hr2).
    change (returns r2) with (returns r ++ [REOF]).
    rewrite last_snoc.
    exists s2, r2. split; [reflexivity|]. split; [exact Hr2|].
    simpl. rewrite read_until_EOF_snoc, Hnone, Hdata. reflexivity.
Qed.

(** The dispatcher can always take the close of its input. *)
Lemma take_close_succeeds s :
  inv s -> input_closed s = true ->
  exists s0, take_close s = Some s0 /\ inv s0 /\
             inputCh_open (dispatcher s0) = false /\
             fullLog (dispatcher s0) = fullLog (dispatcher s).
Proof.
  intros Hinv Hic. unfold take_close.
  destruct (inputCh_open (dispatcher s)) eqn:Hin; [|exists s; auto].
  assert (Hsome : is_Some (step s EvInputClosed)).
  { simpl. rewrite Hic, Hin. simpl. unfold handleInputClosed.
    destruct (close_all_succeeds (elements (followers (dispatcher s))) (chans s))
      as [h' Hh'].
    - apply NoDup_elements.
    - intros j Hj. apply elem_of_elements in Hj.
      destruct (inv_fol _ Hinv j Hj) as [Hlt _].
      destruct (lookup_lt_is_Some_2 (readers s) j Hlt) as [r Hr].
      destruct (reader_has_chan s j r Hinv Hr) as [c Hc].
      exists c. split; [exact Hc|].
      destruct (ok_follower _ _ _ _ (inv_reader _ Hinv j r c Hr Hc) Hj)
        as (_ & _ & _ & _ & Hcl). exact Hcl.
    - rewrite Hh'. simpl. eauto. }
  destruct Hsome as [s0 Hs0]. exists s0. split; [exact Hs0|].
  split; [eapply step_inv; eauto|].
  simpl in Hs0. rewrite Hic, Hin in Hs0. simpl in Hs0.
  unfold handleInputClosed in Hs0.
  destruct (close_all _ (chans s)) as [h'|]; simpl in Hs0; [|discriminate Hs0].
  inversion Hs0; subst. simpl. auto.
Qed.

(** *** The dispatcher is never stuck *)

Lemma send_all_succeeds fs b : forall h,
  NoDup fs ->
  (forall j, j ∈ fs ->
             exists c, h !! j = Some c /\ buf c = None /\ closed c = false) ->
  is_Some (send_all fs b h).
Proof.
  induction fs as [|f fs IH]; intros h Hnd Hfree; simpl; [eauto|].
  apply NoDup_cons in Hnd as [Hf Hnd].
  destruct (Hfree f) as (c & Hc & Hb & Hcl); [left|].
  unfold send_to at 1, chan_send. rewrite Hc. simpl. rewrite Hcl, Hb. simpl.
  apply IH; [exact Hnd|]. intros j Hj.
  destruct (Hfree j) as (c' & Hc' & Hfr); [right; exact Hj|].
  exists c'. split; [|exact Hfr].
  rewrite list_lookup_insert_ne; [exact Hc'|]. intros ->. contradiction.
Qed.

(** X3. In every reachable state the loop of the dispatcher can take what comes:
    an input (the send to each follower finds its buffer free, as the
    comment in [handleInput] says), the request of a reader that calls
    [Read], and the channel of a reader that gives up. No send waits and no
    channel is closed twice. *)
Lemma dispatcher_is_never_stuck evs s :
  run evs newStartedLogDispatcher = Some s ->
  (forall b, input_closed s = false ->
             Z.of_nat (length (fullLog (dispatcher s) ++ b)) <= MaxInt ->
             is_Some (step s (EvInput b))) /\
  (forall i r p, readers s !! i = Some r -> at_ r = Idle ->
                 is_Some (step s (EvRead i p))) /\
  (forall i r, readers s !! i = Some r -> at_ r = SendingDone ->
               is_Some (step s (EvDone i))).
Proof.
  intros Hrun.
  assert (Hinv : inv s) by (eapply run_inv; [apply inv_initial|exact Hrun]).
  split; [|split].
  - intros b Hic Hlen. simpl. rewrite Hic. unfold handleInput.
    destruct (MaxInt <? _) eqn:Hm; [apply Z.ltb_lt in Hm; lia|].
    destruct (send_all_succeeds (elements (followers (dispatcher s))) b (chans s))
      as [h' Hh'].
    + apply NoDup_elements.
    + intros j Hj. apply elem_of_elements in Hj.
      destruct (inv_fol _ Hinv j Hj) as [Hlt _].
      destruct (lookup_lt_is_Some_2 (readers s) j Hlt) as [r Hr].
      destruct (reader_has_chan s j r Hinv Hr) as [c Hc].
      exists c. split; [exact Hc|].
      destruct (ok_follower _ _ _ _ (inv_reader _ Hinv j r c Hr Hc) Hj)
        as (_ & _ & _ & Hb & Hcl). auto.
    + rewrite Hh'. simpl. eauto.
  - intros i r p Hr Hat. simpl. rewrite Hr. simpl. rewrite Hat.
    unfold Read_request.
    destruct (ctx_done r) eqn:Hctx; [eauto|].
    destruct (respCh (lr r)) as [ch|] eqn:Hch; [|eauto].
    destruct (reader_has_chan s i r Hinv Hr) as [c Hc].
    pose proof (inv_reader _ Hinv i r c Hr Hc) as Hok.
    assert (ch = i) as ->.
    { destruct (ok_respCh _ _ _ _ Hok) as [H|H]; congruence. }
    assert (Hb : buf c = None).
    { destruct (buf c) as [b|] eqn:Hb; [|reflexivity].
      pose proof (ok_buf_idle _ _ _ _ Hok b Hb Hat). congruence. }
    assert (Hcl : closed c = false).
    { destruct (closed c) eqn:Hcl; [|reflexivity].
      destruct (ok_closed_idle _ _ _ _ Hok Hcl Hat); congruence. }
    unfold handleRequest. cbn [req_startIdx req_respCh].
    destruct (startIdx (lr r) <? _).
    + unfold send_to, chan_send. rewrite Hc. simpl. rewrite Hcl, Hb. simpl. eauto.
    + destruct (inputCh_open (dispatcher s)); [simpl; eauto|].
      unfold close_ch, chan_close. rewrite Hc. simpl. rewrite Hcl. simpl. eauto.
  - intros i r Hr Hat. simpl. rewrite Hr. simpl. rewrite Hat.
    destruct (reader_has_chan s i r Hinv Hr) as [c Hc].
    pose proof (inv_reader _ Hinv i r c Hr Hc) as Hok.
    destruct (respCh (lr r)) as [ch|] eqn:Hch.
    + assert (ch = i) as ->.
      { destruct (ok_respCh _ _ _ _ Hok) as [H|H]; congruence. }
      simpl. unfold handleDone.
      destruct (decide (i ∈ followers (dispatcher s))) as [Hin|Hout]; [|simpl; eauto].
      destruct (ok_follower _ _ _ _ Hok Hin) as (_ & _ & _ & _ & Hcl).
      unfold close_ch, chan_close. rewrite Hc. simpl. rewrite Hcl. simpl. eauto.
    + destruct (ok_nil _ _ _ _ Hok Hch) as [Hidle _]. congruence.
Qed.

(** *** Every reader is answered *)

(** What is on its way to the reader [r], the [i]-th, with the channel [c]:
    in the [select] of [Read] it has a slice in its channel, or the channel
    is closed, or the dispatcher holds it as a follower, so that the next
    input or the close of the input reaches it; and a reader whose channel
    is nil has returned [io.EOF]. *)
Definition answered (d : logDispatcher) (i : nat) (r : reader) (c : chan) : Prop :=
  (forall p, at_ r = InSelect p ->
             is_Some (buf c) \/ closed c = true \/ i ∈ followers d) /\
  (respCh (lr r) = None -> is_Some (read_until_EOF (returns r))).

Definition all_answered (s : system) : Prop :=
  forall i r c, readers s !! i = Some r -> chans s !! i = Some c ->
                answered (dispatcher s) i r c.

Lemma all_answered_initial : all_answered newStartedLogDispatcher.
Proof. intros i r c Hr. simpl in Hr. rewrite lookup_nil in Hr. discriminate Hr. Qed.

(** A reader that has left its call of [Read], the others as they were
    with what the dispatcher holds of them. *)
Lemma answered_update s i r d' r' h' :
  all_answered s -> readers s !! i = Some r ->
  (forall j, j <> i -> h' !! j = chans s !! j) ->
  (forall j, j <> i -> j ∈ followers (dispatcher s) -> j ∈ followers d') ->
  (forall c', h' !! i = Some c' -> answered d' i r' c') ->
  all_answered {| dispatcher := d'; chans := h';
                  readers := <[i := r']> (readers s);
                  input_closed := input_closed s |}.
Proof.
  intros Hall Hr Hh Hfol Hi j rj cj Hrj Hcj. simpl in Hrj, Hcj.
  destruct (decide (j = i)) as [->|Hne].
  - rewrite list_lookup_insert_eq in Hrj by (eapply lookup_lt_Some, Hr).
    inversion Hrj; subst rj. simpl.
    apply Hi. exact Hcj.
  - rewrite list_lookup_insert_ne in Hrj by congruence.
    rewrite (Hh j Hne) in Hcj.
    destruct (Hall j rj cj Hrj Hcj) as [Hw He]. split; [|exact He].
    intros p Hp. destruct (Hw p Hp) as [H|[H|H]]; simpl; auto.
Qed.

Lemma returned_answered d i r c x :
  (respCh (lr r) = None ->
   is_Some (read_until_EOF (returns r)) \/ x = REOF) ->
  answered d i (returned r x) c.
Proof.
  intros He. split; simpl; [discriminate|].
  intros Hn. rewrite read_until_EOF_snoc.
  destruct (read_until_EOF (returns r)) as [bs|]; [eauto|].
  destruct (He Hn) as [[bs Hbs]| ->]; [discriminate Hbs | eauto].
Qed.

(** Every event keeps the readers answered. *)
Lemma step_answered s e s' :
  inv s -> all_answered s -> step s e = Some s' -> all_answered s'.
Proof.
  intros Hinv Hall H. pose proof Hinv as [Hlen Hmax Hcl Hfol Hrd].
  destruct e as [b| | | |i|i p|i|i|i]; simpl in H.
  - (* EvInput *)
    destruct (input_closed s); [discriminate H|]. unfold handleInput in H.
    destruct (MaxInt <? _); [discriminate H|].
    destruct (send_all (elements (followers (dispatcher s))) b (chans s))
      as [h'|] eqn:Hs; simpl in H; [|discriminate H].
    inversion H; subst; clear H.
    apply send_all_inv in Hs; [|apply NoDup_elements]. destruct Hs as [_ Hj].
    intros j r c' Hr Hc'. simpl in Hr, Hc'.
    destruct (reader_has_chan s j r Hinv Hr) as [c Hc].
    destruct (Hall j r c Hr Hc) as [Hw He]. split; [|exact He].
    intros p Hp. destruct (Hj j) as [Hin Hout].
    destruct (decide (j ∈ followers (dispatcher s))) as [Hf|Hnf].
    + destruct (Hin (proj2 (elem_of_elements _ _) Hf)) as (c0 & _ & _ & _ & Hc1).
      rewrite Hc1 in Hc'. inversion Hc'; subst c'. left. simpl. eauto.
    + rewrite (Hout (fun Hi => Hnf (proj1 (elem_of_elements _ _) Hi))) in Hc'.
      rewrite Hc in Hc'. inversion Hc'; subst c'.
      destruct (Hw p Hp) as [Hb|[Hb|Hb]]; [auto | auto | contradiction].
  - (* EvCloseInput *)
    destruct (input_closed s); [discriminate H|]. inversion H; subst; clear H.
    exact Hall.
  - (* EvInputClosed *)
    destruct (input_closed s && inputCh_open (dispatcher s)); [|discriminate H].
    unfold handleInputClosed in H.
    destruct (close_all (elements (followers (dispatcher s))) (chans s))
      as [h'|] eqn:Hs; simpl in H; [|discriminate H].
    inversion H; subst; clear H.
    apply close_all_inv in Hs; [|apply NoDup_elements]. destruct Hs as [_ Hj].
    intros j r c' Hr Hc'. simpl in Hr, Hc'.
    destruct (reader_has_chan s j r Hinv Hr) as [c Hc].
    destruct (Hall j r c Hr Hc) as [Hw He]. split; [|exact He].
    intros p Hp. destruct (Hj j) as [Hin Hout].
    destruct (decide (j ∈ followers (dispatcher s))) as [Hf|Hnf].
    + destruct (Hin (proj2 (elem_of_elements _ _) Hf)) as (c0 & _ & _ & Hc1).
      rewrite Hc1 in Hc'. inversion Hc'; subst c'. right. left. reflexivity.
    + rewrite (Hout (fun Hi => Hnf (proj1 (elem_of_elements _ _) Hi))) in Hc'.
      rewrite Hc in Hc'. inversion Hc'; subst c'.
      destruct (Hw p Hp) as [Hb|[Hb|Hb]]; [auto | auto | contradiction].
  - (* EvNewReader *)
    inversion H; subst; clear H.
    intros j r c Hr Hc. simpl in Hr, Hc.
    destruct (decide (j < length (readers s))%nat) as [Hlt|Hge].
    + rewrite lookup_app_l in Hr by exact Hlt.
      rewrite lookup_app_l in Hc by (rewrite Hlen; exact Hlt).
      apply Hall; assumption.
    + rewrite lookup_app_r in Hr by lia.
      destruct (j - length (readers s))%nat as [|k]; simpl in Hr;
        [|rewrite lookup_nil in Hr; discriminate Hr].
      inversion Hr; subst r. split; simpl; discriminate.
  - (* EvCancel *)
    destruct (readers s !! i) as [r|] eqn:Hr; simpl in H; [|discriminate H].
    inversion H; subst; clear H. unfold set_reader.
    apply answered_update with (r := r); auto.
    intros c Hc. destruct (Hall i r _ Hr Hc) as [Hw He]. split; auto.
  - (* EvRead *)
    destruct (readers s !! i) as [r|] eqn:Hr; simpl in H; [|discriminate H].
    destruct (at_ r) eqn:Hat; try discriminate H.
    destruct (reader_has_chan s i r Hinv Hr) as [c Hc].
    destruct (Hall i r c Hr Hc) as [Hw He].
    unfold Read_request in H.
    destruct (ctx_done r).
    { inversion H; subst; clear H. unfold set_reader.
      apply answered_update with (r := r); auto.
      intros c' _. apply returned_answered. auto. }
    destruct (respCh (lr r)) as [ch|] eqn:Hresp.
    2:{ inversion H; subst; clear H. unfold set_reader.
        apply answered_update with (r := r); auto.
        intros c' _. apply returned_answered. auto. }
    assert (ch = i) as ->.
    { destruct (ok_respCh _ _ _ _ (Hrd i r c Hr Hc)); congruence. }
    destruct (handleRequest _ (dispatcher s) (chans s)) as [[d' h']|] eqn:Hreq;
      simpl in H; [|discriminate H].
    inversion H; subst; clear H.
    unfold handleRequest in Hreq. simpl in Hreq.
    unfold set_reader, with_dispatcher; simpl.
    destruct (startIdx (lr r) <? Z.of_nat (length (fullLog (dispatcher s)))).
    + destruct (send_to i _ (chans s)) as [h1|] eqn:Hs; simpl in Hreq;
        [|discriminate Hreq].
      inversion Hreq; subst; clear Hreq.
      apply send_to_inv in Hs. destruct Hs as (c0 & Hc0 & _ & _ & ->).
      apply answered_update with (r := r); auto.
      * intros j Hne. apply list_lookup_insert_ne. congruence.
      * intros c' Hc'.
        rewrite list_lookup_insert_eq in Hc' by (eapply lookup_lt_Some, Hc).
        inversion Hc'; subst c'. split; simpl; [|congruence].
        intros _ _. left. eauto.
    + destruct (inputCh_open (dispatcher s)).
      * inversion Hreq; subst; clear Hreq.
        apply answered_update with (r := r); auto.
        -- intros j _ Hj. simpl. apply elem_of_union. right. exact Hj.
        -- intros c' _. split; simpl; [|congruence].
           intros _ _. right. right. apply elem_of_union. left.
           apply elem_of_singleton. reflexivity.
      * destruct (close_ch i (chans s)) as [h1|] eqn:Hs; simpl in Hreq;
          [|discriminate Hreq].
        inversion Hreq; subst; clear Hreq.
        apply close_ch_inv in Hs. destruct Hs as (c0 & Hc0 & _ & ->).
        apply answered_update with (r := r); auto.
        -- intros j Hne. apply list_lookup_insert_ne. congruence.
        -- intros c' Hc'.
           rewrite list_lookup_insert_eq in Hc' by (eapply lookup_lt_Some, Hc).
           inversion Hc'; subst c'. split; simpl; [|congruence].
           intros _ _. right. left. reflexivity.
  - (* EvRecv *)
    destruct (readers s !! i) as [r|] eqn:Hr; simpl in H; [|discriminate H].
    destruct (at_ r) as [|p|] eqn:Hat; try discriminate H.
    unfold Read_receive in H.
    destruct (respCh (lr r)) as [ch|] eqn:Hresp; simpl in H; [|discriminate H].
    destruct (chans s !! ch) as [c|] eqn:Hc; simpl in H; [|discriminate H].
    assert (ch = i) as ->.
    { destruct (reader_has_chan s i r Hinv Hr) as [ci Hci].
      destruct (ok_respCh _ _ _ _ (Hrd i r ci Hr Hci)); congruence. }
    unfold chan_recv in H. destruct (buf c) as [b|]; simpl in H.
    + inversion H; subst; clear H. unfold set_reader; simpl.
      apply answered_update with (r := r); auto.
      * intros j Hne. apply list_lookup_insert_ne. congruence.
      * intros c' _. apply returned_answered. intros Hn. simpl in Hn. congruence.
    + destruct (closed c); simpl in H; [|discriminate H].
      inversion H; subst; clear H. unfold set_reader; simpl.
      apply answered_update with (r := r); auto.
      * intros j Hne. apply list_lookup_insert_ne. congruence.
      * intros c' _. apply returned_answered. auto.
  - (* EvCtxDone *)
    destruct (readers s !! i) as [r|] eqn:Hr; simpl in H; [|discriminate H].
    destruct (at_ r) as [|p|] eqn:Hat; try discriminate H.
    destruct (ctx_done r); [|discriminate H].
    inversion H; subst; clear H. unfold set_reader.
    apply answered_update with (r := r); auto.
    intros c Hc. destruct (Hall i r _ Hr Hc) as [Hw He].
    split; simpl; [discriminate | exact He].
  - (* EvDone *)
    destruct (readers s !! i) as [r|] eqn:Hr; simpl in H; [|discriminate H].
    destruct (at_ r) as [|p|] eqn:Hat; try discriminate H.
    destruct (respCh (lr r)) as [ch|] eqn:Hresp; simpl in H; [|discriminate H].
    destruct (handleDone ch (dispatcher s) (chans s)) as [[d' h']|] eqn:Hd;
      simpl in H; [|discriminate H].
    inversion H; subst; clear H.
    destruct (reader_has_chan s i r Hinv Hr) as [c Hc].
    assert (ch = i) as ->.
    { destruct (ok_respCh _ _ _ _ (Hrd i r c Hr Hc)); congruence. }
    unfold handleDone in Hd. unfold set_reader, with_dispatcher; simpl.
    destruct (decide (i ∈ followers (dispatcher s))) as [Hf|Hnf].
    + destruct (close_ch i (chans s)) as [h1|] eqn:Hs; simpl in Hd;
        [|discriminate Hd].
      inversion Hd; subst; clear Hd.
      apply close_ch_inv in Hs. destruct Hs as (c0 & Hc0 & _ & ->).
      apply answered_update with (r := r); auto.
      * intros j Hne. apply list_lookup_insert_ne. congruence.
      * intros j Hne Hj. simpl. apply elem_of_difference. split; [exact Hj|].
        intros Hs. apply elem_of_singleton in Hs. contradiction.
      * intros c' _. apply returned_answered. intros Hn. simpl in Hn. congruence.
    + inversion Hd; subst; clear Hd.
      apply answered_update with (r := r); auto.
      intros c' _. apply returned_answered. intros Hn. simpl in Hn. congruence.
Qed.

Lemma run_answered evs : forall s s',
  inv s -> all_answered s -> run evs s = Some s' -> all_answered s'.
Proof.
  induction evs as [|e evs IH]; intros s s' Hinv Hall H; simpl in H.
  - inversion H; subst. exact Hall.
  - destruct (step s e) as [s1|] eqn:Hs; simpl in H; [|discriminate H].
    eapply IH; [| |exact H]; [eapply step_inv | eapply step_answered]; eauto.
Qed.

(** The dispatcher's taking of the close keeps the readers answered, and
    touches no reader. *)
Lemma take_close_answered s s0 :
  inv s -> all_answered s -> take_close s = Some s0 ->
  all_answered s0 /\ readers s0 = readers s.
Proof.
  intros Hinv Hall H. unfold take_close in H.
  destruct (inputCh_open (dispatcher s)) eqn:Hin.
  - split; [eapply step_answered; eauto|].
    simpl in H. rewrite Hin in H.
    destruct (input_closed s && true); [|discriminate H].
    destruct (handleInputClosed (dispatcher s) (chans s)); simpl in H;
      [|discriminate H].
    inversion H; reflexivity.
  - inversion H; subst. auto.
Qed.

(** With the input closed and taken, the call of [Read] a reader is in
    returns: its channel holds a slice or is closed. *)
Lemma finish_read_succeeds s i r :
  inv s -> all_answered s -> inputCh_open (dispatcher s) = false ->
  readers s !! i = Some r -> ctx_done r = false ->
  exists s1 r1,
    finish_read i s = Some s1 /\ inv s1 /\ all_answered s1 /\
    dispatcher s1 = dispatcher s /\
    readers s1 !! i = Some r1 /\ at_ r1 = Idle /\ ctx_done r1 = false.
Proof.
  intros Hinv Hall Hin Hr Hctx. unfold finish_read. rewrite Hr.
  cbn [mbind option_bind].
  destruct (reader_has_chan s i r Hinv Hr) as [c Hc].
  pose proof (inv_reader _ Hinv i r c Hr Hc) as Hok.
  destruct (Hall i r c Hr Hc) as [Hw _].
  destruct (at_ r) as [|p'|] eqn:Hat.
  - exists s, r. auto 10.
  - assert (Hsome : is_Some (step s (EvRecv i))).
    { simpl. rewrite Hr. cbn [mbind option_bind]. rewrite Hat.
      unfold Read_receive.
      destruct (respCh (lr r)) as [ch|] eqn:Hresp.
      2:{ destruct (ok_nil _ _ _ _ Hok Hresp) as [Hidle _]. congruence. }
      assert (ch = i) as ->.
      { destruct (ok_respCh _ _ _ _ Hok) as [H|H]; congruence. }
      cbn [mbind option_bind]. rewrite Hc. cbn [mbind option_bind].
      unfold chan_recv.
      destruct (Hw p' eq_refl) as [[b Hb]|[Hcl|Hf]].
      - rewrite Hb. simpl. eauto.
      - rewrite (ok_closed_buf _ _ _ _ Hok Hcl), Hcl. simpl. eauto.
      - destruct (inv_fol _ Hinv i Hf) as [_ Ho]. congruence. }
    destruct Hsome as [s1 Hs1].
    pose proof (step_inv _ _ _ Hinv Hs1) as Hinv1.
    pose proof (step_answered _ _ _ Hinv Hall Hs1) as Hall1.
    assert (Hi : (i < length (readers s))%nat) by (eapply lookup_lt_Some, Hr).
    pose proof Hs1 as Hstep.
    simpl in Hs1. rewrite Hr in Hs1. cbn [mbind option_bind] in Hs1.
    rewrite Hat in Hs1. unfold Read_receive in Hs1.
    destruct (respCh (lr r)) as [ch|]; simpl in Hs1; [|discriminate Hs1].
    destruct (chans s !! ch) as [c1|]; simpl in Hs1; [|discriminate Hs1].
    destruct (chan_recv c1) as [[c' [b|]]|]; simpl in Hs1; [| |discriminate Hs1];
      inversion Hs1; subst s1;
      (eexists _, _; split; [exact Hstep|]; split; [exact Hinv1|];
       split; [exact Hall1|]; split; [reflexivity|];
       split; [simpl; apply list_lookup_insert_eq; exact Hi|]; simpl; auto).
  - rewrite (ok_done _ _ _ _ Hok Hat) in Hctx. discriminate Hctx.
Qed.

(** Wherever a reader stands when the producer has closed the input, it
    is handed the rest of the log and then [io.EOF], if its context is not
    cancelled and it reads on. *)
Lemma read_to_the_end_reaches_EOF s i r p :
  inv s -> all_answered s -> input_closed s = true ->
  readers s !! i = Some r -> ctx_done r = false -> (0 < p)%nat ->
  exists s' r',
    read_to_the_end p i s = Some s' /\ readers s' !! i = Some r' /\
    read_until_EOF (returns r') = Some (fullLog (dispatcher s)).
Proof.
  intros Hinv Hall Hic Hr Hctx Hp.
  destruct (take_close_succeeds s Hinv Hic) as (s0 & Hs0 & Hinv0 & Hin0 & Hlog).
  destruct (take_close_answered s s0 Hinv Hall Hs0) as [Hall0 Hrs0].
  rewrite <- Hrs0 in Hr.
  destruct (finish_read_succeeds s0 i r Hinv0 Hall0 Hin0 Hr Hctx)
    as (s1 & r1 & Hs1 & Hinv1 & Hall1 & Hd1 & Hr1 & Hat1 & Hctx1).
  unfold read_to_the_end. rewrite Hs0. cbn [mbind option_bind].
  rewrite Hs1. cbn [mbind option_bind]. rewrite Hr1. cbn [mbind option_bind].
  rewrite <- Hlog, <- Hd1.
  destruct (reader_has_chan s1 i r1 Hinv1 Hr1) as [c1 Hc1].
  pose proof (inv_reader _ Hinv1 i r1 c1 Hr1 Hc1) as Hok.
  destruct (respCh (lr r1)) as [ch|] eqn:Hresp.
  - assert (ch = i) as ->.
    { destruct (ok_respCh _ _ _ _ Hok) as [H|H]; congruence. }
    apply read_all_reaches_EOF with (r := r1); auto.
    + rewrite Hd1. exact Hin0.
    + lia.
  - exists s1, r1. split; [reflexivity|]. split; [exact Hr1|].
    destruct (Hall1 i r1 c1 Hr1 Hc1) as [_ He].
    destruct (He Hresp) as [bs Hbs]. rewrite Hbs.
    destruct (ok_eof _ _ _ _ Hok bs Hbs) as [_ ->].
    destruct (ok_nil _ _ _ _ Hok Hresp) as (_ & _ & ->). reflexivity.
Qed.

(** C1. In every run of a dispatcher with its producer and its readers,
    the bytes a reader was handed by its calls of [Read] up to the one that
    returned [io.EOF] are the whole log. A reader that subscribes when the
    producer has closed the input, reading with any buffer that is not
    empty, is handed the whole log and then [io.EOF]. And so is every
    reader made before or during the production, wherever the run has
    brought it when the producer has closed the input (between two calls,
    or in a call with a slice on its way or waiting as a follower), if its
    context is not cancelled and it reads on: its calls return, and the last
    returns [io.EOF] with the whole log handed over. *)
Theorem reader_reads_the_full_log :
  (forall evs s i r bs,
      run evs newStartedLogDispatcher = Some s ->
      readers s !! i = Some r ->
      read_until_EOF (returns r) = Some bs ->
      bs = fullLog (dispatcher s)) /\
  (forall evs s p,
      run evs newStartedLogDispatcher = Some s ->
      input_closed s = true -> (0 < p)%nat ->
      exists s' r,
        late_reader p s = Some s' /\
        readers s' !! length (readers s) = Some r /\
        read_until_EOF (returns r) = Some (fullLog (dispatcher s))) /\
  (forall evs s i r p,
      run evs newStartedLogDispatcher = Some s ->
      input_closed s = true ->
      readers s !! i = Some r -> ctx_done r = false -> (0 < p)%nat ->
      exists s' r',
        read_to_the_end p i s = Some s' /\
        readers s' !! i = Some r' /\
        read_until_EOF (returns r') = Some (fullLog (dispatcher s))).
Proof.
  split; [|split].
  - intros evs s i r bs Hrun Hr He.
    pose proof (run_inv evs _ _ inv_initial Hrun) as Hinv.
    destruct (reader_has_chan s i r Hinv Hr) as [c Hc].
    pose proof (inv_reader _ Hinv i r c Hr Hc) as Hok.
    destruct (ok_eof _ _ _ _ Hok bs He) as [Hn ->].
    destruct (ok_nil _ _ _ _ Hok Hn) as (_ & _ & Hd). exact Hd.
  - intros evs s p Hrun Hic Hp.
    pose proof (run_inv evs _ _ inv_initial Hrun) as Hinv.
    destruct (take_close_succeeds s Hinv Hic) as (s0 & Hs0 & Hinv0 & Hin0 & Hlog).
    assert (Hlen0 : length (readers s0) = length (readers s)).
    { unfold take_close in Hs0.
      destruct (inputCh_open (dispatcher s)); [|inversion Hs0; reflexivity].
      simpl in Hs0. destruct (input_closed s && inputCh_open (dispatcher s));
        [|discriminate Hs0].
      destruct (handleInputClosed (dispatcher s) (chans s)); simpl in Hs0;
        [|discriminate Hs0].
      inversion Hs0; reflexivity. }
    destruct (step s0 EvNewReader) as [s1|] eqn:Hs1; [|discriminate Hs1].
    pose proof (step_inv _ _ _ Hinv0 Hs1) as Hinv1.
    pose proof Hs1 as Hs1'. simpl in Hs1'. inversion Hs1' as [Hs1'']. clear Hs1'.
    set (i := length (readers s0)).
    set (r1 := {| lr := {| startIdx := 0; respCh := Some (length (chans s0)) |};
                  ctx_done := false; at_ := Idle; returns := [] |}).
    assert (Hr1 : readers s1 !! i = Some r1).
    { rewrite <- Hs1''. simpl. unfold i.
      rewrite lookup_app_r by lia. rewrite Nat.sub_diag. reflexivity. }
    destruct (read_all_reaches_EOF (S (length (fullLog (dispatcher s0)))) s1 i r1 p)
      as (s' & r' & Hall & Hr' & He); auto.
    + simpl. rewrite (inv_len _ Hinv0). reflexivity.
    + rewrite <- Hs1''. exact Hin0.
    + rewrite <- Hs1''. simpl. lia.
    + exists s', r'. split.
      * unfold late_reader. rewrite Hs0. cbn [mbind option_bind].
        rewrite Hs1. cbn [mbind option_bind]. exact Hall.
      * rewrite <- Hlen0. split; [exact Hr'|].
        rewrite He, <- Hs1''. simpl. rewrite Hlog. reflexivity.
  - intros evs s i r p Hrun Hic Hr Hctx Hp.
    apply read_to_the_end_reaches_EOF with (r := r); auto.
    + exact (run_inv evs _ _ inv_initial Hrun).
    + exact (run_answered evs _ _ inv_initial all_answered_initial Hrun).
Qed.
End LogFacts.

(** ** More about the log dispatcher *)

Lemma step_fullLog s e s' :
  step s e = Some s' ->
  fullLog (dispatcher s') = fullLog (dispatcher s) ++ inputs [e].
Proof.
  intros H. unfold inputs. destruct e as [b| | | |i|i p|i|i|i]; simpl in *.
  - destruct (input_closed s); [discriminate H|]. unfold handleInput in H.
    destruct (MaxInt <? _); [discriminate H|].
    destruct (send_all _ b (chans s)); simpl in H; [|discriminate H].
    inversion H; subst. simpl. rewrite app_nil_r. reflexivity.
  - destruct (input_closed s); inversion H; subst. simpl.
    rewrite app_nil_r. reflexivity.
  - destruct (input_closed s && inputCh_open (dispatcher s)); [|discriminate H].
    unfold handleInputClosed in H.
    destruct (close_all _ (chans s)); simpl in H; [|discriminate H].
    inversion H; subst. simpl. rewrite app_nil_r. reflexivity.
  - inversion H; subst. simpl. rewrite app_nil_r. reflexivity.
  - destruct (readers s !! i); simpl in H; inversion H; subst. simpl.
    rewrite app_nil_r. reflexivity.
  - rewrite app_nil_r.
    destruct (readers s !! i) as [r|]; simpl in H; [|discriminate H].
    destruct (at_ r); try discriminate H. unfold Read_request in H.
    destruct (ctx_done r); [inversion H; reflexivity|].
    destruct (respCh (lr r)) as [ch|]; [|inversion H; reflexivity].
    unfold handleRequest in H. cbn [req_startIdx req_respCh] in H.
    destruct (startIdx (lr r) <? _).
    + destruct (send_to ch _ (chans s)); simpl in H; inversion H; reflexivity.
    + destruct (inputCh_open (dispatcher s)).
      * simpl in H. inversion H; reflexivity.
      * destruct (close_ch ch (chans s)); simpl in H; inversion H; reflexivity.
  - rewrite app_nil_r.
    destruct (readers s !! i) as [r|]; simpl in H; [|discriminate H].
    destruct (at_ r); try discriminate H. unfold Read_receive in H.
    destruct (respCh (lr r)) as [ch|]; simpl in H; [|discriminate H].
    destruct (chans s !! ch) as [c|]; simpl in H; [|discriminate H].
    destruct (chan_recv c) as [[c' [b|]]|]; simpl in H; inversion H; reflexivity.
  - rewrite app_nil_r.
    destruct (readers s !! i) as [r|]; simpl in H; [|discriminate H].
    destruct (at_ r); try discriminate H.
    destruct (ctx_done r); inversion H; reflexivity.
  - rewrite app_nil_r.
    destruct (readers s !! i) as [r|]; simpl in H; [|discriminate H].
    destruct (at_ r); try discriminate H.
    destruct (respCh (lr r)) as [ch|]; simpl in H; [|discriminate H].
    unfold handleDone in H.
    destruct (decide (ch ∈ followers (dispatcher s))).
    + destruct (close_ch ch (chans s)); simpl in H; inversion H; reflexivity.
    + simpl in H. inversion H; reflexivity.
Qed.

Lemma run_fullLog evs : forall s s',
  run evs s = Some s' ->
  fullLog (dispatcher s') = fullLog (dispatcher s) ++ inputs evs.
Proof.
  induction evs as [|e evs IH]; intros s s' H; simpl in H.
  - inversion H; subst. unfold inputs. simpl. rewrite app_nil_r. reflexivity.
  - destruct (step s e) as [s1|] eqn:Hs; simpl in H; [|discriminate H].
    rewrite (IH _ _ H), (step_fullLog _ _ _ Hs), <- app_assoc.
    unfold inputs. simpl. rewrite app_nil_r. reflexivity.
Qed.

(** X1. The log of a dispatcher is what its producer wrote: after any run,
    [fullLog] is the concatenation of the inputs, in their order. No byte
    is lost, repeated or moved, whatever the readers do in between. *)
Theorem fullLog_is_what_was_written evs s :
  run evs newStartedLogDispatcher = Some s ->
  fullLog (dispatcher s) = inputs evs.
Proof.
  intros H. rewrite (run_fullLog _ _ _ H). reflexivity.
Qed.

(** X2. At every moment, what a reader has been handed so far is a prefix
    of the log, and its [startIdx] is the number of bytes it was handed:
    it never sees a byte twice, out of order, or one that was not
    written. *)
Theorem reader_has_read_a_prefix evs s i r :
  run evs newStartedLogDispatcher = Some s ->
  readers s !! i = Some r ->
  data (returns r) `prefix_of` fullLog (dispatcher s) /\
  startIdx (lr r) = Z.of_nat (length (data (returns r))).
Proof.
  intros Hrun Hr.
  assert (Hinv : inv s) by (eapply run_inv; [apply inv_initial|exact Hrun]).
  destruct (reader_has_chan s i r Hinv Hr) as [c Hc].
  pose proof (inv_reader _ Hinv i r c Hr Hc) as Hok.
  split; [exact (ok_prefix _ _ _ _ Hok) | exact (ok_startIdx _ _ _ _ Hok)].
Qed.

(** X4. [io.EOF] is final. Once a call of [Read] has returned it, the
    reader has no channel left, the input is closed, all the bytes it was
    ever handed came before that call and are the whole log, and a further
    [Read] returns [io.EOF] again (the error of the context, if that is
    done) without a request to the dispatcher. *)
Theorem EOF_is_final evs s i r bs p :
  run evs newStartedLogDispatcher = Some s ->
  readers s !! i = Some r ->
  read_until_EOF (returns r) = Some bs ->
  respCh (lr r) = None /\ inputCh_open (dispatcher s) = false /\
  bs = data (returns r) /\ data (returns r) = fullLog (dispatcher s) /\
  step s (EvRead i p)
  = Some (set_reader s i (returned r (if ctx_done r then RErr else REOF))).
Proof.
  intros Hrun Hr He.
  assert (Hinv : inv s) by (eapply run_inv; [apply inv_initial|exact Hrun]).
  destruct (reader_has_chan s i r Hinv Hr) as [c Hc].
  pose proof (inv_reader _ Hinv i r c Hr Hc) as Hok.
  destruct (ok_eof _ _ _ _ Hok bs He) as [Hnil Hbs].
  destruct (ok_nil _ _ _ _ Hok Hnil) as (Hidle & Hopen & Hdata).
  repeat split; try assumption.
  simpl. rewrite Hr. simpl. rewrite Hidle. unfold Read_request.
  rewrite Hnil. destruct (ctx_done r); reflexivity.
Qed.

(** X5. The followers of the dispatcher are readers that wait inside a call
    of [Read]: each has read the whole log so far and its channel is open
    and empty. There are followers only while the input is open, and a
    reader between two calls is never one. *)
Theorem followers_are_waiting_readers evs s i :
  run evs newStartedLogDispatcher = Some s ->
  i ∈ followers (dispatcher s) ->
  inputCh_open (dispatcher s) = true /\
  exists r c,
    readers s !! i = Some r /\ chans s !! i = Some c /\
    at_ r <> Idle /\ respCh (lr r) = Some i /\
    data (returns r) = fullLog (dispatcher s) /\
    buf c = None /\ closed c = false.
Proof.
  intros Hrun Hi.
  assert (Hinv : inv s) by (eapply run_inv; [apply inv_initial|exact Hrun]).
  destruct (inv_fol _ Hinv i Hi) as [Hlt Hopen].
  destruct (lookup_lt_is_Some_2 (readers s) i Hlt) as [r Hr].
  destruct (reader_has_chan s i r Hinv Hr) as [c Hc].
  pose proof (inv_reader _ Hinv i r c Hr Hc) as Hok.
  split; [exact Hopen|]. exists r, c.
  destruct (ok_follower _ _ _ _ Hok Hi) as (H1 & H2 & H3 & H4 & H5).
  repeat split; assumption.
Qed.

(** X6. An input reaches every follower: after [handleInput] each of them
    has the new bytes, and only these, in its channel, the channels of the
    other readers are as they were, and no follower is left. *)
Theorem input_reaches_every_follower s b s' :
  step s (EvInput b) = Some s' ->
  followers (dispatcher s') = ∅ /\
  forall i,
    (i ∈ followers (dispatcher s) ->
     chans s' !! i = Some {| buf := Some b; closed := false |}) /\
    (i ∉ followers (dispatcher s) -> chans s' !! i = chans s !! i).
Proof.
  intros H. simpl in H.
  destruct (input_closed s); [discriminate H|]. unfold handleInput in H.
  destruct (MaxInt <? _); [discriminate H|].
  destruct (send_all (elements (followers (dispatcher s))) b (chans s))
    as [h'|] eqn:Hs; simpl in H; [|discriminate H].
  inversion H; subst; clear H. simpl. split; [reflexivity|].
  apply send_all_inv in Hs; [|apply NoDup_elements].
  destruct Hs as [_ Hj]. intros i. destruct (Hj i) as [Hin Hout]. split.
  - intros Hi. destruct (Hin (proj2 (elem_of_elements _ _) Hi)) as (c & _ & _ & _ & Hc).
    exact Hc.
  - intros Hi. apply Hout. intros Hi'. apply Hi, elem_of_elements, Hi'.
Qed.

(** X7. The close of the input releases every reader that waits: when the
    dispatcher takes the close, the channel of each follower is closed,
    empty, and a follower that waits in the [select] of its [Read] then
    gets [io.EOF], having read the whole log. *)
Theorem close_releases_the_followers evs s s1 i r p :
  run evs newStartedLogDispatcher = Some s ->
  step s EvInputClosed = Some s1 ->
  i ∈ followers (dispatcher s) ->
  readers s !! i = Some r -> at_ r = InSelect p ->
  followers (dispatcher s1) = ∅ /\
  chans s1 !! i = Some {| buf := None; closed := true |} /\
  exists s2 r2,
    step s1 (EvRecv i) = Some s2 /\ readers s2 !! i = Some r2 /\
    returns r2 = returns r ++ [REOF] /\
    read_until_EOF (returns r2) = Some (fullLog (dispatcher s)).
Proof.
  intros Hrun Hstep Hi Hr Hat.
  assert (Hinv : inv s) by (eapply run_inv; [apply inv_initial|exact Hrun]).
  destruct (reader_has_chan s i r Hinv Hr) as [c Hc].
  pose proof (inv_reader _ Hinv i r c Hr Hc) as Hok.
  destruct (ok_follower _ _ _ _ Hok Hi) as (_ & Hresp & Hdata & Hbuf & Hcl).
  simpl in Hstep.
  destruct (input_closed s && inputCh_open (dispatcher s)); [|discriminate Hstep].
  unfold handleInputClosed in Hstep.
  destruct (close_all (elements (followers (dispatcher s))) (chans s))
    as [h'|] eqn:Hca; simpl in Hstep; [|discriminate Hstep].
  inversion Hstep; subst s1; clear Hstep. simpl.
  apply close_all_inv in Hca; [|apply NoDup_elements].
  destruct Hca as [_ Hj]. destruct (Hj i) as [Hin _].
  destruct (Hin (proj2 (elem_of_elements _ _) Hi)) as (c0 & Hc0 & _ & Hh').
  rewrite Hc in Hc0. inversion Hc0; subst c0. rewrite Hbuf in Hh'.
  split; [reflexivity|]. split; [exact Hh'|].
  unfold with_dispatcher. simpl. rewrite Hr. simpl. rewrite Hat.
  unfold Read_receive. rewrite Hresp. simpl. rewrite Hh'. simpl.
  eexists _, _. split; [reflexivity|]. unfold set_reader. simpl.
  rewrite list_lookup_insert_eq by (eapply lookup_lt_Some, Hr).
  split; [reflexivity|]. unfold returned. simpl. split; [reflexivity|].
  rewrite read_until_EOF_snoc.
  destruct (read_until_EOF (returns r)) as [bs|] eqn:He.
  - destruct (ok_eof _ _ _ _ Hok bs He) as [Hnil _]. congruence.
  - rewrite Hdata. reflexivity.
Qed.

(** ** More about the controller *)

Section ControllerMore.

Variable F : faults.

Lemma String_eqb_neq (a b : string) : a <> b -> String.eqb a b = false.
Proof. intros H. apply String.eqb_neq, H. Qed.

(** X8. A job that was started can be read back: right after a [Start]
    that returned [id], the owner's [Status] for [id] is the snapshot of a
    running job with the command, the arguments and the start time of the
    call, exit code [-2] and no stop time; any other caller is refused with
    [ErrUnauthorized]; the other entries of the registry are as before. *)
Theorem Start_then_Status now c owner_ command args w c' w' id :
  Controller_Start F now c owner_ command args w = (c', w', Ok id) ->
  Controller_Status c' owner_ id
  = Ok {| ID := id; Command := command; Args := args; Started := now;
          Running := true; ExitCode := NotTerminated; Stopped := 0 |} /\
  (forall caller, caller <> owner_ ->
     exists e, Controller_Status c' caller id = Err e /\
               Is e ErrUnauthorized = true) /\
  (forall id', id' <> id -> jobs c' !! id' = jobs c !! id') /\
  wg c' = wg c + 1.
Proof.
  intros H. unfold Controller_Start in H.
  destruct (String.length command =? 0)%nat; [discriminate H|].
  destruct (Controller_isShutDown c); [discriminate H|].
  unfold newJob in H.
  destruct (newStartedCmd F _ command args _ _ w) as [w1 [cm|e]];
    inversion H; subst; clear H.
  unfold Controller_Status, Controller_get. simpl.
  rewrite lookup_insert_eq. simpl. rewrite String.eqb_refl. simpl.
  split; [reflexivity|]. split; [|split; [|reflexivity]].
  - intros caller Hne. rewrite String_eqb_neq by congruence. simpl.
    eexists. split; reflexivity.
  - intros id' Hne. rewrite lookup_insert_ne by congruence. reflexivity.
Qed.

(** *** Identifiers are issued once *)

(** The ids in the registry are the decimal strings of values the counter
    has passed, and the counter has moved at most [n] times. *)
Definition issued (n : Z) (c : Controller) : Prop :=
  0 <= maxID c <= n /\
  forall id, is_Some (jobs c !! id) ->
             exists k, 1 <= k <= maxID c /\ id = FormatUint k.

Lemma Controller_reap_keys waitErr now c id w id' :
  is_Some (jobs (fst (Controller_reap F waitErr now c id w)) !! id') ->
  is_Some (jobs c !! id').
Proof.
  unfold Controller_reap.
  destruct (jobs c !! id) as [j|] eqn:Hj; [|auto].
  destruct (Running (status j)); [|auto].
  unfold job_wait. simpl.
  destruct (decide (id' = id)) as [->|Hne].
  - intros _. rewrite Hj. eauto.
  - rewrite lookup_insert_ne by congruence. auto.
Qed.

Lemma reap_jobs_keys ex ids : forall c w id',
  is_Some (jobs (fst (reap_jobs F ex ids c w)) !! id') ->
  is_Some (jobs c !! id').
Proof.
  induction ids as [|id ids IH]; intros c w id' H; simpl in H; [exact H|].
  pose proof (Controller_reap_keys (fst (ex id)) (snd (ex id)) c id w id') as Hk.
  destruct (Controller_reap F (fst (ex id)) (snd (ex id)) c id w) as [c1 w1].
  apply Hk. simpl. eapply IH, H.
Qed.

Lemma Controller_StopAll_keys ex c w id' :
  is_Some (jobs (fst (fst (Controller_StopAll F ex c w))) !! id') ->
  is_Some (jobs c !! id').
Proof.
  unfold Controller_StopAll.
  destruct (shutDown c); [auto|].
  destruct (stop_jobs F _ w) as [w1 errs].
  pose proof (reap_jobs_keys ex (map fst (map_to_list (jobs (set_shutDown c true))))
                (set_shutDown c true) w1 id') as Hk.
  destruct (reap_jobs F ex _ (set_shutDown c true) w1) as [c2 w2].
  destruct (deleteCgroup F (telejobCgroup c2) w2) as [w3 err].
  exact Hk.
Qed.

Lemma apply_op_issued n o c w :
  n + 1 < 2 ^ 64 -> issued n c -> issued (n + 1) (fst (apply_op F o (c, w))).
Proof.
  intros Hn [Hm Hk].
  destruct o as [now ow command args|ow id0|ow id0|waitErr now id0|ex]; simpl.
  - pose proof (Controller_Start_effect F now c ow command args w) as He.
    simpl in He.
    set (c' := fst (fst (Controller_Start F now c ow command args w))) in *.
    destruct He as [[Hm' Hjs]|[Hm' Hjs]].
    + split; [lia|]. intros id. rewrite Hjs, Hm'. apply Hk.
    + rewrite wrap64_small in Hm' by lia. split; [lia|].
      intros id His. destruct Hjs as [Hjs|[j Hjs]]; rewrite Hjs in His.
      * destruct (Hk id His) as (k & Hk1 & Hk2). exists k. split; [lia|exact Hk2].
      * destruct (decide (FormatUint (maxID c') = id)) as [<-|Hne].
        -- exists (maxID c'). split; [lia|reflexivity].
        -- rewrite lookup_insert_ne in His by exact Hne.
           destruct (Hk id His) as (k & Hk1 & Hk2). exists k. split; [lia|exact Hk2].
  - split; [lia|exact Hk].
  - split; [lia|exact Hk].
  - unfold issued. rewrite Controller_reap_maxID. split; [lia|].
    intros id His. apply Hk. eapply Controller_reap_keys, His.
  - unfold issued. rewrite Controller_StopAll_maxID. split; [lia|].
    intros id His. apply Hk. eapply Controller_StopAll_keys, His.
Qed.

Lemma run_ops_issued ops : forall n c w,
  n + Z.of_nat (length ops) < 2 ^ 64 ->
  issued n c -> issued (n + Z.of_nat (length ops)) (fst (run_ops F ops (c, w))).
Proof.
  induction ops as [|o ops IH]; intros n c w Hn Hi.
  - simpl. rewrite Z.add_0_r. exact Hi.
  - change (run_ops F (o :: ops) (c, w)) with (run_ops F ops (apply_op F o (c, w))).
    simpl length in *. rewrite Nat2Z.inj_succ in *.
    pose proof (apply_op_issued n o c w ltac:(lia) Hi) as H1.
    destruct (apply_op F o (c, w)) as [c1 w1]. simpl in H1.
    replace (n + Z.succ (Z.of_nat (length ops)))
      with ((n + 1) + Z.of_nat (length ops)) by lia.
    apply IH; [lia|exact H1].
Qed.

(** X9. Identifiers are never reused. After any operations on a new
    controller (fewer than [2^64], so that the counter has not wrapped
    around), a [Start] that succeeds returns the decimal string of the next
    value of the counter, and that id was not in the registry: no job is
    ever replaced by another. *)
Theorem ids_are_never_reused opts w0 w1 c0 ops c w now owner_ command args c' w' id :
  NewController F opts w0 = (w1, Ok c0) ->
  run_ops F ops (c0, w1) = (c, w) ->
  Z.of_nat (length ops) + 1 < 2 ^ 64 ->
  Controller_Start F now c owner_ command args w = (c', w', Ok id) ->
  id = FormatUint (maxID c + 1) /\
  1 <= maxID c + 1 <= Z.of_nat (length ops) + 1 /\
  jobs c !! id = None.
Proof.
  intros Hnew Hrun Hlen Hstart.
  assert (H0 : issued 0 c0).
  { unfold NewController in Hnew.
    match type of Hnew with
    | context [fold_left apply_option opts ?k] =>
        pose proof (apply_options_keep opts k) as Hk
    end.
    simpl in Hk. destruct Hk as (Hm & Hj & _).
    destruct (newTelejobCgroup F _ w0) as [w2 [e|]]; inversion Hnew; subst; clear Hnew.
    split; [rewrite Hm; lia|]. intros id0 His. rewrite Hj, lookup_empty in His.
    destruct His as [? His]. discriminate His. }
  pose proof (run_ops_issued ops 0 c0 w1 ltac:(lia) H0) as Hi.
  rewrite Hrun in Hi. simpl in Hi. destruct Hi as [Hm Hk].
  unfold Controller_Start in Hstart.
  destruct (String.length command =? 0)%nat; [discriminate Hstart|].
  destruct (Controller_isShutDown c); [discriminate Hstart|].
  destruct (newJob F now owner_ _ command args _ _ w) as [w2 [j|e]];
    inversion Hstart; subst; clear Hstart.
  simpl. rewrite wrap64_small by lia. split; [reflexivity|]. split; [lia|].
  destruct (jobs c !! FormatUint (maxID c + 1)) as [j0|] eqn:Hj0; [|reflexivity].
  destruct (Hk (FormatUint (maxID c + 1)) ltac:(eauto)) as (k & Hk1 & Hk2).
  apply FormatUint_inj in Hk2; lia.
Qed.

(** *** Deleting a cgroup *)

(** The three ways [deleteCgroup] can go. *)
Lemma deleteCgroup_cases cg w w' r :
  deleteCgroup F cg w = (w', r) ->
  (exists e, log w' = log w ++ [(Stat cg, Some e)] /\ dirs w' = dirs w /\
             outcome F (Stat cg) w = Some e /\
             r = if bool_decide (e = ErrNotExist) then None
                 else Some (Errorf "cannot stat existing cgroup" [New (OS e)])) \/
  (exists e, log w' = log w ++ [ok (Stat cg); (Remove cg, Some e)] /\
             dirs w' = dirs w /\ outcome F (Stat cg) w = None /\
             r = Some (Errorf "cannot delete cgroup" [New (OS e)])) \/
  (log w' = log w ++ [ok (Stat cg); ok (Remove cg)] /\
   dirs w' = dirs w ∖ {[cg]} /\ outcome F (Stat cg) w = None /\ r = None).
Proof.
  unfold deleteCgroup, sys.
  destruct (outcome F (Stat cg) w) as [e|] eqn:H1; simpl.
  - intros H. left. exists e.
    destruct (bool_decide (OS e = OS ErrNotExist)) eqn:Hd.
    + apply bool_decide_eq_true in Hd. inversion Hd; subst.
      inversion H; subst; clear H. simpl. auto.
    + apply bool_decide_eq_false in Hd.
      rewrite bool_decide_eq_false_2 by congruence.
      inversion H; subst; clear H. simpl. auto.
  - match goal with
    | |- context [outcome F (Remove cg) ?w1] =>
        destruct (outcome F (Remove cg) w1) as [e|] eqn:H2
    end; simpl; intros H; inversion H; subst; clear H; simpl.
    + right; left. exists e. rewrite <- app_assoc. auto.
    + right; right. rewrite <- app_assoc. auto.
Qed.

Lemma Stat_of_a_missing_cgroup cg w :
  cg ∉ dirs w -> F (length (log w)) (Stat cg) = None ->
  outcome F (Stat cg) w = Some ErrNotExist.
Proof.
  intros Hin HF. unfold outcome. rewrite HF. simpl.
  destruct (decide (cg ∈ dirs w)); [contradiction|reflexivity].
Qed.

(** X10. [deleteCgroup] asks before it removes. A cgroup that is not there
    is no error: one [Stat], no [Remove], [nil]. A [Remove] is only made
    after a [Stat] that succeeded. When [nil] comes back the directory is
    gone or was reported missing; when an error comes back the directories
    are as before, and the error is not an [ErrCgroup]. *)
Theorem deleteCgroup_asks_first cg w w' r :
  deleteCgroup F cg w = (w', r) ->
  (cg ∉ dirs w -> F (length (log w)) (Stat cg) = None ->
     r = None /\ dirs w' = dirs w /\
     new_calls w w' = [(Stat cg, Some ErrNotExist)]) /\
  (forall o, In (Remove cg, o) (new_calls w w') ->
     new_calls w w' = [ok (Stat cg); (Remove cg, o)]) /\
  (r = None ->
     cg ∉ dirs w' \/ new_calls w w' = [(Stat cg, Some ErrNotExist)]) /\
  (forall e, r = Some e -> dirs w' = dirs w /\ Is e ErrCgroup = false).
Proof.
  intros H. apply deleteCgroup_cases in H.
  destruct H as [(e & Hl & Hd & Ho & Hr)|[(e & Hl & Hd & Ho & Hr)|(Hl & Hd & Ho & Hr)]];
    rewrite (new_calls_app _ _ _ Hl).
  - split; [|split; [|split]].
    + intros Hin HF. rewrite (Stat_of_a_missing_cgroup cg w Hin HF) in Ho.
      inversion Ho; subst. simpl. auto.
    + intros o [Hx|[]]. discriminate Hx.
    + intros Hn. right. rewrite Hn in Hr.
      destruct (bool_decide (e = ErrNotExist)) eqn:Hb; [|discriminate Hr].
      apply bool_decide_eq_true in Hb. subst. reflexivity.
    + intros e' He'. split; [exact Hd|]. rewrite He' in Hr.
      destruct (bool_decide (e = ErrNotExist)); inversion Hr; subst. reflexivity.
  - split; [|split; [|split]].
    + intros Hin HF. rewrite (Stat_of_a_missing_cgroup cg w Hin HF) in Ho.
      discriminate Ho.
    + intros o [Hx|[Hx|[]]]; [discriminate Hx|]. inversion Hx; subst. reflexivity.
    + intros Hn. rewrite Hn in Hr. discriminate Hr.
    + intros e' He'. split; [exact Hd|]. rewrite He' in Hr.
      inversion Hr; subst. reflexivity.
  - split; [|split; [|split]].
    + intros Hin HF. rewrite (Stat_of_a_missing_cgroup cg w Hin HF) in Ho.
      discriminate Ho.
    + intros o [Hx|[Hx|[]]]; [discriminate Hx|]. inversion Hx; subst. reflexivity.
    + intros _. left. rewrite Hd. intros Hc.
      apply elem_of_difference in Hc as [_ Hc]. apply Hc, elem_of_singleton.
      reflexivity.
    + intros e' He'. rewrite He' in Hr. discriminate Hr.
Qed.

Lemma deleteCgroupWithRetry_log cg n : forall w,
  exists D,
    log (deleteCgroupWithRetry F cg n w) = log w ++ D /\
    (length D <= 2 * n)%nat /\
    (forall x, In x D -> exists o, x = (Stat cg, o) \/ x = (Remove cg, o)) /\
    ((forall x, In x D -> snd x <> Some EBUSY) -> (length D <= 2)%nat) /\
    (dirs (deleteCgroupWithRetry F cg n w) = dirs w \/
     dirs (deleteCgroupWithRetry F cg n w) = dirs w ∖ {[cg]}).
Proof.
  induction n as [|n IH]; intros w.
  - exists []. simpl. rewrite app_nil_r. repeat split; auto. intros x [].
  - simpl. destruct (deleteCgroup F cg w) as [w1 r] eqn:Hd.
    apply deleteCgroup_cases in Hd.
    destruct Hd as [(e & Hl & Hdir & _ & Hr)|[(e & Hl & Hdir & _ & Hr)|(Hl & Hdir & _ & Hr)]].
    + destruct (bool_decide (e = ErrNotExist)) eqn:Hb; subst r.
      * exists [(Stat cg, Some e)]. simpl. repeat split; auto; try lia.
        intros x [<-|[]]. eauto.
      * simpl. destruct (bool_decide (OS e = OS EBUSY)) eqn:Hbusy; simpl.
        -- apply bool_decide_eq_true in Hbusy. inversion Hbusy; subst e.
           destruct (IH w1) as (D & HlD & Hlen & Hall & _ & Hdirs).
           exists ((Stat cg, Some EBUSY) :: D). rewrite HlD, Hl, <- app_assoc.
           simpl. split; [reflexivity|]. split; [lia|]. split; [|split].
           ++ intros x [<-|Hx]; [eauto|apply Hall, Hx].
           ++ intros Hno. exfalso. apply (Hno (Stat cg, Some EBUSY)); [left|]; reflexivity.
           ++ rewrite Hdir in Hdirs. exact Hdirs.
        -- exists [(Stat cg, Some e)]. simpl. repeat split; auto; try lia.
           intros x [<-|[]]. eauto.
    + subst r. simpl. destruct (bool_decide (OS e = OS EBUSY)) eqn:Hbusy; simpl.
      * apply bool_decide_eq_true in Hbusy. inversion Hbusy; subst e.
        destruct (IH w1) as (D & HlD & Hlen & Hall & _ & Hdirs).
        exists (ok (Stat cg) :: (Remove cg, Some EBUSY) :: D).
        rewrite HlD, Hl, <- app_assoc. simpl.
        split; [reflexivity|]. split; [lia|]. split; [|split].
        -- intros x [<-|[<-|Hx]]; [unfold ok; eauto|eauto|apply Hall, Hx].
        -- intros Hno. exfalso.
           apply (Hno (Remove cg, Some EBUSY)); [right; left|]; reflexivity.
        -- rewrite Hdir in Hdirs. exact Hdirs.
      * exists [ok (Stat cg); (Remove cg, Some e)]. simpl.
        repeat split; auto; try lia.
        intros x [<-|[<-|[]]]; unfold ok; eauto.
    + subst r. exists [ok (Stat cg); ok (Remove cg)]. simpl.
      repeat split; auto; try lia.
      intros x [<-|[<-|[]]]; unfold ok; eauto.
Qed.

(** X11. [deleteCgroupWithRetry] tries at most [retries] times, and tries
    again only after [EBUSY]: it makes at most two calls per attempt, all of
    them [Stat] or [Remove] of this cgroup; when no call fails with [EBUSY]
    there is one attempt; and the only directory that can go is this
    cgroup. With no retries it does nothing. *)
Theorem deleteCgroupWithRetry_attempts cg retries w :
  (length (new_calls w (deleteCgroupWithRetry F cg retries w)) <= 2 * retries)%nat /\
  (forall x, In x (new_calls w (deleteCgroupWithRetry F cg retries w)) ->
     exists o, x = (Stat cg, o) \/ x = (Remove cg, o)) /\
  ((forall x, In x (new_calls w (deleteCgroupWithRetry F cg retries w)) ->
      snd x <> Some EBUSY) ->
   (length (new_calls w (deleteCgroupWithRetry F cg retries w)) <= 2)%nat) /\
  (dirs (deleteCgroupWithRetry F cg retries w) = dirs w \/
   dirs (deleteCgroupWithRetry F cg retries w) = dirs w ∖ {[cg]}).
Proof.
  destruct (deleteCgroupWithRetry_log cg retries w) as (D & Hl & H1 & H2 & H3 & H4).
  rewrite (new_calls_app _ _ _ Hl). auto.
Qed.

(** *** Stopping a job *)

(** X12. [job.stop] touches the process of its job and nothing else. On a
    job that is not running it makes no call. On a running job it makes one
    call, the kill of the job's process, and returns [nil] exactly when the
    kill succeeded or found the process done; otherwise the error is an
    [ErrJobStop]. No cgroup is created or removed. *)
Theorem job_stop_kills_its_process j w w' r :
  job_stop F j w = (w', r) ->
  dirs w' = dirs w /\
  (Running (status j) = false -> w' = w /\ r = None) /\
  (Running (status j) = true ->
     exists o, new_calls w w' = [(Kill (Process (cmd j)), o)] /\
               (r = None <-> o = None \/ o = Some ErrProcessDone) /\
               (forall e, r = Some e -> Is e ErrJobStop = true)).
Proof.
  unfold job_stop. destruct (Running (status j)); simpl.
  - unfold sys. destruct (outcome F (Kill (Process (cmd j))) w) as [e|] eqn:Ho; simpl.
    + destruct (bool_decide (OS e = OS ErrProcessDone)) eqn:Hb; simpl;
        intros H; inversion H; subst; clear H; simpl.
      * split; [reflexivity|]. split; [discriminate|]. intros _.
        exists (Some e). split; [apply new_calls_app; reflexivity|].
        apply bool_decide_eq_true in Hb. inversion Hb; subst.
        split; [tauto|]. discriminate.
      * split; [reflexivity|]. split; [discriminate|]. intros _.
        exists (Some e). split; [apply new_calls_app; reflexivity|].
        apply bool_decide_eq_false in Hb. split.
        -- split; [discriminate|]. intros [Hx|Hx]; [discriminate Hx|].
           inversion Hx; subst. contradiction Hb. reflexivity.
        -- intros e' He'. inversion He'; subst. reflexivity.
    + intros H; inversion H; subst; clear H; simpl.
      split; [reflexivity|]. split; [discriminate|]. intros _.
      exists None. split; [apply new_calls_app; reflexivity|].
      split; [tauto|]. discriminate.
  - intros H; inversion H; subst. split; [reflexivity|].
    split; [auto|discriminate].
Qed.

(** *** The parent cgroup *)

(** X13. A controller is made around a parent cgroup of its own. When
    [NewController] succeeds it has made the directory, which was not there,
    and enabled the three controllers in it, with these two calls and no
    other; no second controller can then be made on that cgroup. When it
    fails it has removed nothing, and its error is not an [ErrCgroup]. *)
Theorem NewController_makes_the_parent_cgroup opts w w' r :
  NewController F opts w = (w', r) ->
  (forall c, r = Ok c ->
     new_calls w w'
     = [ok (Mkdir (telejobCgroup c));
        ok (WriteFile (telejobCgroup c) "cgroup.subtree_control" "+cpu +io +memory")] /\
     (telejobCgroup c ∉ dirs w) /\ dirs w' = {[telejobCgroup c]} ∪ dirs w /\
     forall F', exists w'' e,
       NewController F' opts w' = (w'', Err e) /\ dirs w'' = dirs w') /\
  (forall e, r = Err e ->
     dirs w ⊆ dirs w' /\ Is e ErrCgroup = false /\
     forall x p, In x (new_calls w w') -> fst x <> Remove p).
Proof.
  unfold NewController.
  set (c := fold_left apply_option opts _). clearbody c.
  unfold newTelejobCgroup, sys.
  destruct (outcome F (Mkdir (telejobCgroup c)) w) as [e1|] eqn:H1; simpl.
  - intros H; inversion H; subst; clear H. split; [discriminate|].
    intros e He. inversion He; subst; clear He. simpl.
    split; [reflexivity|]. split; [reflexivity|].
    intros x p Hx. rewrite (new_calls_app w _ [(Mkdir (telejobCgroup c), Some e1)])
      in Hx by reflexivity.
    destruct Hx as [<-|[]]. discriminate.
  - match goal with
    | |- context [outcome F (WriteFile ?d ?f ?t) ?w1] =>
        destruct (outcome F (WriteFile d f t) w1) as [e2|] eqn:H2
    end; simpl; intros H; inversion H; subst; clear H.
    + split; [discriminate|]. intros e He. inversion He; subst; clear He. simpl.
      split; [apply union_subseteq_r|]. split; [reflexivity|].
      intros x p Hx.
      rewrite (new_calls_app w _
                 [ok (Mkdir (telejobCgroup c));
                  (WriteFile (telejobCgroup c) "cgroup.subtree_control"
                     "+cpu +io +memory", Some e2)]) in Hx
        by (simpl; rewrite <- app_assoc; reflexivity).
      destruct Hx as [<-|[<-|[]]]; discriminate.
    + split; [|discriminate]. intros c' Hc. inversion Hc; subst c'; clear Hc.
      split; [apply new_calls_app; simpl; rewrite <- app_assoc; reflexivity|].
      assert (Hnot : telejobCgroup c ∉ dirs w).
      { unfold outcome in H1. destruct (F _ _); [discriminate H1|]. simpl in H1.
        destruct (decide (telejobCgroup c ∈ dirs w)); [discriminate H1|assumption]. }
      split; [exact Hnot|]. simpl. split; [reflexivity|].
      intros F'.
      match goal with
      | |- context [outcome F' (Mkdir ?d) ?w1] =>
          assert (Hex : exists e, outcome F' (Mkdir d) w1 = Some e)
      end.
      { unfold outcome. destruct (F' _ _); [eauto|]. simpl.
        destruct (decide (telejobCgroup c ∈ {[telejobCgroup c]} ∪ dirs w)) as [|Hn];
          [eauto|]. exfalso. apply Hn, elem_of_union_l, elem_of_singleton.
        reflexivity. }
      destruct Hex as [e He]. rewrite He. simpl. eauto.
Qed.

(** *** Shutting down *)

Lemma Controller_reap_stopped waitErr now c id w id' j' :
  jobs (fst (Controller_reap F waitErr now c id w)) !! id' = Some j' ->
  (id' = id -> Running (status j') = false) /\
  (forall j, jobs c !! id' = Some j -> Running (status j) = false ->
             Running (status j') = false).
Proof.
  unfold Controller_reap.
  destruct (jobs c !! id) as [j0|] eqn:H0.
  - destruct (Running (status j0)) eqn:Hr0.
    + unfold job_wait. simpl. destruct (decide (id' = id)) as [->|Hne].
      * rewrite lookup_insert_eq. intros H; inversion H; subst. simpl. auto.
      * rewrite lookup_insert_ne by congruence. intros H. split; [contradiction|].
        intros j Hj. rewrite Hj in H. inversion H; subst. auto.
    + simpl. intros H. split.
      * intros ->. rewrite H0 in H. inversion H; subst. exact Hr0.
      * intros j Hj. rewrite Hj in H. inversion H; subst. auto.
  - simpl. intros H. split.
    + intros ->. rewrite H0 in H. discriminate H.
    + intros j Hj. rewrite Hj in H. inversion H; subst. auto.
Qed.

Lemma reap_jobs_stopped ex ids : forall c w id' j',
  jobs (fst (reap_jobs F ex ids c w)) !! id' = Some j' ->
  (In id' ids -> Running (status j') = false) /\
  (forall j, jobs c !! id' = Some j -> Running (status j) = false ->
             Running (status j') = false).
Proof.
  induction ids as [|id ids IH]; intros c w id' j' H; simpl in H.
  - split; [intros []|]. intros j Hj. rewrite Hj in H. inversion H; subst. auto.
  - pose proof (Controller_reap_stopped (fst (ex id)) (snd (ex id)) c id w id') as Hs.
    pose proof (reap_jobs_keys ex ids
                  (fst (Controller_reap F (fst (ex id)) (snd (ex id)) c id w))
                  (snd (Controller_reap F (fst (ex id)) (snd (ex id)) c id w)) id')
      as Hk.
    destruct (Controller_reap F (fst (ex id)) (snd (ex id)) c id w) as [c1 w1].
    simpl in Hs, Hk. destruct (IH c1 w1 id' j' H) as [IH1 IH2].
    destruct (Hk ltac:(eauto)) as [j1 Hj1].
    destruct (Hs j1 Hj1) as [Hs1 Hs2]. split.
    + intros [<-|Hin]; [|exact (IH1 Hin)]. apply (IH2 j1 Hj1), Hs1. reflexivity.
    + intros j Hj Hr. apply (IH2 j1 Hj1), (Hs2 j Hj Hr).
Qed.

(** *** The wait group counts the reapers *)

Lemma running_insert_new c id j :
  Running (status j) = true ->
  (forall j0, jobs c !! id = Some j0 -> Running (status j0) = false) ->
  size (filter (fun p => Running (status p.2) = true) (<[id := j]> (jobs c)))
  = S (size (running c)).
Proof.
  intros Hr Hold. rewrite map_filter_insert_True by exact Hr.
  apply map_size_insert_None, map_lookup_filter_None.
  destruct (jobs c !! id) as [j0|] eqn:Hj; [right|left; reflexivity].
  intros x Hx. inversion Hx; subst x. simpl. rewrite (Hold j0 eq_refl).
  discriminate.
Qed.

Lemma running_insert_done c id j j' :
  jobs c !! id = Some j -> Running (status j) = true ->
  Running (status j') = false ->
  size (filter (fun p => Running (status p.2) = true) (<[id := j']> (jobs c)))
  = pred (size (running c)) /\ (0 < size (running c))%nat.
Proof.
  intros Hj Hr Hr'.
  assert (Hin : running c !! id = Some j)
    by (apply map_lookup_filter_Some; split; [exact Hj|exact Hr]).
  rewrite map_filter_insert_False by (simpl; rewrite Hr'; discriminate).
  rewrite map_filter_delete. fold (running c).
  rewrite map_size_delete, Hin. split; [reflexivity|].
  destruct (size (running c)) eqn:Hs; [|lia].
  apply map_size_empty_inv in Hs. rewrite Hs, lookup_empty in Hin.
  discriminate Hin.
Qed.

(** A reaper that finishes takes its job out of the count, by [wg.Done]. *)
Lemma Controller_reap_wg waitErr now c id w :
  wg_counts c -> wg_counts (fst (Controller_reap F waitErr now c id w)).
Proof.
  intros Hwg. unfold Controller_reap.
  destruct (jobs c !! id) as [j|] eqn:Hj; [|exact Hwg].
  destruct (Running (status j)) eqn:Hr; [|exact Hwg].
  unfold job_wait. simpl. unfold wg_counts, running. simpl.
  destruct (running_insert_done c id j
              (set_status j (waited_status waitErr now (status j))) Hj Hr eq_refl)
    as [Hs Hpos].
  rewrite Hs, Hwg. lia.
Qed.

Lemma reap_jobs_wg ex ids : forall c w,
  wg_counts c -> wg_counts (fst (reap_jobs F ex ids c w)).
Proof.
  induction ids as [|id ids IH]; intros c w Hwg; simpl; [exact Hwg|].
  pose proof (Controller_reap_wg (fst (ex id)) (snd (ex id)) c id w Hwg) as H.
  destruct (Controller_reap F (fst (ex id)) (snd (ex id)) c id w) as [c1 w1].
  apply IH, H.
Qed.

Lemma Controller_StopAll_wg ex c w :
  wg_counts c -> wg_counts (fst (fst (Controller_StopAll F ex c w))).
Proof.
  intros Hwg. unfold Controller_StopAll.
  destruct (shutDown c); [exact Hwg|].
  destruct (stop_jobs F _ w) as [w1 errs].
  pose proof (reap_jobs_wg ex (map fst (map_to_list (jobs (set_shutDown c true))))
                (set_shutDown c true) w1 Hwg) as H.
  destruct (reap_jobs F ex _ (set_shutDown c true) w1) as [c2 w2].
  destruct (deleteCgroup F (telejobCgroup c2) w2) as [w3 err].
  exact H.
Qed.

(** With no job running the count is zero. *)
Lemma wg_counts_idle c :
  wg_counts c ->
  (forall id j, jobs c !! id = Some j -> Running (status j) = false) ->
  wg c = 0.
Proof.
  intros Hwg Hn. rewrite Hwg.
  replace (running c) with (∅ : gmap string job); [reflexivity|].
  symmetry. apply map_empty_filter. intros id j Hj. simpl.
  rewrite (Hn id j Hj). discriminate.
Qed.


(** *** The status of the jobs along a run *)

(** Every snapshot of the registry is consistent, and a job that does not
    run has an exit code from [-1] to [255]. *)
Definition statuses_ok (c : Controller) : Prop :=
  forall id j, jobs c !! id = Some j ->
    status_invariant (status j) /\
    (Running (status j) = false -> -1 <= ExitCode (status j) <= 255).

Lemma Controller_reap_statuses waitErr now c id w :
  clean_wait (waitErr, now) -> statuses_ok c ->
  statuses_ok (fst (Controller_reap F waitErr now c id w)).
Proof.
  intros [Hw Hnow] Hok. simpl in Hw, Hnow. unfold Controller_reap.
  destruct (jobs c !! id) as [j0|] eqn:H0; [|exact Hok].
  destruct (Running (status j0)); [|exact Hok].
  unfold job_wait. simpl. intros id' j' Hj'. simpl in Hj'.
  destruct (decide (id' = id)) as [->|Hne].
  - rewrite lookup_insert_eq in Hj'. inversion Hj'; subst; clear Hj'. simpl.
    split; [apply waited_status_invariant; assumption|]. intros _.
    destruct (waited_status_exit_code waitErr now (status j0)) as (_ & _ & _ & _ & Hr).
    exact (Hr Hw).
  - rewrite lookup_insert_ne in Hj' by congruence. exact (Hok id' j' Hj').
Qed.

Lemma reap_jobs_statuses ex ids : forall c w,
  (forall id, clean_wait (ex id)) -> statuses_ok c ->
  statuses_ok (fst (reap_jobs F ex ids c w)).
Proof.
  induction ids as [|id ids IH]; intros c w Hex Hok; simpl; [exact Hok|].
  pose proof (Controller_reap_statuses (fst (ex id)) (snd (ex id)) c id w) as H.
  destruct (Controller_reap F (fst (ex id)) (snd (ex id)) c id w) as [c1 w1].
  apply IH; [exact Hex|]. apply H; [|exact Hok].
  specialize (Hex id). destruct (ex id). exact Hex.
Qed.

Lemma apply_op_statuses o c w :
  clean_op o -> statuses_ok c -> statuses_ok (fst (apply_op F o (c, w))).
Proof.
  intros Hc Hok.
  destruct o as [now ow command args|ow id0|ow id0|waitErr now id0|ex]; simpl.
  - unfold Controller_Start.
    destruct (String.length command =? 0)%nat; [exact Hok|].
    destruct (Controller_isShutDown c); [exact Hok|].
    destruct (newJob F now ow _ command args _ _ w) as [w1 [j|e]] eqn:Hn;
      [|exact Hok].
    simpl. intros id' j' Hj'. unfold Controller_add in Hj'. simpl in Hj'.
    destruct (decide (FormatUint (wrap64 (maxID c + 1)) = id')) as [<-|Hne].
    + rewrite lookup_insert_eq in Hj'. inversion Hj'; subst j'.
      destruct (newJob_status_invariant F _ _ _ _ _ _ _ _ _ _ Hn) as [Hi Hr].
      split; [exact Hi|]. rewrite Hr. discriminate.
    + rewrite lookup_insert_ne in Hj' by exact Hne. exact (Hok id' j' Hj').
  - exact Hok.
  - exact Hok.
  - apply Controller_reap_statuses; assumption.
  - unfold Controller_StopAll. destruct (shutDown c); [exact Hok|].
    destruct (stop_jobs F _ w) as [w1 errs].
    pose proof (reap_jobs_statuses ex (map fst (map_to_list (jobs (set_shutDown c true))))
                  (set_shutDown c true) w1 Hc Hok) as H.
    destruct (reap_jobs F ex _ (set_shutDown c true) w1) as [c2 w2].
    destruct (deleteCgroup F (telejobCgroup c2) w2) as [w3 err]. exact H.
Qed.

Lemma run_ops_statuses ops : forall c w,
  Forall clean_op ops -> statuses_ok c ->
  statuses_ok (fst (run_ops F ops (c, w))).
Proof.
  induction ops as [|o ops IH]; intros c w Hall Hok; [exact Hok|].
  inversion Hall as [|? ? Ho Hops]; subst.
  change (run_ops F (o :: ops) (c, w)) with (run_ops F ops (apply_op F o (c, w))).
  pose proof (apply_op_statuses o c w Ho Hok) as H1.
  destruct (apply_op F o (c, w)) as [c1 w1]. apply IH; assumption.
Qed.

(** X15. As long as every wait returns [nil] or an [exec.ExitError], at a
    time that is not the zero time, the snapshots [Status] returns are
    consistent after any operations on a new controller: a running job has
    the exit code [-2] and no stop time, and a job that does not run has a
    stop time and an exit code from [-1] to [255]. *)
Theorem Status_is_consistent opts w0 w1 c0 ops c w caller id s :
  NewController F opts w0 = (w1, Ok c0) ->
  Forall clean_op ops ->
  run_ops F ops (c0, w1) = (c, w) ->
  Controller_Status c caller id = Ok s ->
  (Running s = true /\ ExitCode s = NotTerminated /\ Stopped s = 0) \/
  (Running s = false /\ -1 <= ExitCode s <= 255 /\ Stopped s <> 0).
Proof.
  intros Hnew Hall Hrun Hs.
  assert (H0 : statuses_ok c0).
  { unfold NewController in Hnew.
    match type of Hnew with
    | context [fold_left apply_option opts ?k] =>
        pose proof (apply_options_keep opts k) as Hk
    end.
    simpl in Hk. destruct Hk as (_ & Hj & _).
    destruct (newTelejobCgroup F _ w0) as [w2 [e|]]; inversion Hnew; subst; clear Hnew.
    intros id0 j0 H. rewrite Hj, lookup_empty in H. discriminate H. }
  pose proof (run_ops_statuses ops c0 w1 Hall H0) as Hok.
  rewrite Hrun in Hok. simpl in Hok.
  unfold Controller_Status, Controller_get in Hs.
  destruct (jobs c !! id) as [j|] eqn:Hj; [|discriminate Hs].
  destruct (negb (String.eqb (owner j) caller)); [discriminate Hs|].
  inversion Hs; subst; clear Hs. unfold job_getStatus.
  destruct (Hok id j Hj) as [[Hi1 Hi2] Hr].
  destruct (Running (status j)) eqn:Hrun'.
  - left. split; [reflexivity|]. split; [apply Hi1|apply Hi2]; reflexivity.
  - right. split; [reflexivity|]. split; [apply Hr; reflexivity|].
    intros Hz. apply Hi2 in Hz. discriminate Hz.
Qed.

(** *** The calls of a start *)

(** X16. The limits are in place before the command runs. A [Start] that
    succeeds has made the cgroup of the job, written every limit, opened
    the directory, started the process in that cgroup and closed the
    directory, in this order and with no other call; only the closing may
    have failed. The directory of the cgroup is the one new directory. *)
Theorem Start_limits_come_first now c owner_ command args w c' w' id :
  Controller_Start F now c owner_ command args w = (c', w', Ok id) ->
  exists o,
    new_calls w w'
    = ok (Mkdir (filepath_Join (telejobCgroup c) id))
      :: map ok (limit_writes (filepath_Join (telejobCgroup c) id) (limits c))
      ++ [ok (Open (filepath_Join (telejobCgroup c) id));
          ok (StartProcess command args (filepath_Join (telejobCgroup c) id));
          (Close (filepath_Join (telejobCgroup c) id), o)] /\
    dirs w' = {[filepath_Join (telejobCgroup c) id]} ∪ dirs w.
Proof.
  intros H. unfold Controller_Start in H.
  destruct (String.length command =? 0)%nat; [discriminate H|].
  destruct (Controller_isShutDown c); [discriminate H|].
  unfold newJob in H.
  destruct (newStartedCmd F _ command args _ _ w) as [w1 [cm|e]] eqn:Hc;
    inversion H; subst; clear H.
  apply newStartedCmd_inv in Hc. simpl in Hc.
  inversion Hc as [| | |o pid Hl Hd]; subst.
  exists o. split; [|exact Hd]. apply new_calls_app. exact Hl.
Qed.

(** *** The configuration *)

Lemma Controller_reap_config waitErr now c id w :
  limits (fst (Controller_reap F waitErr now c id w)) = limits c /\
  telejobCgroup (fst (Controller_reap F waitErr now c id w)) = telejobCgroup c.
Proof.
  unfold Controller_reap.
  destruct (jobs c !! id) as [j|]; [|auto].
  destruct (Running (status j)); [|auto].
  destruct (job_wait F waitErr now j w). auto.
Qed.

Lemma reap_jobs_config ex ids : forall c w,
  limits (fst (reap_jobs F ex ids c w)) = limits c /\
  telejobCgroup (fst (reap_jobs F ex ids c w)) = telejobCgroup c.
Proof.
  induction ids as [|id ids IH]; intros c w; simpl; [auto|].
  pose proof (Controller_reap_config (fst (ex id)) (snd (ex id)) c id w) as [H1 H2].
  destruct (Controller_reap F (fst (ex id)) (snd (ex id)) c id w) as [c1 w1].
  destruct (IH c1 w1) as [H3 H4]. simpl in *. split; congruence.
Qed.

Lemma apply_op_config o c w :
  limits (fst (apply_op F o (c, w))) = limits c /\
  telejobCgroup (fst (apply_op F o (c, w))) = telejobCgroup c.
Proof.
  destruct o as [now ow command args|ow id0|ow id0|waitErr now id0|ex]; simpl;
    [|auto|auto|apply Controller_reap_config|].
  - unfold Controller_Start.
    destruct (String.length command =? 0)%nat; [auto|].
    destruct (Controller_isShutDown c); [auto|].
    destruct (newJob F now ow _ command args _ _ w) as [w1 [j|e]]; auto.
  - unfold Controller_StopAll. destruct (shutDown c); [auto|].
    destruct (stop_jobs F _ w) as [w1 errs].
    pose proof (reap_jobs_config ex (map fst (map_to_list (jobs (set_shutDown c true))))
                  (set_shutDown c true) w1) as H.
    destruct (reap_jobs F ex _ (set_shutDown c true) w1) as [c2 w2].
    destruct (deleteCgroup F (telejobCgroup c2) w2) as [w3 err]. exact H.
Qed.

Lemma NewController_options opts w w' c :
  NewController F opts w = (w', Ok c) ->
  limits c
  = limits (fold_left apply_option opts
              {| jobs := ∅; maxID := 0; shutDown := false;
                 telejobCgroup := "/sys/fs/cgroup/telejob";
                 limits := {| CPUs := 0%float; MemoryKiB := 0; IO := [] |};
                 wg := 0 |}) /\
  telejobCgroup c
  = telejobCgroup (fold_left apply_option opts
              {| jobs := ∅; maxID := 0; shutDown := false;
                 telejobCgroup := "/sys/fs/cgroup/telejob";
                 limits := {| CPUs := 0%float; MemoryKiB := 0; IO := [] |};
                 wg := 0 |}).
Proof.
  unfold NewController.
  destruct (newTelejobCgroup F _ w) as [w1 [e|]]; intros H; inversion H; subst.
  auto.
Qed.

(** X17. The configuration of a controller is fixed when it is made. With
    no option the parent cgroup is [/sys/fs/cgroup/telejob] and there are
    no limits; of several options of one kind the last one counts, and an
    option of one kind leaves the other setting alone; and no operation on
    the controller changes the limits or the parent cgroup: every job is
    started under the same parent with the same limits. *)
Theorem configuration_is_fixed :
  (forall w w' c,
      NewController F [] w = (w', Ok c) ->
      telejobCgroup c = "/sys/fs/cgroup/telejob" /\
      limits c = {| CPUs := 0%float; MemoryKiB := 0; IO := [] |}) /\
  (forall opts l w w' c c0 w0,
      NewController F (opts ++ [WithLimits l]) w = (w', Ok c) ->
      NewController F opts w = (w0, Ok c0) ->
      limits c = l /\ telejobCgroup c = telejobCgroup c0) /\
  (forall opts g w w' c c0 w0,
      NewController F (opts ++ [WithCgroup g]) w = (w', Ok c) ->
      NewController F opts w = (w0, Ok c0) ->
      telejobCgroup c = g /\ limits c = limits c0) /\
  (forall ops c w,
      limits (fst (run_ops F ops (c, w))) = limits c /\
      telejobCgroup (fst (run_ops F ops (c, w))) = telejobCgroup c).
Proof.
  split; [|split; [|split]].
  - intros w w' c H. apply NewController_options in H. simpl in H. tauto.
  - intros opts l w w' c c0 w0 H H0.
    apply NewController_options in H, H0.
    rewrite fold_left_app in H. simpl in H. destruct H as [H1 H2].
    destruct H0 as [_ H4]. split; [exact H1|congruence].
  - intros opts g w w' c c0 w0 H H0.
    apply NewController_options in H, H0.
    rewrite fold_left_app in H. simpl in H. destruct H as [H1 H2].
    destruct H0 as [H3 _]. split; [exact H2|congruence].
  - intros ops. induction ops as [|o ops IH]; intros c w; [auto|].
    change (run_ops F (o :: ops) (c, w)) with (run_ops F ops (apply_op F o (c, w))).
    pose proof (apply_op_config o c w) as [H1 H2].
    destruct (apply_op F o (c, w)) as [c1 w1]. simpl in H1, H2.
    destruct (IH c1 w1) as [H3 H4]. split; congruence.
Qed.

(** *** The reaper *)

(** X18. [job.wait] always cleans up. Whatever [cmd.Wait] returned, the
    job is marked as not running with the time of the return, and its id,
    command, arguments, start time, owner and cgroup stay; the first call
    is the write of [1] to [cgroup.kill] of its cgroup, the calls after it
    are at most three attempts to delete that cgroup, and no other
    directory is touched. *)
Theorem job_wait_cleans_up waitErr now j w :
  Running (status (snd (job_wait F waitErr now j w))) = false /\
  Stopped (status (snd (job_wait F waitErr now j w))) = now /\
  (ID (status (snd (job_wait F waitErr now j w))),
   Command (status (snd (job_wait F waitErr now j w))),
   Args (status (snd (job_wait F waitErr now j w))),
   Started (status (snd (job_wait F waitErr now j w))))
  = (ID (status j), Command (status j), Args (status j), Started (status j)) /\
  (owner (snd (job_wait F waitErr now j w)),
   cgroup (snd (job_wait F waitErr now j w)),
   cmd (snd (job_wait F waitErr now j w)))
  = (owner j, cgroup j, cmd j) /\
  (exists o rest,
      new_calls w (fst (job_wait F waitErr now j w))
      = (WriteFile (cgroup j) "cgroup.kill" "1", o) :: rest /\
      (length rest <= 6)%nat /\
      forall x, In x rest ->
                exists o', x = (Stat (cgroup j), o') \/ x = (Remove (cgroup j), o')) /\
  (dirs (fst (job_wait F waitErr now j w)) = dirs w \/
   dirs (fst (job_wait F waitErr now j w)) = dirs w ∖ {[cgroup j]}).
Proof.
  unfold job_wait. cbn [fst snd set_status status owner cgroup cmd waited_status
                        Running Stopped ID Command Args Started].
  split; [reflexivity|]. split; [reflexivity|]. split; [reflexivity|].
  split; [reflexivity|].
  unfold writeCgroupFile.
  destruct (sys F (WriteFile (cgroup j) "cgroup.kill" "1") w) as [w1 o] eqn:Hs.
  apply sys_inv in Hs. destruct Hs as [Hl Hd].
  assert (Hd1 : dirs w1 = dirs w) by (destruct o; exact Hd).
  assert (Hw1 : fst (match o with
                     | Some _ => (w1, Some (Errorf "cannot create" [New ErrCgroup]))
                     | None => (w1, None)
                     end) = w1) by (destruct o; reflexivity).
  rewrite Hw1.
  destruct (deleteCgroupWithRetry_log (cgroup j) 3 w1) as (D & HlD & Hlen & Hall & _ & Hdirs).
  split.
  - exists o, D. split; [|split; [simpl in Hlen; lia|exact Hall]].
    apply new_calls_app. rewrite HlD, Hl, <- app_assoc. reflexivity.
  - rewrite Hd1 in Hdirs. exact Hdirs.
Qed.

End ControllerMore.

(** ** A clean shutdown *)

(** *** A system that does not fail *)

Lemma String_append_inj_l (a b c : string) :
  (a ++ b)%string = (a ++ c)%string -> b = c.
Proof.
  induction a as [|x a IH]; simpl; intros H; [exact H|].
  inversion H. auto.
Qed.

Lemma String_append_length (a b : string) :
  String.length (a ++ b) = (String.length a + String.length b)%nat.
Proof. induction a as [|x a IH]; simpl; [reflexivity|]. rewrite IH. reflexivity. Qed.

Lemma filepath_Join_inj dir a b :
  filepath_Join dir a = filepath_Join dir b -> a = b.
Proof.
  unfold filepath_Join. intros H.
  apply String_append_inj_l in H. apply (String_append_inj_l "/") in H. exact H.
Qed.

Lemma filepath_Join_neq dir a : filepath_Join dir a <> dir.
Proof.
  unfold filepath_Join. intros H.
  apply (f_equal String.length) in H. rewrite String_append_length in H.
  simpl in H. lia.
Qed.

Lemma limit_writes_in cg l :
  Forall (fun c => exists f content, c = WriteFile cg f content) (limit_writes cg l).
Proof.
  unfold limit_writes. repeat apply Forall_app_2.
  - destruct (0 <? CPUs l)%float; repeat constructor. eauto.
  - destruct (0 <? MemoryKiB l); repeat constructor. eauto.
  - apply Forall_forall. intros c Hc. apply list_elem_of_In, in_map_iff in Hc.
    destruct Hc as (io & <- & _). eauto.
Qed.

Lemma sys_no_faults_ok c w :
  natural_error c w = None ->
  sys no_faults c w
  = ({| dirs := effect c (dirs w); log := log w ++ [(c, None)] |}, None).
Proof. intros H. unfold sys, outcome, no_faults. rewrite H. reflexivity. Qed.

Lemma sys_no_faults_err c w e :
  natural_error c w = Some e ->
  sys no_faults c w
  = ({| dirs := dirs w; log := log w ++ [(c, Some e)] |}, Some e).
Proof. intros H. unfold sys, outcome, no_faults. rewrite H. reflexivity. Qed.

Lemma natural_in_dir c p w :
  (c = Stat p \/ c = Remove p \/ c = Open p \/ exists f t, c = WriteFile p f t) ->
  p ∈ dirs w -> natural_error c w = None.
Proof.
  intros [->|[->|[->|(f & t & ->)]]] Hin; simpl;
    destruct (decide (p ∈ dirs w)); try contradiction; reflexivity.
Qed.

Lemma writes_succeed cg cs : forall w,
  Forall (fun c => exists f content, c = WriteFile cg f content) cs ->
  cg ∈ dirs w ->
  exists w', for_each (write_call no_faults) cs w = (w', None) /\ dirs w' = dirs w.
Proof.
  induction cs as [|c cs IH]; intros w Hall Hin; simpl.
  - exists w. split; reflexivity.
  - inversion Hall as [|? ? (f & content & ->) Hcs]; subst.
    unfold and_then. simpl. unfold writeCgroupFile.
    rewrite sys_no_faults_ok by (eapply natural_in_dir; eauto 6).
    match goal with
    | |- context [for_each _ cs ?w1] => destruct (IH w1 Hcs Hin) as (w' & Hw' & Hd)
    end.
    exists w'. split; [exact Hw'|exact Hd].
Qed.

(** [newStartedCmd] where nothing fails but what must: the cgroup is there
    already and nothing is done, or the command is started in its new
    cgroup. *)
Lemma newStartedCmd_no_faults id command args l cg w w' r :
  newStartedCmd no_faults id command args l cg w = (w', r) ->
  (cg ∈ dirs w /\ dirs w' = dirs w /\ exists e, r = Err e) \/
  ((cg ∉ dirs w) /\ dirs w' = {[cg]} ∪ dirs w /\ exists cm, r = Ok cm).
Proof.
  unfold newStartedCmd, newJobCgroup.
  destruct (decide (cg ∈ dirs w)) as [Hin|Hout].
  - rewrite (sys_no_faults_err (Mkdir cg) w ErrExist)
      by (simpl; destruct (decide (cg ∈ dirs w)); [reflexivity|contradiction]).
    intros H; inversion H; subst. left. simpl. eauto.
  - rewrite (sys_no_faults_ok (Mkdir cg) w)
      by (simpl; destruct (decide (cg ∈ dirs w)); [contradiction|reflexivity]).
    rewrite limits_as_writes.
    match goal with
    | |- context [for_each _ _ ?w1] =>
        destruct (writes_succeed cg (limit_writes cg l) w1 (limit_writes_in cg l))
          as (w2 & Hw2 & Hd2)
    end.
    { simpl. apply elem_of_union_l, elem_of_singleton. reflexivity. }
    rewrite Hw2. simpl in Hd2. cbn [deleteCgroupOnErr].
    assert (Hin2 : cg ∈ dirs w2).
    { rewrite Hd2. apply elem_of_union_l, elem_of_singleton. reflexivity. }
    rewrite (sys_no_faults_ok (Open cg) w2) by (eapply natural_in_dir; eauto).
    rewrite sys_no_faults_ok by reflexivity.
    rewrite sys_no_faults_ok by reflexivity.
    intros H; inversion H; subst; clear H. right. simpl.
    split; [exact Hout|]. split; [exact Hd2|]. eauto.
Qed.

Lemma job_wait_no_faults waitErr now j w :
  cgroup j ∈ dirs w ->
  dirs (fst (job_wait no_faults waitErr now j w)) = dirs w ∖ {[cgroup j]}.
Proof.
  intros Hin. unfold job_wait. cbn [set_status cgroup fst].
  unfold writeCgroupFile.
  rewrite sys_no_faults_ok by (eapply natural_in_dir; eauto 6).
  cbn [fst deleteCgroupWithRetry]. unfold deleteCgroup.
  rewrite sys_no_faults_ok by (eapply natural_in_dir; eauto).
  rewrite sys_no_faults_ok by (eapply natural_in_dir; eauto).
  reflexivity.
Qed.

Lemma job_stop_dirs F j w : dirs (fst (job_stop F j w)) = dirs w.
Proof.
  unfold job_stop. destruct (negb (Running (status j))); [reflexivity|].
  unfold sys. destruct (outcome F (Kill (Process (cmd j))) w) as [e|]; simpl.
  - destruct (negb _); reflexivity.
  - reflexivity.
Qed.

Lemma job_stop_no_faults j w : snd (job_stop no_faults j w) = None.
Proof.
  unfold job_stop. destruct (negb (Running (status j))); reflexivity.
Qed.

Lemma stop_jobs_no_faults js : forall w,
  dirs (fst (stop_jobs no_faults js w)) = dirs w /\
  snd (stop_jobs no_faults js w) = [].
Proof.
  induction js as [|[id j] js IH]; intros w; simpl; [auto|].
  destruct (job_isRunning j); [|apply IH].
  pose proof (job_stop_dirs no_faults j w) as Hd.
  pose proof (job_stop_no_faults j w) as Hn.
  destruct (job_stop no_faults j w) as [w1 r]. simpl in Hd, Hn. subst r.
  destruct (IH w1) as [H1 H2]. split; congruence.
Qed.

(** *** The directories along a run *)

(** The directories are those of the beginning, [D0], the parent cgroup
    while it is there, and the cgroups of the jobs that run. *)
Record tidy (D0 : gset string) (parent : bool) (c : Controller) (w : World)
    : Prop := mkTidy {
  tidy_cgroup : forall id j,
      jobs c !! id = Some j -> cgroup j = filepath_Join (telejobCgroup c) id;
  tidy_parent : telejobCgroup c ∉ D0;
  tidy_fresh : forall id j,
      jobs c !! id = Some j -> Running (status j) = true -> cgroup j ∉ D0;
  tidy_dirs : forall p,
      p ∈ dirs w <->
      p ∈ D0 \/ (parent = true /\ p = telejobCgroup c) \/
      exists id j, jobs c !! id = Some j /\ Running (status j) = true /\
                   p = cgroup j
}.

Lemma tidy_same D0 b c w c' w' :
  jobs c' = jobs c -> telejobCgroup c' = telejobCgroup c -> dirs w' = dirs w ->
  tidy D0 b c w -> tidy D0 b c' w'.
Proof.
  intros Hj Hp Hd [H1 H2 H3 H4]. constructor; rewrite ?Hj, ?Hp, ?Hd; assumption.
Qed.

Lemma NewController_success F opts w w' c :
  NewController F opts w = (w', Ok c) ->
  (telejobCgroup c ∉ dirs w) /\ dirs w' = {[telejobCgroup c]} ∪ dirs w /\
  jobs c = ∅ /\ shutDown c = false.
Proof.
  unfold NewController.
  match goal with
  | |- context [fold_left apply_option opts ?k] =>
      pose proof (apply_options_keep opts k) as Hk;
      set (c0 := fold_left apply_option opts k) in *
  end.
  simpl in Hk. destruct Hk as (_ & Hj & Hs). clearbody c0.
  unfold newTelejobCgroup, sys.
  destruct (outcome F (Mkdir (telejobCgroup c0)) w) as [e1|] eqn:H1; simpl;
    [discriminate|].
  match goal with
  | |- context [outcome F (WriteFile ?d ?f ?t) ?w1] =>
      destruct (outcome F (WriteFile d f t) w1) as [e2|] eqn:H2
  end; simpl; intros H; inversion H; subst; clear H.
  split; [|auto]. unfold outcome in H1. destruct (F _ _); [discriminate H1|].
  simpl in H1. destruct (decide (telejobCgroup c ∈ dirs w)); [discriminate H1|assumption].
Qed.

Lemma tidy_Start D0 now c owner_ command args w :
  tidy D0 true c w ->
  tidy D0 true (fst (fst (Controller_Start no_faults now c owner_ command args w)))
               (snd (fst (Controller_Start no_faults now c owner_ command args w))).
Proof.
  intros Ht. unfold Controller_Start.
  destruct (String.length command =? 0)%nat; [exact Ht|].
  destruct (Controller_isShutDown c); [exact Ht|].
  unfold newJob.
  destruct (newStartedCmd no_faults _ command args _ _ w) as [w1 [cm|e]] eqn:Hc;
    apply newStartedCmd_no_faults in Hc; simpl in Hc;
    destruct Hc as [(Hin & Hd & e' & He)|(Hout & Hd & cm' & Hcm)];
    try discriminate; simpl.
  - pose proof Ht as [H1 H2 H3 H4].
    set (id := FormatUint (wrap64 (maxID c + 1))) in *.
    set (cg := filepath_Join (telejobCgroup c) id) in *.
    constructor; simpl.
    + intros id' j'. destruct (decide (id = id')) as [<-|Hne].
      * rewrite lookup_insert_eq. intros H; inversion H; subst. reflexivity.
      * rewrite lookup_insert_ne by exact Hne. apply H1.
    + exact H2.
    + intros id' j'. destruct (decide (id = id')) as [<-|Hne].
      * rewrite lookup_insert_eq. intros H _; inversion H; subst. simpl.
        intros Hc. apply Hout, H4. left. exact Hc.
      * rewrite lookup_insert_ne by exact Hne. apply H3.
    + intros p. rewrite Hd, elem_of_union, elem_of_singleton, H4. split.
      * intros [->|[Hp|[Hp|(id' & j' & Hj' & Hr' & ->)]]].
        -- right; right. exists id. eexists. rewrite lookup_insert_eq.
           split; [reflexivity|]. split; reflexivity.
        -- auto.
        -- auto.
        -- right; right. exists id', j'. split; [|auto].
           rewrite lookup_insert_ne; [exact Hj'|]. intros <-.
           apply Hout, H4. right; right. exists id, j'.
           split; [exact Hj'|]. split; [exact Hr'|]. symmetry. apply (H1 id j' Hj').
      * intros [Hp|[Hp|(id' & j' & Hj' & Hr' & ->)]]; [auto|auto|].
        destruct (decide (id = id')) as [<-|Hne].
        -- rewrite lookup_insert_eq in Hj'. inversion Hj'; subst. left. reflexivity.
        -- rewrite lookup_insert_ne in Hj' by exact Hne.
           right; right; right. exists id', j'. auto.
  - eapply tidy_same; [| | |exact Ht]; [reflexivity|reflexivity|exact Hd].
Qed.

Lemma tidy_reap D0 b waitErr now c id w :
  tidy D0 b c w ->
  tidy D0 b (fst (Controller_reap no_faults waitErr now c id w))
            (snd (Controller_reap no_faults waitErr now c id w)).
Proof.
  intros Ht. unfold Controller_reap.
  destruct (jobs c !! id) as [j|] eqn:Hj; [|exact Ht].
  destruct (Running (status j)) eqn:Hr; [|exact Ht].
  pose proof Ht as [H1 H2 H3 H4].
  assert (Hin : cgroup j ∈ dirs w).
  { apply H4. right; right. exists id, j. auto. }
  pose proof (job_wait_no_faults waitErr now j w Hin) as Hd.
  destruct (job_wait no_faults waitErr now j w) as [w1 j1] eqn:Hw.
  assert (Hj1 : j1 = set_status j (waited_status waitErr now (status j))).
  { unfold job_wait in Hw. inversion Hw; reflexivity. }
  simpl in Hd. simpl. subst j1.
  assert (Hcg : cgroup j = filepath_Join (telejobCgroup c) id) by (apply H1, Hj).
  constructor; simpl.
  - intros id' j'. destruct (decide (id = id')) as [<-|Hne].
    + rewrite lookup_insert_eq. intros H; inversion H; subst. simpl. exact Hcg.
    + rewrite lookup_insert_ne by exact Hne. apply H1.
  - exact H2.
  - intros id' j'. destruct (decide (id = id')) as [<-|Hne].
    + rewrite lookup_insert_eq. intros H; inversion H; subst. simpl. discriminate.
    + rewrite lookup_insert_ne by exact Hne. apply H3.
  - intros p. rewrite Hd, elem_of_difference, elem_of_singleton, H4. split.
    + intros [[Hp|[Hp|(id' & j' & Hj' & Hr' & ->)]] Hne]; [auto|auto|].
      right; right. exists id', j'. split; [|auto].
      rewrite lookup_insert_ne; [exact Hj'|]. intros <-.
      rewrite Hj in Hj'. inversion Hj'; subst. apply Hne. reflexivity.
    + intros [Hp|[[Hb Hp]|(id' & j' & Hj' & Hr' & ->)]].
      * split; [auto|]. intros ->. exact (H3 id j Hj Hr Hp).
      * split; [auto|]. subst p. rewrite Hcg. intros Heq.
        symmetry in Heq. exact (filepath_Join_neq _ _ Heq).
      * destruct (decide (id = id')) as [<-|Hne].
        -- rewrite lookup_insert_eq in Hj'. inversion Hj'; subst.
           simpl in Hr'. discriminate Hr'.
        -- rewrite lookup_insert_ne in Hj' by exact Hne. split.
           ++ right; right. exists id', j'. auto.
           ++ rewrite (H1 id' j' Hj'), Hcg. intros Heq.
              apply filepath_Join_inj in Heq. congruence.
Qed.

Lemma tidy_reap_jobs D0 b ex ids : forall c w,
  tidy D0 b c w ->
  tidy D0 b (fst (reap_jobs no_faults ex ids c w))
            (snd (reap_jobs no_faults ex ids c w)).
Proof.
  induction ids as [|id ids IH]; intros c w Ht; simpl; [exact Ht|].
  pose proof (tidy_reap D0 b (fst (ex id)) (snd (ex id)) c id w Ht) as H.
  destruct (Controller_reap no_faults (fst (ex id)) (snd (ex id)) c id w) as [c1 w1].
  apply IH, H.
Qed.

(** What holds between two operations: before the shutdown the parent
    cgroup is there; after it, it is gone and no job runs. *)
Definition kept (D0 : gset string) (c : Controller) (w : World) : Prop :=
  if shutDown c
  then tidy D0 false c w /\
       forall id j, jobs c !! id = Some j -> Running (status j) = false
  else tidy D0 true c w.

Lemma StopAll_tidy D0 ex c w :
  shutDown c = false -> tidy D0 true c w ->
  let r := Controller_StopAll no_faults ex c w in
  snd r = None /\ dirs (snd (fst r)) = D0 /\ kept D0 (fst (fst r)) (snd (fst r)).
Proof.
  intros Hsd Ht.
  pose proof (Controller_StopAll_shutDown no_faults ex c w) as Hshut.
  unfold Controller_StopAll in *. rewrite Hsd in *.
  pose proof (stop_jobs_no_faults (map_to_list (jobs (set_shutDown c true))) w)
    as [Hd1 He1].
  destruct (stop_jobs no_faults _ w) as [w1 errs]. simpl in Hd1, He1. subst errs.
  assert (Ht1 : tidy D0 true (set_shutDown c true) w1)
    by (eapply tidy_same; [| | |exact Ht]; [reflexivity|reflexivity|exact Hd1]).
  pose proof (tidy_reap_jobs D0 true ex
                (map fst (map_to_list (jobs (set_shutDown c true))))
                (set_shutDown c true) w1 Ht1) as Ht2.
  pose proof (reap_jobs_stopped no_faults ex
                (map fst (map_to_list (jobs (set_shutDown c true))))
                (set_shutDown c true) w1) as Hst.
  pose proof (reap_jobs_keys no_faults ex
                (map fst (map_to_list (jobs (set_shutDown c true))))
                (set_shutDown c true) w1) as Hkeys.
  destruct (reap_jobs no_faults ex _ (set_shutDown c true) w1) as [c2 w2].
  simpl in Ht2, Hst, Hkeys, Hshut.
  assert (Hnone : forall id j, jobs c2 !! id = Some j -> Running (status j) = false).
  { intros id j Hj. destruct (Hst id j Hj) as [Hin _]. apply Hin.
    destruct (Hkeys id ltac:(eauto)) as [j0 Hj0].
    apply in_map_iff. exists (id, j0). split; [reflexivity|].
    apply list_elem_of_In, elem_of_map_to_list. exact Hj0. }
  pose proof Ht2 as [H1 H2 H3 H4].
  assert (Hin : telejobCgroup c2 ∈ dirs w2) by (apply H4; auto).
  unfold deleteCgroup.
  rewrite sys_no_faults_ok by (eapply natural_in_dir; eauto).
  rewrite sys_no_faults_ok by (eapply natural_in_dir; eauto).
  simpl. simpl in Hshut.
  assert (Hdirs : forall p, p ∈ dirs w2 ∖ {[telejobCgroup c2]} <-> p ∈ D0).
  { intros p. rewrite elem_of_difference, elem_of_singleton, H4. split.
    - intros [[Hp|[[_ Hp]|(id & j & Hj & Hr & _)]] Hne]; [exact Hp|contradiction|].
      rewrite (Hnone id j Hj) in Hr. discriminate Hr.
    - intros Hp. split; [auto|]. intros ->. contradiction. }
  split; [reflexivity|]. split; [apply set_eq, Hdirs|].
  unfold kept.
  match goal with |- context [shutDown ?c'] => assert (Hs' : shutDown c' = true) end.
  { destruct (deleteCgroup no_faults (telejobCgroup c2) w2). exact Hshut. }
  simpl in Hs'. rewrite Hs'. split; [|exact Hnone].
  constructor; simpl; [exact H1|exact H2|exact H3|].
  intros p. rewrite Hdirs. split; [auto|].
  intros [Hp|[[Hb _]|(id & j & Hj & Hr & _)]]; [exact Hp|discriminate Hb|].
  rewrite (Hnone id j Hj) in Hr. discriminate Hr.
Qed.

Lemma apply_op_kept D0 o c w :
  kept D0 c w ->
  kept D0 (fst (apply_op no_faults o (c, w))) (snd (apply_op no_faults o (c, w))).
Proof.
  intros Hk. unfold kept in Hk.
  destruct o as [now ow command args|ow id0|ow id0|waitErr now id0|ex]; simpl.
  - pose proof (Controller_Start_shutDown no_faults now c ow command args w) as Hs.
    unfold kept. rewrite Hs. destruct (shutDown c) eqn:Hsd.
    + unfold Controller_Start, Controller_isShutDown. rewrite Hsd.
      destruct (String.length command =? 0)%nat; exact Hk.
    + apply tidy_Start, Hk.
  - unfold kept. simpl.
    assert (Hd : dirs (fst (Controller_Stop no_faults c ow id0 w)) = dirs w).
    { unfold Controller_Stop. destruct (Controller_get c ow id0); [|reflexivity].
      apply job_stop_dirs. }
    destruct (shutDown c).
    + destruct Hk as [Ht Hn]. split; [|exact Hn].
      eapply tidy_same; [| | |exact Ht]; [reflexivity|reflexivity|exact Hd].
    + eapply tidy_same; [| | |exact Hk]; [reflexivity|reflexivity|exact Hd].
  - exact Hk.
  - pose proof (Controller_reap_shutDown no_faults waitErr now c id0 w) as Hs.
    unfold kept. rewrite Hs. destruct (shutDown c) eqn:Hsd.
    + destruct Hk as [Ht Hn]. unfold Controller_reap.
      destruct (jobs c !! id0) as [j|] eqn:Hj; [|split; assumption].
      rewrite (Hn id0 j Hj). split; assumption.
    + apply tidy_reap, Hk.
  - destruct (shutDown c) eqn:Hsd.
    + rewrite (StopAll_when_shut_down no_faults ex c w Hsd). simpl.
      unfold kept. rewrite Hsd. exact Hk.
    + apply (StopAll_tidy D0 ex c w Hsd Hk).
Qed.

Lemma run_ops_kept D0 ops : forall c w,
  kept D0 c w ->
  kept D0 (fst (run_ops no_faults ops (c, w))) (snd (run_ops no_faults ops (c, w))).
Proof.
  induction ops as [|o ops IH]; intros c w Hk; [exact Hk|].
  change (run_ops no_faults (o :: ops) (c, w))
    with (run_ops no_faults ops (apply_op no_faults o (c, w))).
  pose proof (apply_op_kept D0 o c w Hk) as H1.
  destruct (apply_op no_faults o (c, w)) as [c1 w1]. apply IH, H1.
Qed.

Lemma apply_options_wg opts : forall c,
  wg (fold_left apply_option opts c) = wg c.
Proof.
  induction opts as [|o opts IH]; intros c; simpl; [reflexivity|].
  rewrite IH. destruct o; reflexivity.
Qed.

(** A new controller has no job and no reaper. *)
Lemma NewController_wg F opts w w' c :
  NewController F opts w = (w', Ok c) -> wg c = 0.
Proof.
  unfold NewController. destruct (newTelejobCgroup F _ w) as [w1 [e|]];
    intros H; inversion H; subst. apply apply_options_wg.
Qed.

(** A [Start] that returns has counted its job: the cgroup it made was
    not there, so no running job was registered under the new id. *)
Lemma Controller_Start_wg D0 now c owner_ command args w :
  tidy D0 true c w -> wg_counts c ->
  wg_counts (fst (fst (Controller_Start no_faults now c owner_ command args w))).
Proof.
  intros Ht Hwg. unfold Controller_Start.
  destruct (String.length command =? 0)%nat; [exact Hwg|].
  destruct (Controller_isShutDown c); [exact Hwg|].
  unfold newJob.
  destruct (newStartedCmd no_faults _ command args _ _ w) as [w1 [cm|e]] eqn:Hc;
    apply newStartedCmd_no_faults in Hc; simpl in Hc;
    destruct Hc as [(Hin & Hd & e' & He)|(Hout & Hd & cm' & Hcm)];
    try discriminate; simpl; try exact Hwg.
  pose proof Ht as [H1 H2 H3 H4].
  set (id := FormatUint (wrap64 (maxID c + 1))) in *.
  unfold wg_counts, running. simpl.
  rewrite (running_insert_new c id); [rewrite Hwg; lia|reflexivity|].
  intros j0 Hj0. destruct (Running (status j0)) eqn:Hr; [|reflexivity].
  exfalso. apply Hout, H4. right; right. exists id, j0.
  split; [exact Hj0|]. split; [exact Hr|]. symmetry. apply (H1 id j0 Hj0).
Qed.

Lemma apply_op_wg D0 o c w :
  kept D0 c w -> wg_counts c -> wg_counts (fst (apply_op no_faults o (c, w))).
Proof.
  intros Hk Hwg. unfold kept in Hk.
  destruct o as [now ow command args|ow id0|ow id0|waitErr now id0|ex]; simpl.
  - destruct (shutDown c) eqn:Hsd.
    + unfold Controller_Start, Controller_isShutDown. rewrite Hsd.
      destruct (String.length command =? 0)%nat; exact Hwg.
    + eapply Controller_Start_wg; eauto.
  - exact Hwg.
  - exact Hwg.
  - apply Controller_reap_wg, Hwg.
  - apply Controller_StopAll_wg, Hwg.
Qed.

Lemma run_ops_wg D0 ops : forall c w,
  kept D0 c w -> wg_counts c -> wg_counts (fst (run_ops no_faults ops (c, w))).
Proof.
  induction ops as [|o ops IH]; intros c w Hk Hwg; [exact Hwg|].
  change (run_ops no_faults (o :: ops) (c, w))
    with (run_ops no_faults ops (apply_op no_faults o (c, w))).
  pose proof (apply_op_kept D0 o c w Hk) as H1.
  pose proof (apply_op_wg D0 o c w Hk Hwg) as H2.
  destruct (apply_op no_faults o (c, w)) as [c1 w1]. apply IH; [exact H1|exact H2].
Qed.

(** X19. A clean shutdown leaves no cgroup behind, when the calls on the
    controller do not overlap: each of [Start], [Stop], [Status] returns
    before the next call begins, the reapers finish between calls, and
    [StopAll] comes last. On a system whose calls fail only for the state of
    the directories, after a controller was made and used by such calls,
    the wait group counts the running jobs, [StopAll] returns [nil] with the
    counter at zero, no job runs, and the directories are exactly those
    from before the controller was made: the cgroup of every job and the
    parent cgroup are gone. (A [Start] that overlaps [StopAll] is no such
    run: its job can be registered, or its cgroup made, after the loop of
    [StopAll].) *)
Theorem clean_shutdown_leaves_no_cgroup opts w0 w1 c0 ops c w ex c' w' r :
  NewController no_faults opts w0 = (w1, Ok c0) ->
  run_ops no_faults ops (c0, w1) = (c, w) ->
  Controller_StopAll no_faults ex c w = (c', w', r) ->
  wg_counts c /\
  r = None /\ dirs w' = dirs w0 /\
  (forall id j, jobs c' !! id = Some j -> Running (status j) = false) /\
  wg c' = 0.
Proof.
  intros Hnew Hrun Hstop.
  destruct (NewController_success no_faults opts w0 w1 c0 Hnew)
    as (Hout & Hd & Hj & Hsd).
  assert (H0 : kept (dirs w0) c0 w1).
  { unfold kept. rewrite Hsd. constructor.
    - intros id j H. rewrite Hj, lookup_empty in H. discriminate H.
    - exact Hout.
    - intros id j H. rewrite Hj, lookup_empty in H. discriminate H.
    - intros p. rewrite Hd, elem_of_union, elem_of_singleton. split.
      + intros [->|Hp]; auto.
      + intros [Hp|[[_ ->]|(id & j & H & _)]]; [auto|auto|].
        rewrite Hj, lookup_empty in H. discriminate H. }
  assert (Hwg0 : wg_counts c0).
  { unfold wg_counts, running. rewrite Hj, map_filter_empty, map_size_empty.
    exact (NewController_wg no_faults opts w0 w1 c0 Hnew). }
  pose proof (run_ops_kept (dirs w0) ops c0 w1 H0) as Hk.
  pose proof (run_ops_wg (dirs w0) ops c0 w1 H0 Hwg0) as Hwg.
  rewrite Hrun in Hk, Hwg. simpl in Hk, Hwg.
  split; [exact Hwg|].
  pose proof (Controller_StopAll_wg no_faults ex c w Hwg) as Hwg'.
  rewrite Hstop in Hwg'. simpl in Hwg'.
  destruct (shutDown c) eqn:Hs.
  - rewrite (StopAll_when_shut_down no_faults ex c w Hs) in Hstop.
    inversion Hstop; subst; clear Hstop. unfold kept in Hk. rewrite Hs in Hk.
    destruct Hk as [[H1 H2 H3 H4] Hn]. split; [reflexivity|].
    split; [|split; [exact Hn|apply wg_counts_idle; assumption]].
    apply set_eq. intros p. rewrite H4. split; [|auto].
    intros [Hp|[[Hb _]|(id & j & Hj' & Hr & _)]]; [exact Hp|discriminate Hb|].
    rewrite (Hn id j Hj') in Hr. discriminate Hr.
  - unfold kept in Hk. rewrite Hs in Hk.
    destruct (StopAll_tidy (dirs w0) ex c w Hs Hk) as (Hr & Hdirs & Hkept).
    rewrite Hstop in Hr, Hdirs, Hkept. simpl in Hr, Hdirs, Hkept.
    split; [exact Hr|]. split; [exact Hdirs|].
    pose proof (Controller_StopAll_shutDown no_faults ex c w) as Hshut.
    rewrite Hstop in Hshut. simpl in Hshut.
    unfold kept in Hkept. rewrite Hshut in Hkept.
    split; [apply Hkept|]. apply wg_counts_idle; [exact Hwg'|apply Hkept].
Qed.

(** ** The service, its interceptor and the client's table *)

Lemma timeFromPB_pbTimestamp (t : time_Time) :
  t <> epoch -> timeFromPB (pbTimestamp t) = t.
Proof.
  intros Hne. unfold pbTimestamp, IsZero.
  destruct (t =? 0) eqn:Hz.
  - apply Z.eqb_eq in Hz. subst. reflexivity.
  - unfold timeFromPB, Pb.AsTime, Pb.timestamppb_New. simpl.
    unfold GoTime.Unix, GoTime.Nanosecond, GoTime.time_Unix.
    pose proof (Z.div_mod t 1000000000 ltac:(lia)) as Hdm.
    destruct ((t / 1000000000 - GoTime.unixToInternal =? 0)
              && (t mod 1000000000 =? 0)) eqn:Hb.
    + exfalso. apply andb_true_iff in Hb as [H1 H2].
      apply Z.eqb_eq in H1, H2. apply Hne. unfold epoch, GoTime.time_Unix.
      unfold GoTime.unixToInternal in *. lia.
    + lia.
Qed.

(** X20. A status survives the wire: [statusFromPB] gives back the status
    [pbJobStatus] was made from, the zero times included, provided neither
    of its times is the instant of the Unix epoch. That one instant is
    taken for the zero time on the way back. *)
Theorem statusFromPB_pbJobStatus (s : Status) :
  Started s <> epoch -> Stopped s <> epoch ->
  statusFromPB (pbJobStatus s) = s /\
  timeFromPB (pbTimestamp epoch) = 0 /\ epoch <> 0.
Proof.
  intros H1 H2. split; [|split; [reflexivity|discriminate]].
  destruct s as [id command args started running exitCode stopped].
  unfold statusFromPB, pbJobStatus. simpl in *.
  rewrite (timeFromPB_pbTimestamp started H1), (timeFromPB_pbTimestamp stopped H2).
  destruct running; reflexivity.
Qed.

Lemma FormatInt_parse (x : Z) :
  NilZero.int_of_string (FormatInt x) = Some (Z.to_int x).
Proof.
  unfold FormatInt. apply NilZero.isi; destruct x; simpl; try discriminate.
  all: intros H; inversion H as [H'];
    exact (DecimalPos.Unsigned.to_uint_nonnil _ H').
Qed.

(** X21. The exit column of the client's table tells the exit code: it is
    empty for [-2] only, reads [signal] for [-1] only, and two different
    exit codes never print the same. *)
Theorem exitCodeString_tells_the_code :
  (forall a b, exitCodeString a = exitCodeString b -> a = b) /\
  (forall e, exitCodeString e = "" <-> e = NotTerminated) /\
  (forall e, exitCodeString e = "signal" <-> e = TerminatedBySignal).
Proof.
  assert (Hempty : forall x, FormatInt x <> "").
  { intros x H. pose proof (FormatInt_parse x) as Hp. rewrite H in Hp.
    discriminate Hp. }
  assert (Hsig : forall x, FormatInt x <> "signal").
  { intros x H. pose proof (FormatInt_parse x) as Hp. rewrite H in Hp.
    discriminate Hp. }
  assert (Hinj : forall x y, FormatInt x = FormatInt y -> x = y).
  { intros x y H. apply DecimalZ.to_int_inj.
    pose proof (FormatInt_parse x) as Hx. pose proof (FormatInt_parse y) as Hy.
    rewrite H in Hx. congruence. }
  assert (H2 : forall e, exitCodeString e = "" <-> e = NotTerminated).
  { intros e. unfold exitCodeString.
    destruct (e =? NotTerminated) eqn:H1.
    - apply Z.eqb_eq in H1. tauto.
    - apply Z.eqb_neq in H1. destruct (e =? TerminatedBySignal).
      + split; [discriminate|contradiction].
      + split; [intros H; destruct (Hempty e H)|contradiction]. }
  assert (H3 : forall e, exitCodeString e = "signal" <-> e = TerminatedBySignal).
  { intros e. unfold exitCodeString.
    destruct (e =? NotTerminated) eqn:H1.
    - apply Z.eqb_eq in H1. subst. split; discriminate.
    - destruct (e =? TerminatedBySignal) eqn:H4.
      + apply Z.eqb_eq in H4. tauto.
      + apply Z.eqb_neq in H4.
        split; [intros H; destruct (Hsig e H)|contradiction]. }
  split; [|split; assumption].
  intros a b H.
  destruct (Z.eq_dec a NotTerminated) as [Ha|Ha].
  { subst a. symmetry. apply H2. rewrite <- H. reflexivity. }
  destruct (Z.eq_dec b NotTerminated) as [Hb|Hb].
  { subst b. apply H2. rewrite H. reflexivity. }
  destruct (Z.eq_dec a TerminatedBySignal) as [Ha'|Ha'].
  { subst a. symmetry. apply H3. rewrite <- H. reflexivity. }
  destruct (Z.eq_dec b TerminatedBySignal) as [Hb'|Hb'].
  { subst b. apply H3. rewrite H. reflexivity. }
  unfold exitCodeString in H.
  apply Z.eqb_neq in Ha, Hb, Ha', Hb'. rewrite Ha, Hb, Ha', Hb' in H.
  apply Hinj, H.
Qed.

Section ServiceFacts.

Variable F : faults.
Variable Quote : string -> string.
Variable Error : error -> string.
Variable Format : time_Time -> string -> string.
Variable State_String : Pb.State -> string.

(** X22. What the table shows for a job that runs, read through the
    service: its id, the command with its arguments after single spaces,
    [running], the start time, and nothing in the columns of the stop time
    and of the exit code. *)
Theorem status_line_of_a_running_job (s : Status) (layout : string) :
  Running s = true -> ExitCode s = NotTerminated -> Stopped s = 0 ->
  status_line Format State_String (pbJobStatus s) layout
  = (ID s ++ tab ++ String.concat " " (Command s :: Args s) ++ tab
     ++ "running" ++ tab ++ pbTimeString Format (pbTimestamp (Started s)) layout
     ++ tab ++ tab ++ newline)%string.
Proof.
  intros Hr He Hs. unfold status_line, pbJobStatus. simpl.
  rewrite Hr, He, Hs. reflexivity.
Qed.

(** X23. [Status] and [Stop] through the interceptor. The owner of a call
    is the common name of the client's first certificate. For an id that is
    not registered both answer [NotFound]; for the job of another owner
    both answer [PermissionDenied]; in either case nothing is touched. For
    the owner's own job [Status] replies with the snapshot, and [Stop]
    replies, or fails with [Internal] when the kill was refused; on a job
    that does not run it replies and does nothing. *)
Theorem Status_and_Stop_through_the_service ctx cn id c w :
  extractCommonName ctx = inl cn ->
  match jobs c !! id with
  | None =>
      unaryInterceptorCN ctx id (Service_Status Quote Error) (c, w)
      = (c, w, Fail {| status_code := NotFound;
                       status_message := "job " ++ Quote id ++ " not found" |}) /\
      unaryInterceptorCN ctx id (Service_Stop Quote Error F) (c, w)
      = (c, w, Fail {| status_code := NotFound;
                       status_message := "job " ++ Quote id ++ " not found" |})
  | Some j =>
      if String.eqb (owner j) cn
      then
        unaryInterceptorCN ctx id (Service_Status Quote Error) (c, w)
        = (c, w, Reply (pbJobStatus (status j))) /\
        (exists w' r,
            unaryInterceptorCN ctx id (Service_Stop Quote Error F) (c, w)
            = (c, w', r) /\
            (r = Reply tt \/
             exists m, r = Fail {| status_code := Internal; status_message := m |})) /\
        (Running (status j) = false ->
         unaryInterceptorCN ctx id (Service_Stop Quote Error F) (c, w)
         = (c, w, Reply tt))
      else
        unaryInterceptorCN ctx id (Service_Status Quote Error) (c, w)
        = (c, w, Fail {| status_code := PermissionDenied;
                         status_message := "no ownership of job " ++ Quote id |}) /\
        unaryInterceptorCN ctx id (Service_Stop Quote Error F) (c, w)
        = (c, w, Fail {| status_code := PermissionDenied;
                         status_message := "no ownership of job " ++ Quote id |})
  end.
Proof.
  intros Hcn. unfold unaryInterceptorCN. rewrite Hcn.
  unfold Service_Status, Service_Stop, extractOwner, WithOwner. simpl.
  unfold Controller_Status, Controller_Stop, Controller_get.
  destruct (jobs c !! id) as [j|] eqn:Hj.
  - destruct (String.eqb (owner j) cn) eqn:Ho; simpl.
    + split; [reflexivity|]. split.
      * destruct (job_stop F j w) as [w' [e|]] eqn:Hs.
        -- exists w'. eexists. split; [reflexivity|]. right.
           destruct (job_stop_error F j w w' e Hs) as (_ & _ & Hnf & Hun & _).
           unfold statusError_of. rewrite Hnf, Hun. eauto.
        -- exists w'. eexists. split; [reflexivity|]. left. reflexivity.
      * intros Hr. unfold job_stop. rewrite Hr. reflexivity.
    + split; reflexivity.
  - split; reflexivity.
Qed.

(** X24. [Start] through the interceptor. A reply carries the id of a job
    that is registered for the caller and runs the command of the request.
    A failure has the code [InvalidArgument] or [Internal] and registers
    nothing: an empty command is [InvalidArgument] and a controller that is
    shut down is [Internal], both without a call to the system; otherwise
    the code is [InvalidArgument] only when the start of the process
    itself failed. *)
Theorem Start_through_the_service now ctx cn req c w c' w' r :
  extractCommonName ctx = inl cn ->
  unaryInterceptorCN ctx req (Service_Start Error F now) (c, w) = (c', w', r) ->
  match r with
  | Reply resp =>
      Controller_Status c' cn (Pb.StartResponse_Id resp)
      = Ok {| ID := Pb.StartResponse_Id resp; Command := Pb.Command_ req;
              Args := Pb.Arguments_ req; Started := now; Running := true;
              ExitCode := NotTerminated; Stopped := 0 |}
  | Fail e =>
      (status_code e = InvalidArgument \/ status_code e = Internal) /\
      jobs c' = jobs c /\
      (Pb.Command_ req = "" ->
         e = {| status_code := InvalidArgument; status_message := "empty command" |}
         /\ c' = c /\ w' = w) /\
      (Pb.Command_ req <> "" -> shutDown c = true ->
         status_code e = Internal /\ c' = c /\ w' = w) /\
      (status_code e = InvalidArgument ->
         Pb.Command_ req = "" \/
         exists err cg,
           In (StartProcess (Pb.Command_ req) (Pb.Arguments_ req) cg, Some err)
              (new_calls w w'))
  | Unauthenticated _ | Panic => False
  end.
Proof.
  intros Hcn. unfold unaryInterceptorCN. rewrite Hcn.
  unfold Service_Start, extractOwner, WithOwner. simpl.
  destruct (String.length (Pb.Command_ req) =? 0)%nat eqn:Hlen.
  - intros H; inversion H; subst; clear H.
    split; [left; reflexivity|]. split; [reflexivity|].
    assert (He : Pb.Command_ req = "")
      by (destruct (Pb.Command_ req); [reflexivity|discriminate Hlen]).
    split; [auto|]. split; [intros Hne; contradiction|].
    intros _. left. exact He.
  - assert (Hne : Pb.Command_ req <> "").
    { intros He. rewrite He in Hlen. discriminate Hlen. }
    destruct (Controller_Start F now c cn (Pb.Command_ req) (Pb.Arguments_ req) w)
      as [[c1 w1] [id|err]] eqn:Hs.
    + intros H; inversion H; subst; clear H. simpl.
      unfold Controller_Start in Hs. rewrite Hlen in Hs.
      destruct (Controller_isShutDown c); [discriminate Hs|].
      unfold newJob in Hs.
      destruct (newStartedCmd F _ _ _ _ _ w) as [w2 [cm|e]];
        inversion Hs; subst; clear Hs.
      unfold Controller_Status, Controller_get. simpl.
      rewrite lookup_insert_eq. simpl. rewrite String.eqb_refl. reflexivity.
    + unfold Controller_Start in Hs. rewrite Hlen in Hs.
      unfold Controller_isShutDown in Hs.
      destruct (shutDown c) eqn:Hsd.
      * inversion Hs; subst; clear Hs. simpl.
        intros H; inversion H; subst; clear H. simpl.
        split; [right; reflexivity|]. split; [reflexivity|].
        split; [intros He; contradiction|]. split; [auto|]. discriminate.
      * unfold newJob in Hs.
        destruct (newStartedCmd F _ _ _ _ _ w) as [w2 [cm|e]] eqn:Hc;
          inversion Hs; subst; clear Hs.
        apply newStartedCmd_inv in Hc. simpl in Hc.
        inversion Hc as [e0 Hmade|e0 Hl Hd|e0 D o Hl HD|]; subst; simpl.
        -- inversion Hmade; subst; simpl;
             intros H; inversion H; subst; clear H; simpl;
             (split; [right; reflexivity|]); (split; [reflexivity|]);
             (split; [intros He; contradiction|]);
             (split; [intros _ Hx; discriminate Hx|]); discriminate.
        -- intros H; inversion H; subst; clear H; simpl.
           split; [right; reflexivity|]. split; [reflexivity|].
           split; [intros He; contradiction|].
           split; [intros _ Hx; discriminate Hx|]. discriminate.
        -- intros H; inversion H; subst; clear H; simpl.
           split; [left; reflexivity|]. split; [reflexivity|].
           split; [intros He; contradiction|].
           split; [intros _ Hx; discriminate Hx|].
           intros _. right. eexists e0, _.
           rewrite (new_calls_app _ _ _ Hl).
           apply in_cons, in_or_app. right. simpl. auto.
Qed.

(** X25. Without a client certificate nothing runs. When the peer of a
    call cannot be read, has no TLS information or shows no certificate,
    both interceptors answer [Unauthenticated] with the text of
    [ErrCommonName] and do not call the handler: the state of the server is
    as before. Otherwise the handler is called once, and the owner it
    reads is the common name of the first certificate, whatever the
    context of the call held under the key of the owner. *)
Theorem interceptors_set_the_owner {Req Resp Srv Stream S : Type}
    (ctx : Context) (req : Req)
    (handler : Context -> Req -> S -> S * rpc Resp)
    (srv : Srv) (stream : Stream) (stream_Context : Stream -> Context)
    (shandler : Srv -> wrappedServerStream Stream -> S -> S * rpc unit) (s : S) :
  stream_Context stream = ctx ->
  match ctx_peer ctx with
  | Some {| Peer_AuthInfo := TLSInfo (c :: _) |} =>
      exists ctx',
        extractOwner ctx' = Some (Subject_CommonName c) /\
        ctx_peer ctx' = ctx_peer ctx /\
        unaryInterceptorCN ctx req handler s = handler ctx' req s /\
        streamInterceptorCN srv stream stream_Context shandler s
        = shandler srv {| ServerStream := stream; wrapped_ctx := ctx' |} s /\
        wrapped_Context {| ServerStream := stream; wrapped_ctx := ctx' |} = ctx'
  | _ =>
      exists msg,
        String.prefix ErrCommonName_text msg = true /\
        unaryInterceptorCN ctx req handler s = (s, Unauthenticated msg) /\
        streamInterceptorCN srv stream stream_Context shandler s
        = (s, Unauthenticated msg)
  end.
Proof.
  intros Hctx. unfold unaryInterceptorCN, streamInterceptorCN, extractCommonName.
  rewrite Hctx.
  destruct (ctx_peer ctx) as [[[[|c certs]|]]|] eqn:Hp; simpl.
  - eexists. split; [|split; reflexivity]. reflexivity.
  - exists (WithOwner ctx (Subject_CommonName c)).
    split; [reflexivity|]. split; [exact Hp|]. repeat split; reflexivity.
  - eexists. split; [|split; reflexivity]. reflexivity.
  - eexists. split; [|split; reflexivity]. reflexivity.
Qed.

End ServiceFacts.

Section CredFacts.

Variables Certificate CertPool : Type.
Variable LoadX509KeyPair : string -> string -> option Certificate.
Variable SystemCertPool : option CertPool.
Variable ReadFile : string -> option (list Byte.byte).
Variable AppendCertsFromPEM : list Byte.byte -> CertPool * bool.

(** X26. A server that was made verifies its clients. Its TLS
    configuration requires and verifies a client certificate, allows no
    version below TLS 1.3, and trusts exactly the pool read from the client
    CA file, which was named: the pool of the system is never used for
    clients. When the credentials are bad the error wraps [ErrCredentials]
    and [ErrCASetup] or [ErrCertLoad], and no cgroup was made: the
    controller comes after the credentials. *)
Theorem NewServer_verifies_its_clients F serverCert serverKey clientCA opts w w' r :
  Creds.NewServer Certificate CertPool LoadX509KeyPair SystemCertPool ReadFile
    AppendCertsFromPEM F serverCert serverKey clientCA opts w = (w', r) ->
  match r with
  | inl s =>
      Creds.ClientAuth _ _ (Creds.server_tls _ _ s) = Creds.RequireAndVerifyClientCert /\
      Creds.MinVersion _ _ (Creds.server_tls _ _ s) = Creds.VersionTLS13 /\
      clientCA <> "" /\
      (exists b pool,
          ReadFile clientCA = Some b /\ AppendCertsFromPEM b = (pool, true) /\
          Creds.ClientCAs _ _ (Creds.server_tls _ _ s) = Some pool) /\
      (exists certificate,
          LoadX509KeyPair serverCert serverKey = Some certificate /\
          Creds.Certificates _ _ (Creds.server_tls _ _ s) = [certificate]) /\
      NewController F opts w = (w', Ok (Creds.server_controller _ _ s))
  | inr (inl e) =>
      w' = w /\ In Creds.ErrCredentials e /\
      (In Creds.ErrCASetup e \/ In Creds.ErrCertLoad e)
  | inr (inr e) => NewController F opts w = (w', Err e)
  end.
Proof.
  unfold Creds.NewServer, Creds.serverTLSConfig, Creds.newCertPool.
  destruct (String.eqb clientCA "") eqn:Hca.
  - intros H; inversion H; subst. simpl. intuition auto.
  - apply String.eqb_neq in Hca.
    destruct (LoadX509KeyPair serverCert serverKey) as [certificate|];
      [|intros H; inversion H; subst; simpl; intuition auto].
    destruct (ReadFile clientCA) as [b|];
      [|intros H; inversion H; subst; simpl; intuition auto].
    destruct (AppendCertsFromPEM b) as [pool [|]] eqn:Hb; simpl;
      [|intros H; inversion H; subst; simpl; intuition auto].
    destruct (NewController F opts w) as [w1 [c|e]];
      intros H; inversion H; subst; simpl; [|reflexivity].
    repeat split; eauto.
Qed.

(** X27. A client trusts the CA it names. Its TLS configuration allows no
    version below TLS 1.3, presents the key pair that was loaded, and
    takes the roots of trust from the server CA file when one is named and
    from the pool of the system only when none is; an error wraps
    [ErrCertLoad] or [ErrCASetup]. *)
Theorem client_trusts_the_named_CA clientCert clientKey serverCA r :
  Creds.clientTLSConfig Certificate CertPool LoadX509KeyPair SystemCertPool
    ReadFile AppendCertsFromPEM clientCert clientKey serverCA = r ->
  match r with
  | inl cfg =>
      Creds.MinVersion _ _ cfg = Creds.VersionTLS13 /\
      (exists certificate,
          LoadX509KeyPair clientCert clientKey = Some certificate /\
          Creds.Certificates _ _ cfg = [certificate]) /\
      exists pool,
        Creds.RootCAs _ _ cfg = Some pool /\
        (serverCA = "" -> SystemCertPool = Some pool) /\
        (serverCA <> "" ->
         exists b, ReadFile serverCA = Some b /\ AppendCertsFromPEM b = (pool, true))
  | inr e => e = [Creds.ErrCertLoad] \/ e = [Creds.ErrCASetup]
  end.
Proof.
  intros <-. unfold Creds.clientTLSConfig, Creds.newCertPool.
  destruct (LoadX509KeyPair clientCert clientKey) as [certificate|]; [|auto].
  destruct (String.eqb serverCA "") eqn:Hca.
  - apply String.eqb_eq in Hca. subst.
    destruct SystemCertPool as [pool|]; [|auto]. simpl.
    split; [reflexivity|]. split; [eauto|].
    exists pool. split; [reflexivity|]. split; [auto|]. intros H. contradiction.
  - apply String.eqb_neq in Hca.
    destruct (ReadFile serverCA) as [b|]; [|auto].
    destruct (AppendCertsFromPEM b) as [pool [|]] eqn:Hb; simpl; [|auto].
    split; [reflexivity|]. split; [eauto|].
    exists pool. split; [reflexivity|]. split; [intros H; contradiction|].
    intros _. eauto.
Qed.

End CredFacts.

(** * Part III: the theorems on the runs of [Scenario] *)

(** After [StopAll] and two more calls, [Start] answers [ErrShutdown] and
    [StopAll] does nothing. *)
Lemma StopAll_is_terminal_run :
  (forall now owner_ command args,
      command <> "" ->
      exists e,
        Controller_Start no_faults now Scenario.after_stop.1 owner_ command args
          Scenario.after_stop.2
        = (Scenario.after_stop.1, Scenario.after_stop.2, Err e)
        /\ Is e ErrShutdown = true) /\
  (forall ex',
      Controller_StopAll no_faults ex' Scenario.after_stop.1 Scenario.after_stop.2
      = (Scenario.after_stop.1, Scenario.after_stop.2, None)).
Proof.
  apply (StopAll_is_terminal no_faults Scenario.all_killed
           (Scenario.started no_faults).1.1 (Scenario.started no_faults).1.2
           Scenario.stopped.1.1 Scenario.stopped.1.2 Scenario.stopped.2
           [OpStatus "alice" "1"; OpStop "alice" "1"]).
  - vm_compute. reflexivity.
  - vm_compute. reflexivity.
Defined.

(** The job of [alice] is still hers after it ended, a second job was
    started and all was stopped: its snapshot says it exited with status 0
    at time 5. *)
Lemma registered_job_stays_run :
  exists j,
    jobs Scenario.later.1 !! "1" = Some j /\ owner j = "alice" /\
    Controller_Status Scenario.later.1 "alice" "1" = Ok (status j) /\
    Controller_Stop no_faults Scenario.later.1 "alice" "1" Scenario.later.2
    = (Scenario.later.2, None) /\
    ExitCode (status j) = 0 /\ Stopped (status j) = 5.
Proof.
  destruct (proj2 (registered_job_stays no_faults 1
                     (Scenario.fresh no_faults).1 "alice" "sleep" ["100"]
                     (Scenario.fresh no_faults).2
                     (Scenario.started no_faults).1.1
                     (Scenario.started no_faults).1.2 "1"
                     Scenario.later_ops Scenario.later.1 Scenario.later.2
                     ltac:(vm_compute; reflexivity)
                     ltac:(vm_compute; reflexivity))
             ltac:(vm_compute; reflexivity))
    as (j & Hj & Ho & Hs & _ & Hn).
  exists j. split; [exact Hj|]. split; [exact Ho|]. split; [exact Hs|].
  assert (Hj' := Hj). vm_compute in Hj'. inversion Hj' as [Hj'']. clear Hj'.
  split; [|split; reflexivity].
  apply Hn. rewrite <- Hj''. reflexivity.
Defined.


(** A fresh controller has given out no id, and the start of a binary that
    does not exist moves the counter to 1 and registers nothing. *)
Lemma Start_spends_an_id_per_attempt_run :
  maxID (Scenario.fresh Scenario.no_such_binary).1 = 0 /\
  maxID Scenario.nope.1.1 = 1 /\
  jobs Scenario.nope.1.1 = jobs (Scenario.fresh Scenario.no_such_binary).1.
Proof.
  destruct (Start_spends_an_id_per_attempt Scenario.no_such_binary)
    as [Hnew Hstart].
  destruct (Hnew [WithLimits Scenario.alice_limits] Scenario.world0
              (Scenario.fresh Scenario.no_such_binary).2
              (Scenario.fresh Scenario.no_such_binary).1
              ltac:(vm_compute; reflexivity)) as (H0 & _ & _).
  destruct (Hstart 1 (Scenario.fresh Scenario.no_such_binary).1
              "alice" "NOPE" []
              (Scenario.fresh Scenario.no_such_binary).2
              Scenario.nope.1.1 Scenario.nope.1.2 Scenario.nope.2
              ltac:(vm_compute; reflexivity)
              ltac:(discriminate)
              ltac:(vm_compute; reflexivity)) as [Hm Hr].
  split; [exact H0|]. split; [rewrite Hm, H0; reflexivity|exact Hr].
Defined.

(** The cgroup of the first job with the limits of [alice]: a directory,
    then the three writes; the contents of the first two; and the content
    of [cpu.max] for a number of CPUs whose product is no [int]. *)
Lemma newJobCgroup_writes_the_limits_run :
  new_calls (Scenario.fresh no_faults).2
    (newJobCgroup no_faults "/sys/fs/cgroup/telejob/1" Scenario.alice_limits
       (Scenario.fresh no_faults).2).1
  = [ok (Mkdir "/sys/fs/cgroup/telejob/1");
     ok (WriteFile "/sys/fs/cgroup/telejob/1" "cpu.max" ("50000" ++ newline));
     ok (WriteFile "/sys/fs/cgroup/telejob/1" "memory.max" ("1024000" ++ newline));
     ok (WriteFile "/sys/fs/cgroup/telejob/1" "io.max" "252:1 rbps=1000000")] /\
  (0 <? CPUs Scenario.alice_limits)%float = true /\
  cpu_max_content Scenario.alice_limits = ("50000" ++ newline)%string /\
  memory_max_content Scenario.alice_limits = ("1024000" ++ newline)%string /\
  cpu_max_content {| CPUs := 1e15; MemoryKiB := 0; IO := [] |}
  = ("-9223372036854775808" ++ newline)%string.
Proof.
  destruct (newJobCgroup_writes_the_limits no_faults)
    as (Hcalls & _ & Hcpu & _ & Hmem & _ & _).
  split; [|split; [|split; [|split]]].
  - rewrite (Hcalls "/sys/fs/cgroup/telejob/1" Scenario.alice_limits
               (Scenario.fresh no_faults).2
               (newJobCgroup no_faults "/sys/fs/cgroup/telejob/1"
                  Scenario.alice_limits (Scenario.fresh no_faults).2).1
               ltac:(vm_compute; reflexivity)).
    vm_compute. reflexivity.
  - vm_compute. reflexivity.
  - pose proof (Hcpu Scenario.alice_limits ltac:(vm_compute; reflexivity)) as H.
    assert (Hf : floor_float (CPUs Scenario.alice_limits * 100000) = Some 50000)
      by (vm_compute; reflexivity).
    rewrite Hf in H. destruct H as [_ H]. rewrite H. vm_compute. reflexivity.
  - rewrite (Hmem Scenario.alice_limits
               ltac:(vm_compute; discriminate) ltac:(vm_compute; reflexivity)).
    vm_compute. reflexivity.
  - pose proof (Hcpu {| CPUs := 1e15; MemoryKiB := 0; IO := [] |}
                  ltac:(vm_compute; reflexivity)) as H.
    assert (Hf : floor_float (CPUs {| CPUs := 1e15; MemoryKiB := 0; IO := [] |}
                              * 100000)
                 = Some 100000000000000000000)
      by (vm_compute; reflexivity).
    rewrite Hf in H. destruct H as [_ H]. rewrite H. vm_compute. reflexivity.
Defined.

(** A reader that reads ["hi"], follows, and meets the close: what it read
    is the log; a reader that comes after the close reads the same; and so
    does a reader that was waiting in [Read] before the first byte was
    written, with a buffer of one byte from its second call on. *)
Lemma reader_reads_the_full_log_run :
  Logs.run Scenario.hello_events Logs.newStartedLogDispatcher
  = Some Scenario.hello_state /\
  (exists r bs,
      Logs.readers Scenario.hello_state !! 0%nat = Some r /\
      Logs.read_until_EOF (Logs.returns r) = Some bs /\
      bs = Scenario.hi /\
      bs = Logs.fullLog (Logs.dispatcher Scenario.hello_state)) /\
  (exists s' r',
      Logs.late_reader 1 Scenario.hello_state = Some s' /\
      Logs.readers s' !! 1%nat = Some r' /\
      Logs.read_until_EOF (Logs.returns r') = Some Scenario.hi) /\
  Logs.run Scenario.early_events Logs.newStartedLogDispatcher
  = Some Scenario.early_state /\
  (exists s' r',
      Logs.read_to_the_end 1 0 Scenario.early_state = Some s' /\
      Logs.readers s' !! 0%nat = Some r' /\
      Logs.returns r' = [Logs.RData Scenario.hi; Logs.REOF] /\
      Logs.read_until_EOF (Logs.returns r') = Some Scenario.hi).
Proof.
  destruct reader_reads_the_full_log as (Hread & Hlate & Hend).
  assert (Hrun : Logs.run Scenario.hello_events Logs.newStartedLogDispatcher
                 = Some Scenario.hello_state) by (vm_compute; reflexivity).
  assert (Hearly : Logs.run Scenario.early_events Logs.newStartedLogDispatcher
                   = Some Scenario.early_state) by (vm_compute; reflexivity).
  split; [exact Hrun|]. split; [|split; [|split; [exact Hearly|]]].
  - eexists _, _. split; [vm_compute; reflexivity|].
    split; [vm_compute; reflexivity|]. split; [reflexivity|].
    eapply (Hread _ _ 0%nat _ _ Hrun); vm_compute; reflexivity.
  - destruct (Hlate _ _ 1%nat Hrun ltac:(vm_compute; reflexivity) ltac:(lia))
      as (s' & r' & Hl & Hr' & He').
    exists s', r'. split; [exact Hl|]. split; [exact Hr'|exact He'].
  - destruct (Hend _ _ 0%nat _ 1%nat Hearly ltac:(vm_compute; reflexivity)
                ltac:(vm_compute; reflexivity) ltac:(vm_compute; reflexivity)
                ltac:(lia))
      as (s' & r' & Hl & Hr' & He').
    exists s', r'. split; [exact Hl|]. split; [exact Hr'|].
    split; [|exact He'].
    assert (Hs : Logs.read_to_the_end 1 0 Scenario.early_state
                 = Some (default Scenario.early_state
                           (Logs.read_to_the_end 1 0 Scenario.early_state)))
      by (vm_compute; reflexivity).
    rewrite Hs in Hl. inversion Hl; subst s'. clear Hl Hs.
    vm_compute in Hr'. inversion Hr'; subst r'. reflexivity.
Defined.

(** ** The further properties on runs *)

Lemma fullLog_is_what_was_written_run :
  Logs.fullLog (Logs.dispatcher Scenario.hello_state)
  = inputs Scenario.hello_events.
Proof.
  apply (fullLog_is_what_was_written Scenario.hello_events Scenario.hello_state).
  vm_compute. reflexivity.
Defined.

Lemma reader_has_read_a_prefix_run :
  data (Logs.returns Examples.hello_reader)
    `prefix_of` Logs.fullLog (Logs.dispatcher Scenario.hello_state) /\
  Logs.startIdx (Logs.lr Examples.hello_reader)
  = Z.of_nat (length (data (Logs.returns Examples.hello_reader))).
Proof.
  apply (reader_has_read_a_prefix Scenario.hello_events Scenario.hello_state 0%nat);
    vm_compute; reflexivity.
Defined.

(** The dispatcher with a waiting reader takes an input, and a second
    reader can ask. *)
Lemma dispatcher_is_never_stuck_run :
  is_Some (Logs.step Examples.waiting_state (Logs.EvInput Scenario.hi)).
Proof.
  destruct (dispatcher_is_never_stuck Examples.waiting_events Examples.waiting_state
              ltac:(vm_compute; reflexivity)) as (H & _ & _).
  apply H; vm_compute; [reflexivity|discriminate].
Defined.

Lemma EOF_is_final_run :
  Logs.respCh (Logs.lr Examples.hello_reader) = None /\
  Logs.inputCh_open (Logs.dispatcher Scenario.hello_state) = false /\
  Scenario.hi = data (Logs.returns Examples.hello_reader) /\
  data (Logs.returns Examples.hello_reader)
  = Logs.fullLog (Logs.dispatcher Scenario.hello_state) /\
  Logs.step Scenario.hello_state (Logs.EvRead 0 3)
  = Some (Logs.set_reader Scenario.hello_state 0
            (Logs.returned Examples.hello_reader Logs.REOF)).
Proof.
  apply (EOF_is_final Scenario.hello_events Scenario.hello_state 0%nat
           Examples.hello_reader Scenario.hi 3%nat);
    vm_compute; reflexivity.
Defined.

Lemma followers_are_waiting_readers_run :
  Logs.inputCh_open (Logs.dispatcher Examples.waiting_state) = true /\
  exists r c,
    Logs.readers Examples.waiting_state !! 0%nat = Some r /\
    Logs.chans Examples.waiting_state !! 0%nat = Some c /\
    Logs.at_ r <> Logs.Idle /\ Logs.respCh (Logs.lr r) = Some 0%nat /\
    data (Logs.returns r) = Logs.fullLog (Logs.dispatcher Examples.waiting_state) /\
    Logs.buf c = None /\ Logs.closed c = false.
Proof.
  apply (followers_are_waiting_readers Examples.waiting_events
           Examples.waiting_state 0%nat);
    vm_compute; reflexivity.
Defined.

Lemma input_reaches_every_follower_run :
  Logs.followers (Logs.dispatcher Examples.fed_state) = ∅ /\
  Logs.chans Examples.fed_state !! 0%nat
  = Some {| Logs.buf := Some Scenario.hi; Logs.closed := false |}.
Proof.
  destruct (input_reaches_every_follower Examples.waiting_state Scenario.hi
              Examples.fed_state ltac:(vm_compute; reflexivity)) as [H1 H2].
  split; [exact H1|]. apply (H2 0%nat). vm_compute. reflexivity.
Defined.

Lemma close_releases_the_followers_run :
  Logs.followers (Logs.dispatcher Examples.closed_state) = ∅ /\
  Logs.chans Examples.closed_state !! 0%nat
  = Some {| Logs.buf := None; Logs.closed := true |} /\
  exists s2 r2,
    Logs.step Examples.closed_state (Logs.EvRecv 0) = Some s2 /\
    Logs.readers s2 !! 0%nat = Some r2 /\
    Logs.returns r2 = Logs.returns Examples.waiting_reader ++ [Logs.REOF] /\
    Logs.read_until_EOF (Logs.returns r2)
    = Some (Logs.fullLog (Logs.dispatcher Examples.closing_state)).
Proof.
  apply (close_releases_the_followers
           (Examples.waiting_events ++ [Logs.EvCloseInput])
           Examples.closing_state Examples.closed_state 0%nat
           Examples.waiting_reader 10%nat);
    vm_compute; reflexivity.
Defined.

Lemma Start_then_Status_run :
  Controller_Status Examples.c1 "alice" "1"
  = Ok {| ID := "1"; Command := "sleep"; Args := ["100"]; Started := 1;
          Running := true; ExitCode := NotTerminated; Stopped := 0 |} /\
  (forall caller, caller <> "alice" ->
     exists e, Controller_Status Examples.c1 caller "1" = Err e /\
               Is e ErrUnauthorized = true) /\
  (forall id', id' <> "1" ->
     jobs Examples.c1 !! id' = jobs (Scenario.fresh no_faults).1 !! id') /\
  wg Examples.c1 = wg (Scenario.fresh no_faults).1 + 1.
Proof.
  apply (Start_then_Status no_faults 1 (Scenario.fresh no_faults).1 "alice"
           "sleep" ["100"] (Scenario.fresh no_faults).2 Examples.c1 Examples.w1 "1").
  vm_compute. reflexivity.
Defined.

Lemma ids_are_never_reused_run :
  "2" = FormatUint (maxID Examples.c1 + 1) /\
  1 <= maxID Examples.c1 + 1 <= Z.of_nat 1 + 1 /\
  jobs Examples.c1 !! "2" = None.
Proof.
  apply (ids_are_never_reused no_faults [WithLimits Scenario.alice_limits]
           Scenario.world0 (Scenario.fresh no_faults).2 (Scenario.fresh no_faults).1
           [OpStart 1 "alice" "sleep" ["100"]] Examples.c1 Examples.w1
           2 "bob" "true" [] Examples.second.1.1 Examples.second.1.2 "2");
    vm_compute; reflexivity.
Defined.

Lemma deleteCgroup_asks_first_run :
  new_calls Scenario.world0 (deleteCgroup no_faults "/sys/fs/cgroup/none"
                               Scenario.world0).1
  = [(Stat "/sys/fs/cgroup/none", Some ErrNotExist)].
Proof.
  destruct (deleteCgroup_asks_first no_faults "/sys/fs/cgroup/none" Scenario.world0
              (deleteCgroup no_faults "/sys/fs/cgroup/none" Scenario.world0).1
              (deleteCgroup no_faults "/sys/fs/cgroup/none" Scenario.world0).2
              ltac:(vm_compute; reflexivity)) as (H & _).
  apply H; vm_compute; [discriminate|reflexivity].
Defined.

Lemma job_stop_kills_its_process_run :
  exists o,
    new_calls Examples.w1 (job_stop no_faults Examples.sleeper Examples.w1).1
    = [(Kill 7, o)].
Proof.
  destruct (job_stop_kills_its_process no_faults Examples.sleeper Examples.w1
              (job_stop no_faults Examples.sleeper Examples.w1).1
              (job_stop no_faults Examples.sleeper Examples.w1).2
              ltac:(vm_compute; reflexivity)) as (_ & _ & H).
  destruct (H ltac:(reflexivity)) as (o & Ho & _). exists o. exact Ho.
Defined.

Lemma NewController_makes_the_parent_cgroup_run :
  new_calls Scenario.world0 (Scenario.fresh no_faults).2
  = [ok (Mkdir "/sys/fs/cgroup/telejob");
     ok (WriteFile "/sys/fs/cgroup/telejob" "cgroup.subtree_control"
           "+cpu +io +memory")].
Proof.
  destruct (NewController_makes_the_parent_cgroup no_faults
              [WithLimits Scenario.alice_limits] Scenario.world0
              (Scenario.fresh no_faults).2 (Ok (Scenario.fresh no_faults).1)
              ltac:(vm_compute; reflexivity)) as [H _].
  destruct (H (Scenario.fresh no_faults).1 ltac:(reflexivity)) as (Hc & _).
  exact Hc.
Defined.


Lemma Status_is_consistent_run :
  Running (status Examples.sleeper) = true /\
  ExitCode (status Examples.sleeper) = NotTerminated /\
  Stopped (status Examples.sleeper) = 0 \/
  Running (status Examples.sleeper) = false /\
  -1 <= ExitCode (status Examples.sleeper) <= 255 /\
  Stopped (status Examples.sleeper) <> 0.
Proof.
  apply (Status_is_consistent no_faults [WithLimits Scenario.alice_limits]
           Scenario.world0 (Scenario.fresh no_faults).2 (Scenario.fresh no_faults).1
           Examples.two_jobs Examples.busy.1 Examples.busy.2 "alice" "1").
  - vm_compute. reflexivity.
  - repeat constructor.
  - vm_compute. reflexivity.
  - vm_compute. reflexivity.
Defined.

Lemma Start_limits_come_first_run :
  exists o,
    new_calls (Scenario.fresh no_faults).2 Examples.w1
    = [ok (Mkdir "/sys/fs/cgroup/telejob/1");
       ok (WriteFile "/sys/fs/cgroup/telejob/1" "cpu.max" ("50000" ++ newline));
       ok (WriteFile "/sys/fs/cgroup/telejob/1" "memory.max" ("1024000" ++ newline));
       ok (WriteFile "/sys/fs/cgroup/telejob/1" "io.max" "252:1 rbps=1000000");
       ok (Open "/sys/fs/cgroup/telejob/1");
       ok (StartProcess "sleep" ["100"] "/sys/fs/cgroup/telejob/1");
       (Close "/sys/fs/cgroup/telejob/1", o)].
Proof.
  destruct (Start_limits_come_first no_faults 1 (Scenario.fresh no_faults).1
              "alice" "sleep" ["100"] (Scenario.fresh no_faults).2
              Examples.c1 Examples.w1 "1" ltac:(vm_compute; reflexivity))
    as (o & Ho & _).
  exists o. rewrite Ho. vm_compute. reflexivity.
Defined.

Lemma configuration_is_fixed_run :
  limits Examples.busy.1 = limits (Scenario.fresh no_faults).1 /\
  telejobCgroup Examples.busy.1 = telejobCgroup (Scenario.fresh no_faults).1.
Proof.
  destruct (configuration_is_fixed no_faults) as (_ & _ & _ & H).
  exact (H Examples.two_jobs (Scenario.fresh no_faults).1 (Scenario.fresh no_faults).2).
Defined.

Lemma clean_shutdown_leaves_no_cgroup_run :
  wg_counts Examples.busy.1 /\
  Examples.shut.2 = None /\ dirs Examples.shut.1.2 = dirs Scenario.world0 /\
  (forall id j, jobs Examples.shut.1.1 !! id = Some j ->
                Running (status j) = false) /\
  wg Examples.shut.1.1 = 0.
Proof.
  apply (clean_shutdown_leaves_no_cgroup [WithLimits Scenario.alice_limits]
           Scenario.world0 (Scenario.fresh no_faults).2 (Scenario.fresh no_faults).1
           Examples.two_jobs Examples.busy.1 Examples.busy.2 Scenario.all_killed);
    vm_compute; reflexivity.
Defined.

Lemma statusFromPB_pbJobStatus_run :
  statusFromPB (pbJobStatus (status Examples.sleeper)) = status Examples.sleeper /\
  timeFromPB (pbTimestamp epoch) = 0 /\ epoch <> 0.
Proof.
  apply (statusFromPB_pbJobStatus (status Examples.sleeper)); vm_compute; discriminate.
Defined.

Lemma status_line_of_a_running_job_run :
  status_line (fun _ _ => "12:00") (fun _ => "") (pbJobStatus (status Examples.sleeper))
    "15:04"
  = ("1" ++ tab ++ "sleep 100" ++ tab ++ "running" ++ tab ++ "12:00"
     ++ tab ++ tab ++ newline)%string.
Proof.
  rewrite (status_line_of_a_running_job (fun _ _ => "12:00") (fun _ => "")
             (status Examples.sleeper) "15:04"
             ltac:(reflexivity) ltac:(reflexivity) ltac:(reflexivity)).
  vm_compute. reflexivity.
Defined.

(** [alice] reads and stops her job; [bob] is refused. *)
Lemma Status_and_Stop_through_the_service_run :
  unaryInterceptorCN Examples.alice_ctx "1"
    (Service_Status Examples.quote Examples.text) (Examples.c1, Examples.w1)
  = (Examples.c1, Examples.w1, Reply (pbJobStatus (status Examples.sleeper))) /\
  unaryInterceptorCN Examples.bob_ctx "1"
    (Service_Stop Examples.quote Examples.text no_faults) (Examples.c1, Examples.w1)
  = (Examples.c1, Examples.w1,
     Fail {| status_code := PermissionDenied;
             status_message := "no ownership of job " ++ Examples.quote "1" |}).
Proof.
  pose proof (Status_and_Stop_through_the_service no_faults Examples.quote
                Examples.text Examples.alice_ctx "alice" "1" Examples.c1 Examples.w1
                ltac:(reflexivity)) as Ha.
  pose proof (Status_and_Stop_through_the_service no_faults Examples.quote
                Examples.text Examples.bob_ctx "bob" "1" Examples.c1 Examples.w1
                ltac:(reflexivity)) as Hb.
  assert (Hj : jobs Examples.c1 !! "1" = Some Examples.sleeper)
    by (vm_compute; reflexivity).
  rewrite Hj in Ha, Hb. simpl in Ha, Hb.
  destruct Ha as (Ha & _). destruct Hb as (_ & Hb). split; assumption.
Defined.

Lemma Start_through_the_service_run :
  Controller_Status Examples.served_start.1.1 "alice" "1"
  = Ok {| ID := "1"; Command := "sleep"; Args := ["100"]; Started := 1;
          Running := true; ExitCode := NotTerminated; Stopped := 0 |}.
Proof.
  exact (Start_through_the_service no_faults Examples.text 1 Examples.alice_ctx
           "alice" {| Pb.Command_ := "sleep"; Pb.Arguments_ := ["100"] |}
           (Scenario.fresh no_faults).1 (Scenario.fresh no_faults).2
           Examples.served_start.1.1 Examples.served_start.1.2
           (Reply {| Pb.StartResponse_Id := "1" |})
           ltac:(reflexivity) ltac:(vm_compute; reflexivity)).
Defined.

(** The owner of [alice]'s call is [alice], whatever its context said. *)
Lemma interceptors_set_the_owner_run :
  exists ctx',
    extractOwner ctx' = Some "alice" /\
    unaryInterceptorCN Examples.alice_ctx "1"
      (Service_Status Examples.quote Examples.text) (Examples.c1, Examples.w1)
    = Service_Status Examples.quote Examples.text ctx' "1" (Examples.c1, Examples.w1).
Proof.
  destruct (interceptors_set_the_owner Examples.alice_ctx "1"
              (Service_Status Examples.quote Examples.text)
              tt tt (fun _ : unit => Examples.alice_ctx)
              (fun (_ : unit) (_ : wrappedServerStream unit) s =>
                 (s, @Reply unit tt))
              (Examples.c1, Examples.w1) ltac:(reflexivity))
    as (ctx' & Ho & _ & Hu & _).
  exists ctx'. split; assumption.
Defined.

Lemma NewServer_verifies_its_clients_run :
  match Examples.served.2 with
  | inl s =>
      Creds.ClientAuth _ _ (Creds.server_tls _ _ s) = Creds.RequireAndVerifyClientCert /\
      Creds.ClientCAs _ _ (Creds.server_tls _ _ s) = Some [Scenario.hi]
  | inr _ => False
  end.
Proof.
  pose proof (NewServer_verifies_its_clients string (list (list Byte.byte))
                Examples.load_pair None Examples.read_file Examples.append_PEM
                no_faults "server.crt" "server.key" "client-ca.crt" []
                Scenario.world0 Examples.served.1 Examples.served.2
                ltac:(vm_compute; reflexivity)) as H.
  destruct Examples.served.2 as [s|[e|e]] eqn:Hs; try (vm_compute in Hs; discriminate Hs).
  destruct H as (H1 & _ & _ & (b & pool & Hb & Hp & Hc) & _). split; [exact H1|].
  rewrite Hc. vm_compute in Hb. inversion Hb; subst b.
  vm_compute in Hp. inversion Hp; subst pool. reflexivity.
Defined.

Lemma client_trusts_the_named_CA_run :
  match Creds.clientTLSConfig string (list (list Byte.byte)) Examples.load_pair
          None Examples.read_file Examples.append_PEM
          "server.crt" "server.key" "client-ca.crt" with
  | inl cfg => Creds.RootCAs _ _ cfg = Some [Scenario.hi]
  | inr _ => False
  end.
Proof.
  pose proof (client_trusts_the_named_CA string (list (list Byte.byte))
                Examples.load_pair None Examples.read_file Examples.append_PEM
                "server.crt" "server.key" "client-ca.crt" _ ltac:(reflexivity)) as H.
  vm_compute. vm_compute in H. destruct H as (_ & _ & pool & Hp & _ & _).
  reflexivity.
Defined.
